(** * vcf2cytosure: interval algebra, probe geometry, admission filter,
      event extraction and coverage aggregation

    A shallow embedding of [vcf2cytosure.py] and the properties of its
    natural-language specification.

    Conventions of the embedding:
    - Python [int] is [Z]; Python [float] is IEEE-754 binary64, taken from
      the Standard Library's [SpecFloat] at precision 53 and [emax = 1024];
    - a Python exception is a value of [py_exn]; a function that can raise
      returns [result];
    - a generator is the list of the values it yields, together with the way
      it ends where that matters;
    - [dict]s are [gmap]s, [str] is [string]. *)

From Stdlib Require Import ZArith Lia Bool Ascii.
From Stdlib Require Import Floats.SpecFloat.
From stdpp Require Import base decidable list sorting gmap strings.

Local Open Scope Z_scope.

(* ================================================================== *)
(** * Part I: the program *)
(* ================================================================== *)

(** ** Python exceptions *)

(** The built-in exceptions the modelled code can raise, and [NamedError]
    for an exception class identified by its name only. *)
Inductive py_exn : Type :=
  | ZeroDivisionError
  | TypeError
  | ValueError
  | IndexError
  | OverflowError
  | AssertionError
  | NamedError (name : string).

Inductive result (A : Type) : Type :=
  | Ok (a : A)
  | Raise (e : py_exn).
Arguments Ok {A} a.
Arguments Raise {A} e.

#[global] Instance result_ret : MRet result := λ A a, Ok a.

#[global] Instance result_bind : MBind result := λ A B k r,
  match r with
  | Ok a => k a
  | Raise e => Raise e
  end.

(** A Python iterable handed to a function that loops over it more than
    once: a [Collection] (list, tuple) starts again on every loop, a
    [Generator] is exhausted by the first loop. *)
Inductive iterable (A : Type) : Type :=
  | Collection (items : list A)
  | Generator (pending : list A).
Arguments Collection {A} items.
Arguments Generator {A} pending.

Definition first_pass {A} (it : iterable A) : list A :=
  match it with Collection l => l | Generator l => l end.

Definition second_pass {A} (it : iterable A) : list A :=
  match it with Collection l => l | Generator _ => [] end.

(** ** IntervalAlgebra *)

Definition interval : Type := Z * Z.

(** The tags of [merge_intervals]' sweep.  Python orders the tuples
    [(pos, tag)] by position, then by the tag strings. *)
Inductive sweep_tag : Type := START | STOP.

Definition sweep_tag_str (t : sweep_tag) : string :=
  match t with START => "START" | STOP => "STOP" end.

Definition sweep_event : Type := Z * sweep_tag.

Definition sweep_event_leb (a b : sweep_event) : bool :=
  (a.1 <? b.1) ||
  ((a.1 =? b.1) && String.leb (sweep_tag_str a.2) (sweep_tag_str b.2)).

Definition sweep_event_le : relation sweep_event :=
  λ a b, Is_true (sweep_event_leb a b).

#[global] Instance sweep_event_le_dec : RelDecision sweep_event_le :=
  λ a b, Is_true_dec (sweep_event_leb a b).

(** The [for pos, what in events] loop of [merge_intervals], with the
    local variables [active] and [start] threaded through. *)
Fixpoint merge_sweep (active start : Z) (events : list sweep_event)
  : list interval :=
  match events with
  | [] => []
  | (pos, START) :: rest =>
      merge_sweep (active + 1) (if active =? 0 then pos else start) rest
  | (pos, STOP) :: rest =>
      if active - 1 =? 0
      then (start, pos) :: merge_sweep (active - 1) start rest
      else merge_sweep (active - 1) start rest
  end.

(** [merge_intervals] loops over its argument twice (once for the START
    events, once for the STOP events) and sorts the events; [events.sort()]
    returns the sorted permutation, which is unique for this order. *)
Definition merge_intervals (intervals : iterable interval) : list interval :=
  let events :=
    ((λ coord : interval, (coord.1, START)) <$> first_pass intervals) ++
    ((λ coord : interval, (coord.2, STOP)) <$> second_pass intervals) in
  merge_sweep 0 0 (merge_sort sweep_event_le events).

(** [complement_intervals], with the running [prev_end]. *)
Fixpoint complement_from (prev_end : Z) (intervals : list interval)
    (chromosome_length : Z) : list interval :=
  match intervals with
  | [] =>
      if decide (prev_end ≠ chromosome_length)
      then [(prev_end, chromosome_length)] else []
  | (start, end_) :: rest =>
      (if decide (prev_end ≠ start) then [(prev_end, start)] else []) ++
      complement_from end_ rest chromosome_length
  end.

Definition complement_intervals (intervals : list interval)
    (chromosome_length : Z) : list interval :=
  complement_from 0 intervals chromosome_length.

(** ** Vocabulary of the interval properties *)

(** A position lies in the half-open interval [[start, end)]. *)
Definition in_interval (p : Z) (i : interval) : Prop := i.1 ≤ p < i.2.

(** An interval that is well formed and lies inside [[0, L)]. *)
Definition inside (L : Z) (i : interval) : Prop :=
  0 ≤ i.1 ∧ i.1 ≤ i.2 ∧ i.2 ≤ L.

Definition covered (X : list interval) (p : Z) : Prop :=
  ∃ i, i ∈ X ∧ in_interval p i.

Definition pairwise_disjoint (X : list interval) : Prop :=
  ∀ (i j : nat) (c d : interval),
    i ≠ j → X !! i = Some c → X !! j = Some d →
    ∀ p, ¬ (in_interval p c ∧ in_interval p d).

(** Sorted and non-overlapping as half-open intervals: each interval is
    well formed and ends no later than the next one starts. *)
Fixpoint ascending_from (lo : Z) (X : list interval) : Prop :=
  match X with
  | [] => True
  | (a, b) :: rest => lo ≤ a ∧ a ≤ b ∧ ascending_from b rest
  end.

Definition sorted_non_overlapping (X : list interval) : Prop :=
  match X with
  | [] => True
  | (a, b) :: rest => a ≤ b ∧ ascending_from b rest
  end.

(** Sorted with a gap between consecutive intervals: each interval is well
    formed and ends strictly before the next one starts. *)
Fixpoint gapped_from (lo : Z) (X : list interval) : Prop :=
  match X with
  | [] => True
  | (a, b) :: rest => lo < a ∧ a ≤ b ∧ gapped_from b rest
  end.

Definition sorted_with_gaps (X : list interval) : Prop :=
  match X with
  | [] => True
  | (a, b) :: rest => a ≤ b ∧ gapped_from b rest
  end.

(** ** Auxiliary definitions of the proofs *)

(** The sorted events of a list of intervals that is sorted with gaps. *)
Fixpoint interleave (X : list interval) : list sweep_event :=
  match X with
  | [] => []
  | (a, b) :: rest => (a, START) :: (b, STOP) :: interleave rest
  end.

(** Events in which every STOP closes an interval that is open: [active]
    never drops below zero and ends at zero. *)
Fixpoint balanced (active : Z) (events : list sweep_event) : Prop :=
  match events with
  | [] => active = 0
  | (_, START) :: rest => 0 ≤ active ∧ balanced (active + 1) rest
  | (_, STOP) :: rest => 1 ≤ active ∧ balanced (active - 1) rest
  end.

(** The number of intervals open at position [p], counted on the events:
    STARTs at or before [p] minus STOPs at or before [p]. *)
Definition event_weight (p : Z) (e : sweep_event) : Z :=
  if e.1 <=? p then match e.2 with START => 1 | STOP => -1 end else 0.

Fixpoint open_count (events : list sweep_event) (p : Z) : Z :=
  match events with
  | [] => 0
  | e :: rest => event_weight p e + open_count rest p
  end.

(** Insertion into a sorted list of events. *)
Fixpoint insert_event (x : sweep_event) (l : list sweep_event)
  : list sweep_event :=
  match l with
  | [] => [x]
  | y :: l' =>
      if decide (sweep_event_le x y) then x :: y :: l'
      else y :: insert_event x l'
  end.

Definition interval_events (X : list interval) : list sweep_event :=
  ((λ coord : interval, (coord.1, START)) <$> X) ++
  ((λ coord : interval, (coord.2, STOP)) <$> X).

(** ** Python floats *)

(** IEEE-754 binary64, as specified by [SpecFloat]. *)
Definition float : Type := spec_float.
Definition prec : Z := 53.
Definition emax : Z := 1024.

Definition float_add : float → float → float := SFadd prec emax.
Definition float_sub : float → float → float := SFsub prec emax.
Definition float_mul : float → float → float := SFmul prec emax.

(** An integer as an unrounded binary number, [m * 2^0]. *)
Definition exact_of_int (z : Z) : float :=
  match z with
  | Z0 => S754_zero false
  | Zpos m => S754_finite false m 0
  | Zneg m => S754_finite true m 0
  end.

(** [float(i)], the conversion applied to an [int] operand of a mixed
    operation: the nearest float, ties to even; [OverflowError] beyond
    the range. *)
Definition float_of_int (z : Z) : result float :=
  match binary_normalize prec emax z 0 false with
  | S754_infinity _ => Raise OverflowError
  | f => Ok f
  end.

(** [a / b] on two [int]s: the correctly rounded quotient. *)
Definition int_truediv (a b : Z) : result float :=
  if decide (b = 0) then Raise ZeroDivisionError
  else match SFdiv prec emax (exact_of_int a) (exact_of_int b) with
       | S754_infinity _ => Raise OverflowError
       | f => Ok f
       end.

(** [x / y] on two floats. *)
Definition float_truediv (x y : float) : result float :=
  match y with
  | S754_zero _ => Raise ZeroDivisionError
  | _ => Ok (SFdiv prec emax x y)
  end.

(** [int(x)]: truncation towards zero. *)
Definition int_of_float (x : float) : result Z :=
  match x with
  | S754_nan => Raise ValueError
  | S754_infinity _ => Raise OverflowError
  | S754_zero _ => Ok 0
  | S754_finite s m e =>
      let a := match e with
               | Zneg k => Zpos m `div` 2 ^ Zpos k
               | _ => Zpos m * 2 ^ e
               end in
      Ok (if s then - a else a)
  end.

(** ** ProbeGeometry *)

(** How far a generator got: it returned, it raised, or it is still
    running when the fuel of the model ran out. *)
Inductive gen_end : Type :=
  | Returned
  | Raised (e : py_exn)
  | Running.

(** The [while pos <= end] loop of [spaced_probes]; one unit of fuel per
    test of the loop condition. *)
Fixpoint spaced_probes_loop (fuel : nat) (start end_ : Z) (spacing : float)
    (i pos : Z) : list Z * gen_end :=
  match fuel with
  | O => ([], Running)
  | S fuel' =>
      if decide (pos ≤ end_) then
        match fi ← float_of_int (i + 1); int_of_float (float_mul fi spacing) with
        | Ok k =>
            let r := spaced_probes_loop fuel' start end_ spacing (i + 1) (start + k) in
            (pos :: r.1, r.2)
        | Raise e => ([pos], Raised e)
        end
      else ([], Returned)
  end.

Definition spaced_probes (fuel : nat) (start end_ probe_spacing : Z)
  : list Z * gen_end :=
  let l := end_ - start in
  if decide (probe_spacing = 0) then ([], Raised ZeroDivisionError)
  else
    let n := l `div` probe_spacing in
    match int_truediv l (Z.max n 2) with
    | Ok spacing => spaced_probes_loop fuel start end_ spacing 0 start
    | Raise e => ([], Raised e)
    end.

(** [range(lo, hi)]. *)
Definition py_range (lo hi : Z) : list Z := seqZ lo (hi - lo).

(** The float literal [0.1]. *)
Definition float_0_1 : float := S754_finite false 7205759403792794 (-56).

(** The [for i in range(...)] loop of [triangle_probes]. *)
Fixpoint triangle_probes_loop (center : Z) (height height_step : float)
    (pos_step : Z) (indices : list Z) : list (Z * float) * gen_end :=
  match indices with
  | [] => ([], Returned)
  | i :: rest =>
      match float_of_int (Z.abs i) with
      | Ok a =>
          let r := triangle_probes_loop center height height_step pos_step rest in
          ((center + i * pos_step,
            float_add (float_sub height (float_mul height_step a)) float_0_1)
           :: r.1, r.2)
      | Raise e => ([], Raised e)
      end
  end.

(** [triangle_probes]; [height] is a float, the other arguments are
    [int]s. *)
Definition triangle_probes (center : Z) (height : float) (width steps : Z)
  : list (Z * float) * gen_end :=
  if decide (steps - 1 = 0) then ([], Raised ZeroDivisionError)
  else
    let pos_step := (width - 1) `div` (steps - 1) in
    match d ← float_of_int ((steps - 1) `div` 2); float_truediv height d with
    | Ok height_step =>
        triangle_probes_loop center height height_step pos_step
          (py_range (- (steps `div` 2)) (steps `div` 2 + 1))
    | Raise e => ([], Raised e)
    end.

(** The float literal [2.5], the default [height] of [triangle_probes]. *)
Definition float_2_5 : float := S754_finite false 5629499534213120 (-51).

(** The heights [triangle_probes] computes for its defaults, from the left
    end to the centre. *)
Definition triangle_default_heights : list float :=
  [ S754_finite false 7205759403792794 (-56);
    S754_finite false 8235153604334622 (-54);
    S754_finite false 7334433678860521 (-53);
    S754_finite false 5275645277776867 (-52);
    S754_finite false 6884073716123473 (-52);
    S754_finite false 8492502154470078 (-52);
    S754_finite false 5050465296408342 (-51);
    S754_finite false 5854679515581645 (-51) ].

(** ** Vocabulary of the float properties *)

(** [m * 2^e ≤ K * 2^k] and [m * 2^e < K * 2^k] for exponents of either
    sign, compared at the smaller exponent. *)
Definition pow2_le (m e K k : Z) : Prop :=
  m * 2 ^ (e - Z.min e k) ≤ K * 2 ^ (k - Z.min e k).

Definition pow2_lt (m e K k : Z) : Prop :=
  m * 2 ^ (e - Z.min e k) < K * 2 ^ (k - Z.min e k).

(** A float that is zero, or positive and at most [K * 2^k]. *)
Definition float_at_most (f : float) (K k : Z) : Prop :=
  match f with
  | S754_zero _ => True
  | S754_finite false m e => pow2_le (Zpos m) e K k
  | _ => False
  end.

(** A shift record stands for an exact value. *)
Definition shr_exact (x : shr_record) : Prop :=
  loc_of_shr_record x = loc_Exact.

(** [y] is [x] shifted right by [log2 N] bits: the mantissa is divided by
    [N], and [y] is exact iff [x] was and no bit was lost. *)
Definition shifted (N : Z) (x y : shr_record) : Prop :=
  ∃ rem, 0 ≤ rem < N ∧ shr_m x = N * shr_m y + rem ∧ 0 ≤ shr_m y ∧
         (shr_exact y ↔ shr_exact x ∧ rem = 0).

(** ** Python values of INFO fields *)

(** The scalar values cyvcf2 returns for an INFO field. *)
Inductive info_value : Type :=
  | VInt (z : Z)
  | VFloat (f : float)
  | VStr (s : string).

(** Truth value of an object in a condition. *)
Definition truthy (v : info_value) : bool :=
  match v with
  | VInt z => negb (z =? 0)
  | VFloat (S754_zero _) => false
  | VFloat _ => true
  | VStr s => negb (String.eqb s "")
  end.

(** [if d.get(k):] is false for a missing key as well. *)
Definition truthy_opt (v : option info_value) : bool :=
  match v with Some x => truthy x | None => false end.

(** [d.get(k) == s] for a string literal [s]. *)
Definition is_str (v : option info_value) (s : string) : bool :=
  match v with Some (VStr t) => String.eqb t s | _ => false end.

(** Exact comparison of a float with an integer; [None] for NaN. *)
Definition float_compare_int (f : float) (z : Z) : option comparison :=
  match f with
  | S754_nan => None
  | S754_infinity s => Some (if s then Lt else Gt)
  | S754_zero _ => Some (0 ?= z)
  | S754_finite s m e =>
      let sm := if s then Zneg m else Zpos m in
      Some (match e with
            | Zneg k => sm ?= z * 2 ^ Zpos k
            | _ => sm * 2 ^ e ?= z
            end)
  end.

(** Rich comparison of two values: the ordering, [None] when a NaN makes
    every comparison false, [TypeError] between a string and a number. *)
Definition py_compare (a b : info_value) : result (option comparison) :=
  match a, b with
  | VInt x, VInt y => Ok (Some (x ?= y))
  | VFloat f, VFloat g => Ok (SFcompare f g)
  | VFloat f, VInt y => Ok (float_compare_int f y)
  | VInt x, VFloat g => Ok (CompOpp <$> float_compare_int g x)
  | VStr s, VStr t => Ok (Some (String.compare s t))
  | _, _ => Raise TypeError
  end.

Definition py_le (a b : info_value) : result bool :=
  c ← py_compare a b;
  Ok (match c with Some Lt | Some Eq => true | _ => false end).

Definition py_lt (a b : info_value) : result bool :=
  c ← py_compare a b;
  Ok (match c with Some Lt => true | _ => false end).

Definition py_gt (a b : info_value) : result bool :=
  c ← py_compare a b;
  Ok (match c with Some Gt => true | _ => false end).

(** [a + b] and [a - b] on numbers ([str + str] is not needed). *)
Definition py_arith (op_int : Z → Z → Z) (op_float : float → float → float)
    (a b : info_value) : result info_value :=
  match a, b with
  | VInt x, VInt y => Ok (VInt (op_int x y))
  | VFloat f, VFloat g => Ok (VFloat (op_float f g))
  | VInt x, VFloat g => f ← float_of_int x; Ok (VFloat (op_float f g))
  | VFloat f, VInt y => g ← float_of_int y; Ok (VFloat (op_float f g))
  | _, _ => Raise TypeError
  end.

Definition py_add_num : info_value → info_value → result info_value :=
  py_arith Z.add float_add.
Definition py_sub : info_value → info_value → result info_value :=
  py_arith Z.sub float_sub.

Definition py_abs (a : info_value) : result info_value :=
  match a with
  | VInt x => Ok (VInt (Z.abs x))
  | VFloat f => Ok (VFloat (SFabs f))
  | VStr _ => Raise TypeError
  end.

(** ** Raw variant records and Events *)

(** What the code reads of a cyvcf2 [Variant]. *)
Record Variant : Type := {
  CHROM : string;
  variant_start : Z;
  REF : string;
  ALT : list string;
  INFO : gmap string info_value
}.

(** The namedtuple [Event]; [ev_end] is [None] for a point event.  After
    the swap in [events] the field [start] holds what was [END]. *)
Record Event : Type := {
  ev_chrom : string;
  ev_start : info_value;
  ev_end : option info_value;
  ev_type : option info_value;
  ev_info : gmap string info_value
}.

(** The body of the loop of [events] for one variant: [None] when the
    variant is skipped.  The arguments of [logger.debug] are evaluated
    before the call. *)
Definition event_of (CONTIG_LENGTHS : gmap string Z) (variant : Variant)
  : result (option Event) :=
  if decide (length (ALT variant) ≠ 1%nat) then Ok None
  else
    let chrom := CHROM variant in
    if decide (CONTIG_LENGTHS !! chrom = None) then Ok None
    else
      let start := VInt (variant_start variant) in
      let sv_type := INFO variant !! "SVTYPE" in
      if truthy_opt (INFO variant !! "END") then
        match INFO variant !! "END" with
        | Some end_ =>
            swap ← py_le start end_;
            let '(start, end_) :=
              if swap : bool then (end_, start) else (start, end_) in
            _ ← py_add_num start (VInt 1);
            _ ← py_sub end_ start;
            if decide (String.length (REF variant) = 1%nat) then
              Ok (Some {| ev_chrom := chrom; ev_start := start;
                          ev_end := Some end_; ev_type := sv_type;
                          ev_info := INFO variant |})
            else Raise AssertionError
        | None => Ok None
        end
      else
        Ok (Some {| ev_chrom := chrom; ev_start := start; ev_end := None;
                    ev_type := sv_type; ev_info := INFO variant |}).

(** The generator [events]: the Events yielded, and how it ended. *)
Fixpoint events (CONTIG_LENGTHS : gmap string Z) (variants : list Variant)
  : list Event * gen_end :=
  match variants with
  | [] => ([], Returned)
  | variant :: rest =>
      match event_of CONTIG_LENGTHS variant with
      | Raise e => ([], Raised e)
      | Ok None => events CONTIG_LENGTHS rest
      | Ok (Some ev) =>
          let r := events CONTIG_LENGTHS rest in (ev :: r.1, r.2)
      end
  end.

(** ** Python strings *)

(** [s.split(sep)] for a one-character separator. *)
Fixpoint split_on (sep : ascii) (s : string) : list string :=
  match s with
  | EmptyString => [EmptyString]
  | String c s' =>
      if Ascii.eqb c sep then EmptyString :: split_on sep s'
      else match split_on sep s' with
           | part :: parts => String c part :: parts
           | [] => [String c EmptyString]
           end
  end.

Definition drop_two (s : string) : string :=
  match s with
  | String _ (String _ rest) => rest
  | _ => EmptyString
  end.

Fixpoint drop_last (s : string) : string :=
  match s with
  | EmptyString => EmptyString
  | String c EmptyString => EmptyString
  | String c s' => String c (drop_last s')
  end.

(** The slice [s[2:-1]]. *)
Definition slice_2_m1 (s : string) : string := drop_last (drop_two s).

(** [l[0]], [l[1]] and [l[-1]] on a list. *)
Definition item {A} (l : list A) (i : nat) : result A :=
  match l !! i with Some x => Ok x | None => Raise IndexError end.

Definition item_last {A} (l : list A) : result A :=
  match last l with Some x => Ok x | None => Raise IndexError end.

(** [int(s)] on an ASCII string: optional surrounding whitespace, an
    optional sign, decimal digits with single underscores between them. *)
Definition is_space (c : ascii) : bool :=
  let n := N_of_ascii c in
  ((9 <=? n) && (n <=? 13) || (28 <=? n) && (n <=? 32))%N.

Definition digit_value (c : ascii) : option Z :=
  let n := N_of_ascii c in
  if ((48 <=? n) && (n <=? 57))%N then Some (Z.of_N n - 48) else None.

Fixpoint lstrip (s : string) : string :=
  match s with
  | String c s' => if is_space c then lstrip s' else s
  | EmptyString => EmptyString
  end.

Fixpoint parse_digits (s : string) (acc : Z) (after_digit : bool) : option Z :=
  match s with
  | EmptyString => if after_digit then Some acc else None
  | String c s' =>
      match digit_value c with
      | Some d => parse_digits s' (10 * acc + d) true
      | None =>
          if Ascii.eqb c "_" && after_digit then parse_digits s' acc false
          else if is_space c && after_digit && String.eqb (lstrip s') ""
          then Some acc
          else None
      end
  end.

Definition py_int (s : string) : result Z :=
  let parsed :=
    match lstrip s with
    | String "+" digits => parse_digits digits 0 false
    | String "-" digits => Z.opp <$> parse_digits digits 0 false
    | digits => parse_digits digits 0 false
    end in
  match parsed with Some z => Ok z | None => Raise ValueError end.

(** ** VariantAdmission *)

(** Lines 368-371: the partner of a breakend, from [variant.ALT[0]].  The
    first assignment is overwritten, but its unpacking must succeed. *)
Definition breakend_partner (variant : Variant) : result (string * Z) :=
  alt0 ← item (ALT variant) 0;
  _ ← match split_on ":" (slice_2_m1 alt0) with
      | [_; _] => Ok ()
      | _ => Raise ValueError
      end;
  s1 ← item (split_on ":" alt0) 1;
  s2 ← item (split_on "]" s1) 0;
  s3 ← item (split_on "[" s2) 0;
  bnd_pos ← py_int s3;
  c1 ← item (split_on ":" alt0) 0;
  c2 ← item_last (split_on "]" c1);
  bnd_chrom ← item_last (split_on "[" c2);
  Ok (bnd_chrom, bnd_pos).

(** Lines 360-379: [Ok false] when the loop [continue]s on the size of the
    variant, [Ok true] when it goes on to the frequency check. *)
Definition size_check (min_size : Z) (variant : Variant) : result bool :=
  let end_ := INFO variant !! "END" in
  if truthy_opt end_ && negb (is_str (INFO variant !! "SVTYPE") "TRA") then
    match end_ with
    | Some e =>
        d ← py_sub e (VInt (variant_start variant));
        a ← py_abs d;
        too_short ← py_le a (VInt min_size);
        Ok (negb too_short)
    | None => Ok true
    end
  else if is_str (INFO variant !! "SVTYPE") "BND" then
    '(bnd_chrom, bnd_pos) ← breakend_partner variant;
    Ok (negb (String.eqb bnd_chrom (CHROM variant) &&
              (Z.abs (bnd_pos - variant_start variant) <? min_size)))
  else Ok true.

(** Lines 381-383: [Ok false] when the loop [continue]s on the frequency. *)
Definition frequency_check (max_frequency : float) (frequency_tag : string)
    (variant : Variant) : result bool :=
  match INFO variant !! frequency_tag with
  | Some frequency =>
      too_common ← py_gt frequency (VFloat max_frequency);
      Ok (negb too_common)
  | None => Ok true
  end.

(** Whether the loop body reaches [yield variant]. *)
Definition admits (min_size : Z) (max_frequency : float)
    (frequency_tag : string) (variant : Variant) : result bool :=
  big_enough ← size_check min_size variant;
  if big_enough : bool
  then frequency_check max_frequency frequency_tag variant
  else Ok false.

(** The generator [variant_filter]. *)
Fixpoint variant_filter (variants : list Variant) (min_size : Z)
    (max_frequency : float) (frequency_tag : string)
  : list Variant * gen_end :=
  match variants with
  | [] => ([], Returned)
  | variant :: rest =>
      match admits min_size max_frequency frequency_tag variant with
      | Raise e => ([], Raised e)
      | Ok admitted =>
          let r := variant_filter rest min_size max_frequency frequency_tag in
          (if admitted then variant :: r.1 else r.1, r.2)
      end
  end.

(** The default [max_frequency=0.01]. *)
Definition float_0_01 : float := S754_finite false 5764607523034235 (-59).

(** ** Vocabulary of the string properties *)

(** The character [c] does not occur in [s]. *)
Fixpoint lacks (c : ascii) (s : string) : Prop :=
  match s with
  | EmptyString => True
  | String a s' => a ≠ c ∧ lacks c s'
  end.

(** A piece of a breakend ALT allele besides its delimiters: no colon and
    no bracket. *)
Definition plain (s : string) : Prop :=
  lacks ":" s ∧ lacks "[" s ∧ lacks "]" s.

Definition bracket (c : ascii) : Prop := c = "["%char ∨ c = "]"%char.

(** ** Sample inputs *)

Definition sample_contigs : gmap string Z := {[ "1" := 249250621 ]}.

(** A deletion at [start=100] with [END=5200]. *)
Definition deletion_5100 : Variant :=
  {| CHROM := "1"; variant_start := 100; REF := "N"; ALT := ["<DEL>"];
     INFO := {[ "SVTYPE" := VStr "DEL"; "END" := VInt 5200 ]} |}.

(** A deletion record whose END field is 0. *)
Definition deletion_end_zero : Variant :=
  {| CHROM := "1"; variant_start := 100; REF := "N"; ALT := ["<DEL>"];
     INFO := {[ "SVTYPE" := VStr "DEL"; "END" := VInt 0 ]} |}.

(** A breakend whose partner is 50 bp away on the same contig. *)
Definition local_breakend : Variant :=
  {| CHROM := "1"; variant_start := 100; REF := "N"; ALT := ["N[1:150["];
     INFO := {[ "SVTYPE" := VStr "BND" ]} |}.

(** The same breakend, in a record that also carries an END field. *)
Definition local_breakend_with_end : Variant :=
  {| CHROM := "1"; variant_start := 100; REF := "N"; ALT := ["N[1:150["];
     INFO := {[ "SVTYPE" := VStr "BND"; "END" := VInt 10000 ]} |}.

(** ** CoverageAggregator *)

Record CoverageRecord : Type := {
  cr_chrom : string;
  cr_start : Z;
  cr_end : Z;
  coverage : float
}.

(** [a / b], true division of two numbers. *)
Definition py_truediv (a b : info_value) : result info_value :=
  match a, b with
  | VInt x, VInt y => q ← int_truediv x y; Ok (VFloat q)
  | VFloat f, VInt y => g ← float_of_int y; q ← float_truediv f g; Ok (VFloat q)
  | VInt x, VFloat g => f ← float_of_int x; q ← float_truediv f g; Ok (VFloat q)
  | VFloat f, VFloat g => q ← float_truediv f g; Ok (VFloat q)
  | _, _ => Raise TypeError
  end.

(** [sum(r.coverage for r in records)]: the sum starts from the [int] 0. *)
Fixpoint py_sum_from (total : info_value) (values : list float)
  : result info_value :=
  match values with
  | [] => Ok total
  | x :: rest => t ← py_add_num total (VFloat x); py_sum_from t rest
  end.

(** [compute_mean_coverage], on the records [parse_coverages] yields. *)
Definition compute_mean_coverage (records : list CoverageRecord)
  : result info_value :=
  total ← py_sum_from (VInt 0) (coverage <$> records);
  py_truediv total (VInt (Z.of_nat (length records))).

(** Lines 340-341 of [add_coverage_probes]: the mean over the records on a
    known contig. *)
Definition known_coverages (CONTIG_LENGTHS : gmap string Z)
    (records : list CoverageRecord) : list CoverageRecord :=
  filter (λ r, is_Some (CONTIG_LENGTHS !! cr_chrom r)) records.

Definition mean_coverage (CONTIG_LENGTHS : gmap string Z)
    (records : list CoverageRecord) : result info_value :=
  let coverages := known_coverages CONTIG_LENGTHS records in
  total ← py_sum_from (VInt 0) (coverage <$> coverages);
  py_truediv total (VInt (Z.of_nat (length coverages))).

(** The events of [subtract_intervals]: the tuples [(r.start, 'rec', r)],
    [(i[0], 'istart', None)] and [(i[1], 'iend', None)]. *)
Inductive sub_event : Type :=
  | EvRec (r : CoverageRecord)
  | EvIstart (pos : Z)
  | EvIend (pos : Z).

Definition sub_pos (e : sub_event) : Z :=
  match e with EvRec r => cr_start r | EvIstart p => p | EvIend p => p end.

Definition sub_tag (e : sub_event) : string :=
  match e with EvRec _ => "rec" | EvIstart _ => "istart" | EvIend _ => "iend" end.

(** [a < b] on two of these tuples, as [events.sort()] evaluates it: the
    first components that differ decide; two records at the same position
    are distinct objects without an order, which raises [TypeError]. *)
Definition sub_event_lt (a b : sub_event) : result bool :=
  if sub_pos a =? sub_pos b then
    if String.eqb (sub_tag a) (sub_tag b) then
      match a, b with
      | EvRec _, _ | _, EvRec _ => Raise TypeError
      | _, _ => Ok false
      end
    else Ok (String.ltb (sub_tag a) (sub_tag b))
  else Ok (sub_pos a <? sub_pos b).

(** [list.sort()] with a comparison that can raise: a stable insertion
    sort.  The sorted list does not depend on the sorting algorithm, and
    every algorithm compares neighbours of the result, so it raises exactly
    when this one does. *)
Fixpoint insert_sorted {A} (lt : A → A → result bool) (x : A) (l : list A)
  : result (list A) :=
  match l with
  | [] => Ok [x]
  | y :: l' =>
      b ← lt y x;
      if b : bool then l'' ← insert_sorted lt x l'; Ok (y :: l'')
      else Ok (x :: y :: l')
  end.

Fixpoint py_sort {A} (lt : A → A → result bool) (l : list A)
  : result (list A) :=
  match l with
  | [] => Ok []
  | x :: l' => s ← py_sort lt l'; insert_sorted lt x s
  end.

(** The loop of [subtract_intervals], with the flag [inside]. *)
Fixpoint subtract_sweep (inside : bool) (events : list sub_event)
  : list CoverageRecord :=
  match events with
  | [] => []
  | EvIstart _ :: rest => subtract_sweep true rest
  | EvIend _ :: rest => subtract_sweep false rest
  | EvRec record :: rest =>
      if inside then subtract_sweep inside rest
      else record :: subtract_sweep inside rest
  end.

(** The list [events] of [subtract_intervals] before it is sorted. *)
Definition sub_events (records : list CoverageRecord)
    (intervals : list interval) : list sub_event :=
  (EvRec <$> records) ++
  ((λ i : interval, EvIstart i.1) <$> intervals) ++
  ((λ i : interval, EvIend i.2) <$> intervals).

Definition subtract_intervals (records : list CoverageRecord)
    (intervals : list interval) : result (list CoverageRecord) :=
  events ← py_sort sub_event_lt (sub_events records intervals);
  Ok (subtract_sweep false events).

(** ** Auxiliary definitions of the coverage proofs *)

Definition sub_rank (e : sub_event) : Z :=
  match e with EvIend _ => 0 | EvIstart _ => 1 | EvRec _ => 2 end.

Definition sub_le (a b : sub_event) : Prop :=
  sub_pos a < sub_pos b ∨ (sub_pos a = sub_pos b ∧ sub_rank a ≤ sub_rank b).

Definition sub_lt (a b : sub_event) : Prop :=
  sub_pos a < sub_pos b ∨ (sub_pos a = sub_pos b ∧ sub_rank a < sub_rank b).

(** Two record events at one position: the comparison that raises. *)
Definition sub_clash (a b : sub_event) : Prop :=
  sub_pos a = sub_pos b ∧ sub_rank a = 2 ∧ sub_rank b = 2.

Definition rec_position (e : sub_event) : option Z :=
  match e with EvRec r => Some (cr_start r) | _ => None end.

(** The flag [inside] after a run of events. *)
Fixpoint inside_after (inside : bool) (events : list sub_event) : bool :=
  match events with
  | [] => inside
  | EvIstart _ :: rest => inside_after true rest
  | EvIend _ :: rest => inside_after false rest
  | EvRec _ :: rest => inside_after inside rest
  end.

(** Exclusion intervals that are non-empty, sorted and do not overlap:
    [a1 < b1 <= a2 < b2 <= ...]. *)
Fixpoint exclusions_from (lo : Z) (X : list interval) : Prop :=
  match X with
  | [] => True
  | (a, b) :: rest => lo ≤ a ∧ a < b ∧ exclusions_from b rest
  end.

Definition exclusions (X : list interval) : Prop :=
  match X with
  | [] => True
  | (a, b) :: rest => a < b ∧ exclusions_from b rest
  end.

(** The interval events of such a list, in sorted order. *)
Fixpoint boundaries (X : list interval) : list sub_event :=
  match X with
  | [] => []
  | (a, b) :: rest => EvIstart a :: EvIend b :: boundaries rest
  end.

Definition is_boundary (e : sub_event) : Prop := sub_rank e ≠ 2.

#[global] Instance is_boundary_dec (e : sub_event) : Decision (is_boundary e) :=
  decide (sub_rank e ≠ 2).

Definition sample_record (start : Z) : CoverageRecord :=
  {| cr_chrom := "1"; cr_start := start; cr_end := start + 100;
     coverage := float_2_5 |}.
(* ================================================================== *)
(** * Part I, continued: further functions of the program *)
(* ================================================================== *)

(** ** [group_by_chromosome] *)

(** The loop of [group_by_chromosome], with [prev_chrom] (which starts as
    Python's [None]) and the list [chromosome_records] being built.  A
    yielded list is never touched again: the variable is rebound to a new
    list after the [yield]. *)
Fixpoint group_loop (prev_chrom : option string)
    (chromosome_records records : list CoverageRecord)
  : list (option string * list CoverageRecord) :=
  match records with
  | [] =>
      match chromosome_records with
      | [] => []
      | _ => [(prev_chrom, chromosome_records)]
      end
  | record :: rest =>
      if decide (Some (cr_chrom record) ≠ prev_chrom) then
        match chromosome_records with
        | [] => group_loop (Some (cr_chrom record)) [record] rest
        | _ =>
            (prev_chrom, chromosome_records)
            :: group_loop (Some (cr_chrom record)) [record] rest
        end
      else
        group_loop (Some (cr_chrom record)) (chromosome_records ++ [record]) rest
  end.

Definition group_by_chromosome (records : list CoverageRecord)
  : list (option string * list CoverageRecord) :=
  group_loop None [] records.

(** ** [bin_coverages] *)

(** [range(lo, hi, step)]. *)
Definition py_range_step (lo hi step : Z) : result (list Z) :=
  if decide (step = 0) then Raise ValueError
  else
    let count :=
      if decide (0 < step) then (hi - lo + step - 1) `div` step
      else (lo - hi - step - 1) `div` (- step) in
    Ok ((λ k, lo + k * step) <$> seqZ 0 count).

(** The slice [l[i:j]]: a negative index counts from the end, and both
    indices are clamped to the list. *)
Definition slice_index {A} (l : list A) (k : Z) : nat :=
  let len := Z.of_nat (length l) in
  Z.to_nat (if decide (k < 0) then Z.max (k + len) 0 else Z.min k len).

Definition py_slice {A} (l : list A) (i j : Z) : list A :=
  take (slice_index l j - slice_index l i) (drop (slice_index l i) l).

(** Line 312: [sum(r.coverage for r in records) / len(records)]; the
    quotient of a true division is a float. *)
Definition bin_mean (records : list CoverageRecord) : result float :=
  total ← py_sum_from (VInt 0) (coverage <$> records);
  cov ← py_truediv total (VInt (Z.of_nat (length records)));
  match cov with
  | VFloat c => Ok c
  | _ => Raise TypeError
  end.

(** The body of the loop of [bin_coverages] for one index [i]. *)
Definition bin_at (chrom : string) (coverages : list CoverageRecord)
    (n i : Z) : result CoverageRecord :=
  let records := py_slice coverages i (i + n) in
  cov ← bin_mean records;
  first ← item records 0;
  last ← item_last records;
  Ok {| cr_chrom := chrom; cr_start := cr_start first;
        cr_end := cr_end last; coverage := cov |}.

Fixpoint bin_loop (chrom : string) (coverages : list CoverageRecord)
    (n : Z) (indices : list Z) : list CoverageRecord * gen_end :=
  match indices with
  | [] => ([], Returned)
  | i :: rest =>
      match bin_at chrom coverages n i with
      | Ok r =>
          let out := bin_loop chrom coverages n rest in (r :: out.1, out.2)
      | Raise e => ([], Raised e)
      end
  end.

(** The generator [bin_coverages]: the bins yielded, and how it ended. *)
Definition bin_coverages (coverages : list CoverageRecord) (n : Z)
  : list CoverageRecord * gen_end :=
  match item coverages 0 with
  | Raise e => ([], Raised e)
  | Ok first =>
      match py_range_step 0 (Z.of_nat (length coverages)) n with
      | Raise e => ([], Raised e)
      | Ok indices => bin_loop (cr_chrom first) coverages n indices
      end
  end.

(** ** Vocabulary of the coverage properties *)

(** Consecutive records abut: each one ends where the next one starts. *)
Definition abutting (records : list CoverageRecord) : Prop :=
  ∀ (i : nat) r r',
    records !! i = Some r → records !! S i = Some r' → cr_end r = cr_start r'.
(** ** Vocabulary of the float properties, continued *)

(** A float that is positive and at least [2^k] ([+inf] included). *)
Definition float_at_least (f : float) (k : Z) : Prop :=
  match f with
  | S754_finite false m e => pow2_le 1 k (Zpos m) e
  | S754_infinity false => True
  | _ => False
  end.

(** A float other than a negative finite number. *)
Definition not_negative (f : float) : Prop :=
  match f with
  | S754_finite true _ _ => False
  | _ => True
  end.
(** ** Auxiliary definitions of the interval proofs, continued *)

(** Events during which no interval is ever open: [active] stays at or
    below zero. *)
Fixpoint never_open (active : Z) (events : list sweep_event) : Prop :=
  active ≤ 0 ∧
  match events with
  | [] => True
  | (_, START) :: rest => never_open (active + 1) rest
  | (_, STOP) :: rest => never_open (active - 1) rest
  end.

(** ** Auxiliary definitions of the coverage proofs, continued *)

(** The record of a record event. *)
Definition event_record (e : sub_event) : option CoverageRecord :=
  match e with EvRec r => Some r | _ => None end.
(** ** [add_probes_between_events] *)

(** The arguments of one call [make_probe(probes, chromosome, start, end,
    height, text)]; each call appends one [<probe>] element to [probes]. *)
Record ProbeCall : Type := {
  pc_chromosome : string;
  pc_start : Z;
  pc_end : Z;
  pc_height : float;
  pc_text : string
}.

(** Lines 243-245: the probes of one gap between events. *)
Definition gap_probes (fuel : nat) (chrom : string) (start end_ : Z)
  : list ProbeCall * gen_end :=
  let r := spaced_probes fuel start end_ 200000 in
  ((λ pos, {| pc_chromosome := chrom; pc_start := pos; pc_end := pos + 60;
              pc_height := float_0_01; pc_text := "between events" |})
     <$> r.1,
   r.2).

(** Lines 242-245: the loop over the gaps of one chromosome.  The loop
    goes on to the next gap when [spaced_probes] returns. *)
Fixpoint gaps_probes (fuel : nat) (chrom : string) (gaps : list interval)
  : list ProbeCall * gen_end :=
  match gaps with
  | [] => ([], Returned)
  | (start, end_) :: rest =>
      let r := gap_probes fuel chrom start end_ in
      match r.2 with
      | Returned =>
          let r' := gaps_probes fuel chrom rest in (r.1 ++ r'.1, r'.2)
      | stopped => (r.1, stopped)
      end
  end.

(** [add_probes_between_events]: the calls of [make_probe] it makes, in
    order, and how it ended.  [chr_intervals] is the dict in the order of
    its items; [fuel] bounds each run of [spaced_probes]. *)
Fixpoint add_probes_between_events (fuel : nat)
    (CONTIG_LENGTHS : gmap string Z)
    (chr_intervals : list (string * list interval))
  : list ProbeCall * gen_end :=
  match chr_intervals with
  | [] => ([], Returned)
  | (chrom, intervals) :: rest =>
      match CONTIG_LENGTHS !! chrom with
      | None => add_probes_between_events fuel CONTIG_LENGTHS rest
      | Some chromosome_length =>
          let intervals := merge_intervals (Collection intervals) in
          let r := gaps_probes fuel chrom
                     (complement_intervals intervals chromosome_length) in
          match r.2 with
          | Returned =>
              let r' := add_probes_between_events fuel CONTIG_LENGTHS rest in
              (r.1 ++ r'.1, r'.2)
          | stopped => (r.1, stopped)
          end
      end
  end.
(** ** The default output path of [main] *)

(** [sep.join(parts)]. *)
Fixpoint py_join (sep : string) (parts : list string) : string :=
  match parts with
  | [] => ""
  | [part] => part
  | part :: rest => part +:+ sep +:+ py_join sep rest
  end.

(** Line 414, the value given to [args.out] when no [--out] is passed:
    [".".join(vcf.split(".")[0:len(vcf.split("."))-1]) + ".cgh"]. *)
Definition default_out (vcf : string) : string :=
  py_join "." (py_slice (split_on "." vcf) 0
                 (Z.of_nat (length (split_on "." vcf)) - 1))
  +:+ ".cgh".
(** ** The height of a coverage probe *)

Definition py_mul : info_value → info_value → result info_value :=
  py_arith Z.mul float_mul.

(** [a == b]: never raises; [False] between a string and a number. *)
Definition py_eq (a b : info_value) : bool :=
  match py_compare a b with
  | Ok (Some Eq) => true
  | _ => false
  end.

(** [min(a, b)]: [b] when [b < a], else [a]. *)
Definition py_min (a b : info_value) : result info_value :=
  smaller ← py_lt b a;
  Ok (if smaller : bool then b else a).

(** Lines 348-350 of [add_coverage_probes]: the height of the probe of a
    record with coverage [cov].  [MAX_HEIGHT] is a number of the module
    [constants]. *)
Definition coverage_height (cov mean_coverage : float)
    (MAX_HEIGHT : info_value) : result info_value :=
  doubled ← py_mul (VInt 2) (VFloat cov);
  ratio ← py_truediv doubled (VFloat mean_coverage);
  raw ← py_sub ratio (VInt 2);
  height ← py_min raw MAX_HEIGHT;
  Ok (if py_eq height (VFloat (S754_zero false))
      then VFloat float_0_01 else height).
(** ** [format_comment] *)

(** The order of [sorted(info.items())]: the items are [(key, value)]
    tuples, and the keys of a dict are distinct, so the keys decide. *)
Definition item_le (a b : string * info_value) : Prop :=
  Is_true (String.leb a.1 b.1).

#[global] Instance item_le_dec : RelDecision item_le :=
  λ a b, Is_true_dec (String.leb a.1 b.1).

Definition sorted_items (info : gmap string info_value)
  : list (string * info_value) :=
  merge_sort item_le (map_to_list info).

(** The string ['\n']. *)
Definition newline : string := String "010" "".

(** The body of the loop of [format_comment] for one item. *)
Definition comment_step (py_str : info_value → string) (comment : string)
    (item : string * info_value) : string :=
  if decide (item.1 = "CSQ" ∨ item.1 = "SVTYPE") then comment
  else comment +:+ newline +:+ item.1 +:+ ": " +:+ py_str item.2.

(** [format_comment]; [py_str] is Python's [str], which ['{}'.format]
    applies to the value. *)
Definition format_comment (py_str : info_value → string)
    (info : gmap string info_value) : string :=
  foldl (comment_step py_str) "" (sorted_items info).
(** ** [parse_coverages] *)

(** [line.startswith('#')]. *)
Definition starts_with_hash (line : string) : bool :=
  match line with
  | String c _ => Ascii.eqb c "#"
  | EmptyString => false
  end.

(** The body of the loop of [parse_coverages] for one line of the file:
    [None] for a comment line.  [py_float] is Python's [float] on a
    string. *)
Definition parse_coverage_line (py_float : string → result float)
    (line : string) : result (option CoverageRecord) :=
  if starts_with_hash line then Ok None
  else
    match split_on "009" line with
    | [chrom; start; end_; coverage; _] =>
        start ← py_int start;
        end_ ← py_int end_;
        coverage ← py_float coverage;
        Ok (Some {| cr_chrom := chrom; cr_start := start; cr_end := end_;
                    coverage := coverage |})
    | _ => Raise ValueError
    end.

(** The generator [parse_coverages], on the lines of the file. *)
Fixpoint parse_coverages (py_float : string → result float)
    (lines : list string) : list CoverageRecord * gen_end :=
  match lines with
  | [] => ([], Returned)
  | line :: rest =>
      match parse_coverage_line py_float line with
      | Raise e => ([], Raised e)
      | Ok None => parse_coverages py_float rest
      | Ok (Some record) =>
          let r := parse_coverages py_float rest in (record :: r.1, r.2)
      end
  end.

(** The number of occurrences of a character in a string. *)
Fixpoint occurrences (c : ascii) (s : string) : nat :=
  match s with
  | EmptyString => 0
  | String a s' => (if Ascii.eqb a c then 1 else 0) + occurrences c s'
  end.
(* ================================================================== *)
(** * Part II: properties *)
(* ================================================================== *)

(** ** The order of the sweep events *)

Lemma sweep_event_le_spec (a b : sweep_event) :
  sweep_event_le a b ↔
  a.1 < b.1 ∨ (a.1 = b.1 ∧ (a.2 = START ∨ b.2 = STOP)).
Proof.
  destruct a as [p [|]], b as [q [|]];
    unfold sweep_event_le, sweep_event_leb; simpl;
    destruct (Z.ltb_spec p q), (Z.eqb_spec p q); simpl;
    intuition (try lia; try discriminate).
Qed.

#[global] Instance sweep_event_le_total : Total sweep_event_le.
Proof.
  intros a b. rewrite !sweep_event_le_spec.
  destruct a as [p [|]], b as [q [|]]; simpl;
    destruct (Z.lt_total p q) as [?|[?|?]]; intuition lia.
Qed.

#[global] Instance sweep_event_le_trans : Transitive sweep_event_le.
Proof.
  intros a b c. rewrite !sweep_event_le_spec.
  destruct a as [p [|]], b as [q [|]], c as [r [|]]; simpl;
    intuition (try lia; try discriminate).
Qed.

#[global] Instance sweep_event_le_antisymm : AntiSymm eq sweep_event_le.
Proof.
  intros a b. rewrite !sweep_event_le_spec.
  destruct a as [p [|]], b as [q [|]]; simpl;
    intuition (try lia; try discriminate; try (f_equal; lia)).
Qed.

Lemma sweep_event_le_lt p q k k' : p < q → sweep_event_le (p, k) (q, k').
Proof. intros. apply sweep_event_le_spec. by left. Qed.

Lemma sweep_event_le_start_stop p q :
  p ≤ q → sweep_event_le (p, START) (q, STOP).
Proof.
  intros. apply sweep_event_le_spec. simpl.
  destruct (decide (p = q)); [right; auto | left; lia].
Qed.

(** ** [merge_intervals]: shape of the output *)

Lemma gapped_ascending lo X : gapped_from lo X → ascending_from lo X.
Proof.
  revert lo. induction X as [|[a b] X IH]; simpl; [done|].
  intros lo (? & ? & ?). repeat split; [lia | done | by apply IH].
Qed.

Lemma sorted_with_gaps_non_overlapping X :
  sorted_with_gaps X → sorted_non_overlapping X.
Proof.
  destruct X as [|[a b] X]; simpl; [done|].
  intros [? ?]. split; [done | by apply gapped_ascending].
Qed.

Lemma gapped_from_weaken lo lo' X :
  lo' ≤ lo → gapped_from lo X → gapped_from lo' X.
Proof. destruct X as [|[a b] X]; simpl; [done|]. intros ? (? & ? & ?). repeat split; [lia | done..]. Qed.

Lemma gapped_sorted_with_gaps lo X : gapped_from lo X → sorted_with_gaps X.
Proof. destruct X as [|[a b] X]; simpl; tauto. Qed.

(** Whatever the sorted events are, the sweep yields well-formed intervals
    separated by gaps: a STOP that closes a run is followed, at the same
    position, by STOPs only. *)
Lemma merge_sweep_gapped (events : list sweep_event) :
  ∀ active start lo,
    Sorted sweep_event_le events →
    (∀ p k, (p, k) ∈ events → lo ≤ p ∧ (k = START → lo < p)) →
    (1 ≤ active → lo < start ∧ ∀ p k, (p, k) ∈ events → start ≤ p) →
    gapped_from lo (merge_sweep active start events).
Proof.
  induction events as [|[q k] es IH]; intros a st lo Hs Hlo Hact; [done|].
  apply Sorted_StronglySorted in Hs; [|apply _].
  apply StronglySorted_inv in Hs as [Hs Hhd].
  rewrite Forall_forall in Hhd.
  assert (Hsub : ∀ p k', (p, k') ∈ es → lo ≤ p ∧ (k' = START → lo < p)).
  { intros p k' Hin. apply Hlo. by right. }
  destruct k; simpl.
  - apply IH; [by apply StronglySorted_Sorted | done |].
    intros Ha. destruct (Z.eqb_spec a 0) as [->|Hne].
    + split; [apply (Hlo q START); [left | done] |].
      intros p k' Hin. apply Hhd, sweep_event_le_spec in Hin. simpl in Hin. lia.
    + destruct Hact as [? Hst]; [lia|]. split; [done|].
      intros p k' Hin. apply (Hst p k'). by right.
  - destruct (Z.eqb_spec (a - 1) 0) as [Ha|Ha].
    + destruct Hact as [? Hst]; [lia|]. simpl. split; [done|].
      split; [apply (Hst q STOP); left |].
      apply IH; [by apply StronglySorted_Sorted | | lia].
      intros p k' Hin. apply Hhd, sweep_event_le_spec in Hin. simpl in Hin.
      split; [lia|]. intros ->. destruct Hin as [?|[_ [?|?]]]; [lia | done..].
    + apply IH; [by apply StronglySorted_Sorted | done |].
      intros ?. destruct Hact as [? Hst]; [lia|]. split; [done|].
      intros p k' Hin. apply (Hst p k'). by right.
Qed.

Lemma merge_intervals_sorted_with_gaps (X : iterable interval) :
  sorted_with_gaps (merge_intervals X).
Proof.
  unfold merge_intervals. set (es := merge_sort _ _).
  assert (Hs : Sorted sweep_event_le es) by apply Sorted_merge_sort, _.
  destruct es as [|[q k] es'] eqn:Hes; [done|].
  apply gapped_sorted_with_gaps with (lo := q - 1).
  apply merge_sweep_gapped; [done | | lia].
  intros p k' Hin. apply Sorted_StronglySorted in Hs; [|apply _].
  apply StronglySorted_inv in Hs as [_ Hhd]. rewrite Forall_forall in Hhd.
  apply elem_of_cons in Hin as [[= -> ->]|Hin]; [lia|].
  apply Hhd, sweep_event_le_spec in Hin. simpl in Hin. lia.
Qed.

(** ** [merge_intervals] on intervals that are sorted with gaps *)

Lemma interleave_Permutation (X : list interval) :
  ((λ coord : interval, (coord.1, START)) <$> X) ++
  ((λ coord : interval, (coord.2, STOP)) <$> X) ≡ₚ interleave X.
Proof.
  induction X as [|[a b] X IH]; simpl; [done|].
  constructor. rewrite <- Permutation_middle. by constructor.
Qed.

Lemma interleave_Sorted lo (X : list interval) :
  gapped_from lo X →
  Sorted sweep_event_le (interleave X) ∧
  HdRel sweep_event_le (lo, STOP) (interleave X).
Proof.
  revert lo. induction X as [|[a b] X IH]; intros lo; simpl.
  - by split; constructor.
  - intros (? & ? & HX). destruct (IH b HX) as [Hs Hhd]. split.
    + constructor; [by constructor|].
      constructor. by apply sweep_event_le_start_stop.
    + constructor. by apply sweep_event_le_lt.
Qed.

Lemma merge_sweep_interleave (X : list interval) start :
  merge_sweep 0 start (interleave X) = X.
Proof.
  revert start. induction X as [|[a b] X IH]; intros start; simpl; [done|].
  by rewrite IH.
Qed.

Lemma merge_intervals_gapped_id (X : list interval) :
  sorted_with_gaps X → merge_intervals (Collection X) = X.
Proof.
  intros HX. unfold merge_intervals. simpl.
  assert (Hsort : Sorted sweep_event_le (interleave X)).
  { destruct X as [|[a b] X]; [constructor|].
    destruct HX as [? HX]. apply (interleave_Sorted (a - 1)). simpl.
    repeat split; [lia | done..]. }
  rewrite (Sorted_unique sweep_event_le _ (interleave X)).
  - apply merge_sweep_interleave.
  - apply Sorted_merge_sort, _.
  - done.
  - rewrite merge_sort_Permutation. apply interleave_Permutation.
Qed.

Example merge_intervals_overlapping :
  merge_intervals (Collection [(3, 5); (1, 4); (7, 8); (8, 9)])
  = [(1, 5); (7, 9)].
Proof. reflexivity. Qed.

(** Handing the generator returned by [merge_intervals] straight back to
    [merge_intervals] loses the STOP events: the first loop exhausts it. *)
Lemma merge_intervals_of_generator (X : list interval) :
  merge_intervals (Generator X) = [].
Proof.
  unfold merge_intervals. simpl. rewrite app_nil_r.
  assert (H : ∀ es : list sweep_event, Forall (λ e, e.2 = START) es →
    ∀ a st, 0 ≤ a → merge_sweep a st es = []).
  { induction 1 as [|[q k] es Hk _ IH]; intros a st Ha; [done|].
    simpl in Hk. subst k. simpl. apply IH. lia. }
  apply H; [|lia].
  rewrite merge_sort_Permutation. apply Forall_fmap, Forall_true. done.
Qed.

(** C2 (amended).  [merge_intervals] is idempotent once its output is
    collected in a list: merging [list(merge_intervals(X))] again yields the
    same intervals, for every iterable [X].  And [merge_intervals] is the
    identity on every list of well-formed intervals that is sorted with a
    gap between consecutive intervals (each one ends strictly before the
    next one starts). *)
Theorem merge_intervals_idempotent (X : iterable interval) (Y : list interval) :
  merge_intervals (Collection (merge_intervals X)) = merge_intervals X ∧
  (sorted_with_gaps Y → merge_intervals (Collection Y) = Y).
Proof.
  split.
  - apply merge_intervals_gapped_id, merge_intervals_sorted_with_gaps.
  - apply merge_intervals_gapped_id.
Qed.

Lemma merge_intervals_idempotent_witness :
  sorted_with_gaps [(0, 1); (3, 4)] ∧
  merge_intervals (Collection (merge_intervals (Collection [(0, 5); (3, 8)])))
    = merge_intervals (Collection [(0, 5); (3, 8)]) ∧
  merge_intervals (Collection [(0, 1); (3, 4)]) = [(0, 1); (3, 4)].
Proof.
  assert (H : sorted_with_gaps [(0, 1); (3, 4)]) by (simpl; lia).
  split; [exact H|].
  destruct (merge_intervals_idempotent
              (Collection [(0, 5); (3, 8)]) [(0, 1); (3, 4)]) as [H1 H2].
  split; [exact H1 | exact (H2 H)].
Defined.

(** C2 as stated fails: two touching intervals are sorted and do not
    overlap, yet [merge_intervals] fuses them.  And the literal composition
    [merge_intervals(merge_intervals(X))] hands over a generator, which
    yields nothing on the second loop: the result is empty. *)
Lemma merge_intervals_touching_not_identity :
  sorted_non_overlapping [(0, 1); (1, 2)] ∧
  merge_intervals (Collection [(0, 1); (1, 2)]) = [(0, 2)] ∧
  merge_intervals (Collection [(0, 1); (1, 2)]) ≠ [(0, 1); (1, 2)] ∧
  merge_intervals (Generator (merge_intervals (Collection [(0, 1); (1, 2)])))
    ≠ merge_intervals (Collection [(0, 1); (1, 2)]).
Proof.
  split; [simpl; lia|]. split; [reflexivity|]. split; discriminate.
Qed.

(** ** [merge_intervals]: the positions covered *)

Lemma insert_event_Permutation x l : insert_event x l ≡ₚ x :: l.
Proof.
  induction l as [|y l IH]; simpl; [done|].
  case_decide; [done|]. rewrite IH. apply perm_swap.
Qed.

Lemma insert_event_Sorted x l :
  Sorted sweep_event_le l → Sorted sweep_event_le (insert_event x l).
Proof.
  induction 1 as [|y l Hs IH Hhd]; simpl; [by repeat constructor|].
  case_decide as Hxy; [by repeat constructor|].
  constructor; [done|].
  destruct (total sweep_event_le x y) as [?|Hyx]; [done|].
  destruct Hhd as [|z l Hyz]; simpl; [by constructor|].
  case_decide; by constructor.
Qed.

Lemma balanced_nonneg a es : balanced a es → 0 ≤ a.
Proof. destruct es as [|[q [|]] es]; simpl; lia. Qed.

Lemma balanced_insert_stop es : ∀ a q,
  balanced a es → balanced (a + 1) (insert_event (q, STOP) es).
Proof.
  induction es as [|[r k] es IH]; intros a q Hb; simpl in *.
  - lia.
  - case_decide.
    + simpl. split; [destruct k; lia|].
      replace (a + 1 - 1) with a by lia. done.
    + destruct k; simpl; destruct Hb as [? Hb].
      * split; [lia|]. by apply IH.
      * split; [lia|]. replace (a + 1 - 1) with (a - 1 + 1) by lia. by apply IH.
Qed.

Lemma balanced_insert_interval es : ∀ a s e,
  s ≤ e → balanced a es →
  balanced a (insert_event (s, START) (insert_event (e, STOP) es)).
Proof.
  induction es as [|[r k] es IH]; intros a s e Hse Hb.
  - simpl in *. rewrite decide_True by by apply sweep_event_le_start_stop.
    simpl. subst a. repeat split; lia.
  - pose proof (balanced_nonneg _ _ Hb) as Ha.
    pose proof (balanced_insert_stop _ _ e Hb) as Hstop.
    simpl in Hstop |- *. case_decide as Hy.
    + simpl. rewrite decide_True by by apply sweep_event_le_start_stop.
      simpl. split; [done|]. split; [lia|].
      replace (a + 1 - 1) with a by lia. done.
    + simpl. case_decide as Hx; [by split|].
      destruct k; simpl in *; destruct Hb as [? Hb]; (split; [done|]);
        by apply IH.
Qed.

Lemma interval_events_cons (i : interval) X :
  interval_events (i :: X) ≡ₚ (i.1, START) :: (i.2, STOP) :: interval_events X.
Proof.
  unfold interval_events. simpl. constructor. by rewrite <- Permutation_middle.
Qed.

Lemma merge_sort_interval_events_cons (i : interval) X :
  merge_sort sweep_event_le (interval_events (i :: X)) =
  insert_event (i.1, START)
    (insert_event (i.2, STOP) (merge_sort sweep_event_le (interval_events X))).
Proof.
  apply (Sorted_unique sweep_event_le).
  - apply Sorted_merge_sort, _.
  - do 2 apply insert_event_Sorted. apply Sorted_merge_sort, _.
  - rewrite merge_sort_Permutation, interval_events_cons.
    rewrite !insert_event_Permutation. by rewrite merge_sort_Permutation.
Qed.

Lemma balanced_interval_events X :
  Forall (λ i : interval, i.1 ≤ i.2) X →
  balanced 0 (merge_sort sweep_event_le (interval_events X)).
Proof.
  induction 1 as [|i X Hse _ IH]; [done|].
  rewrite merge_sort_interval_events_cons. by apply balanced_insert_interval.
Qed.

Lemma open_count_Permutation es es' p :
  es ≡ₚ es' → open_count es p = open_count es' p.
Proof. induction 1; simpl; lia. Qed.

Lemma covered_cons (i : interval) X p :
  covered (i :: X) p ↔ in_interval p i ∨ covered X p.
Proof.
  unfold covered. split.
  - intros (j & Hj & Hp). apply elem_of_cons in Hj as [->|Hj]; [by left|].
    right. eauto.
  - intros [Hp|(j & Hj & Hp)]; [exists i | exists j];
      (split; [|done]); [left | by right].
Qed.

Lemma covered_nil p : ¬ covered [] p.
Proof. intros (i & Hi & _). by apply elem_of_nil in Hi. Qed.

Lemma open_count_interval_events X p :
  Forall (λ i : interval, i.1 ≤ i.2) X →
  (0 ≤ open_count (interval_events X) p) ∧
  (0 < open_count (interval_events X) p ↔ covered X p).
Proof.
  induction 1 as [|i X Hse _ [IH0 IH]].
  - split; [done|]. split; [simpl; lia|]. intros []%covered_nil.
  - rewrite (open_count_Permutation _ _ p (interval_events_cons i X)).
    rewrite covered_cons, <- IH. unfold in_interval.
    simpl in *. unfold event_weight; simpl.
    destruct (Z.leb_spec i.1 p), (Z.leb_spec i.2 p); lia.
Qed.

(** Events that all lie beyond [p]: only a run that is already open can
    reach [p]. *)
Lemma merge_sweep_covered_before (es : list sweep_event) p :
  ∀ a st,
    Forall (λ e : sweep_event, p < e.1) es → balanced a es →
    (covered (merge_sweep a st es) p ↔ 0 < a ∧ st ≤ p).
Proof.
  induction es as [|[q k] es IH]; intros a st Hp Hb.
  - simpl in *. split; [intros []%covered_nil | lia].
  - apply Forall_cons in Hp as [Hq Hp]. simpl in Hq.
    destruct k; simpl in *; destruct Hb as [Ha Hb].
    + rewrite (IH _ _ Hp Hb). destruct (Z.eqb_spec a 0); lia.
    + destruct (Z.eqb_spec (a - 1) 0) as [Ha0|Ha0].
      * rewrite covered_cons, (IH _ _ Hp Hb). unfold in_interval. simpl. lia.
      * rewrite (IH _ _ Hp Hb). lia.
Qed.

Lemma open_count_before (es : list sweep_event) p :
  Forall (λ e : sweep_event, p < e.1) es → open_count es p = 0.
Proof.
  induction 1 as [|e es He _ IH]; [done|].
  simpl. unfold event_weight. rewrite IH.
  destruct (Z.leb_spec e.1 p); lia.
Qed.

(** On sorted, balanced events the sweep covers exactly the positions at
    which some interval is open. *)
Lemma merge_sweep_covered (es : list sweep_event) p :
  ∀ a st,
    Sorted sweep_event_le es → balanced a es → (0 < a → st ≤ p) →
    (covered (merge_sweep a st es) p ↔ 0 < a + open_count es p).
Proof.
  induction es as [|[q k] es IH]; intros a st Hs Hb Hst.
  - simpl in *. split; [intros []%covered_nil | lia].
  - destruct (Z.leb_spec q p) as [Hq|Hq].
    + apply Sorted_inv in Hs as [Hs _].
      destruct k; simpl in *; unfold event_weight; simpl;
        rewrite (proj2 (Z.leb_le q p) Hq); destruct Hb as [Ha Hb].
      * rewrite (IH _ _ Hs Hb); [lia|]. destruct (Z.eqb_spec a 0); lia.
      * destruct (Z.eqb_spec (a - 1) 0) as [Ha0|Ha0].
        -- rewrite covered_cons, (IH _ _ Hs Hb); [|lia].
           unfold in_interval. simpl. lia.
        -- rewrite (IH _ _ Hs Hb); [lia|]. lia.
    + assert (Hall : Forall (λ e : sweep_event, p < e.1) ((q, k) :: es)).
      { apply Sorted_StronglySorted in Hs; [|apply _].
        apply StronglySorted_inv in Hs as [_ Hhd].
        constructor; [done|]. eapply Forall_impl; [exact Hhd|].
        intros [r k'] Hle%sweep_event_le_spec. simpl in *. lia. }
      rewrite (merge_sweep_covered_before _ _ _ _ Hall Hb).
      rewrite open_count_before by done. lia.
Qed.

Lemma merge_intervals_covered (X : list interval) p :
  Forall (λ i : interval, i.1 ≤ i.2) X →
  (covered (merge_intervals (Collection X)) p ↔ covered X p).
Proof.
  intros HX. unfold merge_intervals. simpl. fold (interval_events X).
  rewrite merge_sweep_covered.
  - rewrite (open_count_Permutation _ (interval_events X));
      [|apply merge_sort_Permutation].
    rewrite Z.add_0_l. by apply open_count_interval_events.
  - apply Sorted_merge_sort, _.
  - by apply balanced_interval_events.
  - lia.
Qed.

(** Every interval the sweep yields runs between positions of the events
    (or from the initial [start]). *)
Lemma merge_sweep_bounds (es : list sweep_event) (lo hi : Z) :
  Forall (λ e : sweep_event, lo ≤ e.1 ≤ hi) es →
  ∀ a st, lo ≤ st →
    Forall (λ i : interval, lo ≤ i.1 ∧ i.2 ≤ hi) (merge_sweep a st es).
Proof.
  induction 1 as [|[q k] es Hq _ IH]; intros a st Hst; [constructor|].
  simpl in Hq. destruct k; simpl.
  - apply IH. destruct (a =? 0); lia.
  - destruct (a - 1 =? 0); [constructor; [simpl; lia|]|]; by apply IH.
Qed.

Lemma merge_intervals_bounds (X : list interval) (L : Z) :
  Forall (inside L) X → Forall (inside L) (merge_intervals (Collection X)).
Proof.
  intros HX. unfold merge_intervals. simpl.
  assert (Hb : Forall (λ i : interval, 0 ≤ i.1 ∧ i.2 ≤ L)
            (merge_sweep 0 0
               (merge_sort sweep_event_le (interval_events X)))).
  { apply merge_sweep_bounds; [|lia].
    rewrite merge_sort_Permutation. apply Forall_app.
    split; apply Forall_fmap; (eapply Forall_impl; [exact HX|]);
      intros i (? & ? & ?); simpl; lia. }
  pose proof (merge_intervals_sorted_with_gaps (Collection X)) as Hg.
  unfold merge_intervals in Hg. simpl in Hg.
  fold (interval_events X) in Hg |- *.
  apply sorted_with_gaps_non_overlapping in Hg.
  revert Hb Hg. generalize (merge_sweep 0 0
    (merge_sort sweep_event_le (interval_events X))). clear.
  intros M HM. induction HM as [|[a b] M [? ?] _ IH]; [constructor|].
  simpl in *. intros [? Hasc]. constructor; [unfold inside; simpl; lia|].
  apply IH. destruct M as [|[c d] M]; simpl in *; tauto.
Qed.

(** ** [complement_intervals] *)

Lemma covered_dec X p : covered X p ∨ ¬ covered X p.
Proof.
  induction X as [|i X IH].
  - right. apply covered_nil.
  - rewrite covered_cons. unfold in_interval.
    destruct (decide (i.1 ≤ p < i.2)); tauto.
Qed.

Lemma ascending_from_covered lo X p :
  ascending_from lo X → covered X p → lo ≤ p.
Proof.
  revert lo. induction X as [|[a b] X IH]; intros lo; simpl.
  - intros _ []%covered_nil.
  - intros (? & ? & HX). rewrite covered_cons. unfold in_interval. simpl.
    intros [?|Hc]; [lia|]. specialize (IH _ HX Hc). lia.
Qed.

Lemma complement_from_covered (M : list interval) (L : Z) p :
  ∀ prev_end,
    ascending_from prev_end M → Forall (λ i : interval, i.2 ≤ L) M →
    (covered (complement_from prev_end M L) p ↔
     prev_end ≤ p < L ∧ ¬ covered M p).
Proof.
  induction M as [|[a b] M IH]; intros prev Hasc HL; simpl.
  - case_decide.
    + rewrite covered_cons. unfold in_interval. simpl.
      pose proof (covered_nil p). tauto.
    + pose proof (covered_nil p). split; [tauto | lia].
  - destruct Hasc as (? & ? & Hasc). apply Forall_cons in HL as [Hb HL].
    simpl in Hb. pose proof (ascending_from_covered b M p Hasc) as Hlo.
    assert (Hgap : covered (if decide (prev ≠ a) then [(prev, a)] else []) p
                   ↔ prev ≤ p < a).
    { case_decide.
      - rewrite covered_cons. unfold in_interval. simpl.
        pose proof (covered_nil p). tauto.
      - pose proof (covered_nil p). split; [tauto | lia]. }
    assert (Happ : ∀ A B, covered (A ++ B) p ↔ covered A p ∨ covered B p).
    { intros A B. unfold covered. split.
      - intros (i & [Hi|Hi]%elem_of_app & Hp); [left | right]; by exists i.
      - intros [(i & Hi & Hp)|(i & Hi & Hp)]; exists i;
          (split; [|done]); apply elem_of_app; [by left | by right]. }
    rewrite Happ, Hgap, (IH b Hasc HL), covered_cons.
    unfold in_interval. simpl. split.
    + intros [?|[? ?]]; (split; [lia|]); intros [?|Hc]; try lia; try tauto.
      specialize (Hlo Hc). lia.
    + intros [? Hn]. destruct (decide (p < a)); [left; lia|].
      right. split; [|tauto]. destruct (decide (p < b)); [|lia].
      exfalso. apply Hn. left. lia.
Qed.

Lemma complement_from_ascending (M : list interval) (L : Z) :
  ∀ prev_end,
    ascending_from prev_end M → Forall (λ i : interval, i.2 ≤ L) M →
    prev_end ≤ L →
    ascending_from prev_end (complement_from prev_end M L).
Proof.
  induction M as [|[a b] M IH]; intros prev Hasc HL Hprev; simpl.
  - case_decide; simpl; [lia | done].
  - destruct Hasc as (? & ? & Hasc). apply Forall_cons in HL as [Hb HL].
    simpl in Hb. specialize (IH b Hasc HL Hb).
    assert (Hw : ∀ lo lo' Y, lo' ≤ lo → ascending_from lo Y → ascending_from lo' Y).
    { intros lo lo' [|[c d] Y]; simpl; [done|]. intros ? (? & ? & ?).
      repeat split; [lia | done..]. }
    case_decide; simpl.
    + split; [lia|]. split; [lia|]. by apply (Hw b).
    + apply (Hw b); [lia | done].
Qed.

Lemma ascending_pairwise_disjoint lo X :
  ascending_from lo X → pairwise_disjoint X.
Proof.
  assert (Hfar : ∀ Y lo' (d : interval), ascending_from lo' Y → d ∈ Y →
            lo' ≤ d.1 ∧ d.1 ≤ d.2).
  { induction Y as [|[a b] Y IH]; intros lo' d; simpl; [by intros _ ?%elem_of_nil|].
    intros (? & ? & HY) [->|Hd]%elem_of_cons; [simpl; lia|].
    specialize (IH _ _ HY Hd). lia. }
  revert lo. induction X as [|[a b] X IH]; intros lo Hasc i j c d Hij Hc Hd p.
  - by rewrite lookup_nil in Hc.
  - destruct Hasc as (? & ? & HX). unfold in_interval.
    destruct i as [|i], j as [|j]; simpl in *; [done | | |].
    + injection Hc as <-. apply list_elem_of_lookup_2 in Hd.
      specialize (Hfar _ _ _ HX Hd). simpl. lia.
    + injection Hd as <-. apply list_elem_of_lookup_2 in Hc.
      specialize (Hfar _ _ _ HX Hc). simpl. lia.
    + apply (IH b HX i j c d); [congruence | done..].
Qed.

(** C5.  For every list [X] of well-formed intervals inside [[0, L)], the
    gaps [complement_intervals(merge_intervals(X), L)] together with [X]
    cover exactly the positions of [[0, L)], no gap overlaps an interval of
    [X], and no two gaps overlap. *)
Theorem complement_merge_partition (X : list interval) (L : Z) :
  Forall (inside L) X →
  let gaps := complement_intervals (merge_intervals (Collection X)) L in
  (∀ p, 0 ≤ p < L ↔ covered gaps p ∨ covered X p) ∧
  (∀ p, ¬ (covered gaps p ∧ covered X p)) ∧
  pairwise_disjoint gaps.
Proof.
  intros HX gaps.
  pose proof (merge_intervals_bounds X L HX) as HM.
  pose proof (merge_intervals_sorted_with_gaps (Collection X)) as Hg.
  apply sorted_with_gaps_non_overlapping in Hg.
  assert (Hwf : Forall (λ i : interval, i.1 ≤ i.2) X).
  { eapply Forall_impl; [exact HX|]. intros i (? & ? & ?). done. }
  assert (Hasc : ascending_from 0 (merge_intervals (Collection X))).
  { destruct (merge_intervals (Collection X)) as [|[a b] M]; [done|].
    apply Forall_cons in HM as [(? & ? & ?) _]. simpl in *. tauto. }
  assert (HL : Forall (λ i : interval, i.2 ≤ L) (merge_intervals (Collection X))).
  { eapply Forall_impl; [exact HM|]. intros i (? & ? & ?). done. }
  assert (Hcov : ∀ p, covered gaps p ↔ 0 ≤ p < L ∧ ¬ covered X p).
  { intros p. unfold gaps, complement_intervals.
    rewrite complement_from_covered by done.
    by rewrite merge_intervals_covered. }
  assert (Hin : ∀ p, covered X p → 0 ≤ p < L).
  { intros p (i & Hi & Hp). rewrite Forall_forall in HX.
    destruct (HX i Hi) as (? & ? & ?). unfold in_interval in Hp. lia. }
  split; [|split].
  - intros p. rewrite Hcov. specialize (Hin p).
    destruct (covered_dec X p); tauto.
  - intros p. rewrite Hcov. tauto.
  - destruct (decide (0 ≤ L)).
    + apply (ascending_pairwise_disjoint 0).
      by apply complement_from_ascending.
    + destruct X as [|i X]; [|apply Forall_cons in HX as [(? & ? & ?) _]; lia].
      assert (Hone : (length gaps ≤ 1)%nat).
      { unfold gaps, complement_intervals.
        change (merge_intervals (Collection [])) with (@nil interval).
        simpl. case_decide; simpl; lia. }
      intros i j c d Hij Hc%lookup_lt_Some Hd%lookup_lt_Some. lia.
Qed.

Lemma complement_merge_partition_witness :
  Forall (inside 10) [(3, 5); (1, 4)] ∧
  (let gaps :=
     complement_intervals (merge_intervals (Collection [(3, 5); (1, 4)])) 10 in
   (∀ p, 0 ≤ p < 10 ↔ covered gaps p ∨ covered [(3, 5); (1, 4)] p) ∧
   (∀ p, ¬ (covered gaps p ∧ covered [(3, 5); (1, 4)] p)) ∧
   pairwise_disjoint gaps).
Proof.
  assert (H : Forall (inside 10) [(3, 5); (1, 4)]).
  { repeat constructor; simpl; lia. }
  split; [exact H | exact (complement_merge_partition _ _ H)].
Defined.

(** The docstring example of [complement_intervals]. *)
Example complement_intervals_doctest :
  complement_intervals [(0, 1); (3, 4); (18, 20)] 20 = [(1, 3); (4, 18)].
Proof. reflexivity. Qed.

(** ** Binary64 rounding: an upper bound is never crossed *)

Lemma pow2_le_at c m e K k :
  c ≤ e → c ≤ k →
  (pow2_le m e K k ↔ m * 2 ^ (e - c) ≤ K * 2 ^ (k - c)).
Proof.
  intros He Hk. unfold pow2_le. set (c0 := Z.min e k).
  assert (Hc : c ≤ c0) by (unfold c0; lia).
  replace (e - c) with ((e - c0) + (c0 - c)) by lia.
  replace (k - c) with ((k - c0) + (c0 - c)) by lia.
  rewrite !Z.pow_add_r by (unfold c0; lia).
  assert (0 < 2 ^ (c0 - c)) by (apply Z.pow_pos_nonneg; lia).
  rewrite !Z.mul_assoc. split; intros; nia.
Qed.

Lemma pow2_lt_at c m e K k :
  c ≤ e → c ≤ k →
  (pow2_lt m e K k ↔ m * 2 ^ (e - c) < K * 2 ^ (k - c)).
Proof.
  intros He Hk. unfold pow2_lt. set (c0 := Z.min e k).
  assert (Hc : c ≤ c0) by (unfold c0; lia).
  replace (e - c) with ((e - c0) + (c0 - c)) by lia.
  replace (k - c) with ((k - c0) + (c0 - c)) by lia.
  rewrite !Z.pow_add_r by (unfold c0; lia).
  assert (0 < 2 ^ (c0 - c)) by (apply Z.pow_pos_nonneg; lia).
  rewrite !Z.mul_assoc. split; intros; nia.
Qed.

Lemma digits2_pos_bounds p :
  2 ^ (Zpos (digits2_pos p) - 1) ≤ Zpos p < 2 ^ Zpos (digits2_pos p).
Proof.
  induction p as [p IH|p IH|]; simpl digits2_pos.
  - rewrite Pos2Z.inj_succ, Z.pow_succ_r by lia.
    replace (Z.succ (Z.pos (digits2_pos p)) - 1)
      with (Z.succ (Z.pos (digits2_pos p) - 1)) by lia.
    rewrite Z.pow_succ_r by lia. lia.
  - rewrite Pos2Z.inj_succ, Z.pow_succ_r by lia.
    replace (Z.succ (Z.pos (digits2_pos p)) - 1)
      with (Z.succ (Z.pos (digits2_pos p) - 1)) by lia.
    rewrite Z.pow_succ_r by lia. lia.
  - simpl. lia.
Qed.

Lemma Zdigits2_bounds m :
  0 < m → 2 ^ (Zdigits2 m - 1) ≤ m < 2 ^ Zdigits2 m.
Proof. destruct m as [|p|p]; try lia. intros _. apply digits2_pos_bounds. Qed.

Lemma Zdigits2_lower m t : 0 ≤ t → 2 ^ t ≤ m → t + 1 ≤ Zdigits2 m.
Proof.
  intros Ht Hm. assert (0 < m) by (pose proof (Z.pow_pos_nonneg 2 t); lia).
  destruct (Zdigits2_bounds m) as [_ Hu]; [done|].
  destruct (decide (t + 1 ≤ Zdigits2 m)); [done|].
  assert (2 ^ Zdigits2 m ≤ 2 ^ t) by (apply Z.pow_le_mono_r; lia). lia.
Qed.

Lemma shr_exact_spec x : shr_exact x ↔ shr_r x = false ∧ shr_s x = false.
Proof. destruct x as [m [|] [|]]; unfold shr_exact; simpl; intuition congruence. Qed.

Lemma shr_exact_of_loc m l : shr_exact (shr_record_of_loc m l) ↔ l = loc_Exact.
Proof. destruct l as [|[| |]]; unfold shr_exact; simpl; intuition congruence. Qed.

Lemma shifted_refl x : 0 ≤ shr_m x → shifted 1 x x.
Proof. intros. exists 0. repeat split; try lia; tauto. Qed.

Lemma shifted_trans N1 N2 x y z :
  0 < N1 → shifted N1 x y → shifted N2 y z → shifted (N1 * N2) x z.
Proof.
  intros HN1 (r1 & Hr1 & Hx & Hy & He1) (r2 & Hr2 & Hy' & Hz & He2).
  exists (N1 * r2 + r1).
  split; [nia|]. split; [nia|]. split; [done|]. split.
  - intros Hez. apply He2 in Hez as [Hey ->]. apply He1 in Hey as [? ->].
    split; [done | lia].
  - intros [Hex Hrem]. assert (r1 = 0 ∧ r2 = 0) as [-> ->] by nia.
    apply He2. split; [apply He1|]; done.
Qed.

Lemma shifted_shr_1 x : 0 ≤ shr_m x → shifted 2 x (shr_1 x).
Proof.
  destruct x as [m r s]. simpl. intros Hm.
  exists (if Z.odd m then 1 else 0).
  rewrite !shr_exact_spec.
  destruct m as [|[p|p|]|p]; try lia; simpl;
    (split; [lia|]); (split; [lia|]); (split; [lia|]);
    destruct r, s; simpl; intuition (try lia; try congruence).
Qed.

Lemma shifted_iter_pos p : ∀ x,
  0 ≤ shr_m x → shifted (2 ^ Zpos p) x (SpecFloat.iter_pos shr_1 p x).
Proof.
  assert (Hnn : ∀ N x y, shifted N x y → 0 ≤ shr_m y).
  { intros N x y (? & ? & ? & ? & ?). done. }
  induction p as [p IH|p IH|]; intros x Hx; simpl SpecFloat.iter_pos.
  - pose proof (shifted_shr_1 x Hx) as H1.
    pose proof (IH _ (Hnn _ _ _ H1)) as H2.
    pose proof (IH _ (Hnn _ _ _ H2)) as H3.
    replace (2 ^ Zpos p~1) with (2 * 2 ^ Zpos p * 2 ^ Zpos p).
    + eapply shifted_trans; [|eapply shifted_trans; [lia|exact H1|exact H2]|exact H3].
      pose proof (Z.pow_pos_nonneg 2 (Zpos p)). lia.
    + rewrite (Pos2Z.inj_xI p), Z.pow_add_r, Z.pow_twice_r by lia.
      change (2 ^ 1) with 2. lia.
  - pose proof (IH _ Hx) as H1.
    pose proof (IH _ (Hnn _ _ _ H1)) as H2.
    replace (2 ^ Zpos p~0) with (2 ^ Zpos p * 2 ^ Zpos p).
    + eapply shifted_trans; [|exact H1|exact H2].
      apply Z.pow_pos_nonneg; lia.
    + by rewrite (Pos2Z.inj_xO p), Z.pow_twice_r.
  - apply shifted_shr_1. done.
Qed.

Lemma shr_m_of_loc m l : shr_m (shr_record_of_loc m l) = m.
Proof. by destruct l as [|[| |]]. Qed.

Lemma shr_shifted x e n :
  0 ≤ shr_m x →
  shifted (2 ^ Z.max 0 n) x (shr x e n).1 ∧ (shr x e n).2 = e + Z.max 0 n.
Proof.
  intros Hx. destruct n as [|p|p]; simpl.
  - split; [by apply shifted_refl | lia].
  - split; [by apply shifted_iter_pos | lia].
  - split; [by apply shifted_refl | lia].
Qed.

Lemma round_nearest_even_bounds m l :
  m ≤ round_nearest_even m l ≤ m + 1 ∧
  (l = loc_Exact → round_nearest_even m l = m).
Proof.
  destruct l as [|[| |]]; simpl; try destruct (Z.even m); split; (lia || done).
Qed.

Section Rounding.
Variables prec emax : Z.
Hypothesis prec_pos : 0 < prec.

(** Rounding a positive value that is at most [K * 2^k], a number of the
    format, gives a float that is at most [K * 2^k]: the value is given
    as the mantissa [mx], the exponent [ex] and the location [lx] of the
    exact value between [mx * 2^ex] and [(mx + 1) * 2^ex]. *)
Lemma binary_round_aux_at_most mx ex lx K k :
  0 ≤ mx → 0 < K ≤ 2 ^ prec →
  SpecFloat.emin prec emax ≤ k → k + 2 * prec ≤ emax →
  (lx ≠ loc_Exact → ex ≤ fexp prec emax (Zdigits2 mx + ex)) →
  pow2_le mx ex K k → (lx ≠ loc_Exact → pow2_lt mx ex K k) →
  float_at_most (binary_round_aux prec emax false mx ex lx) K k.
Proof.
  intros Hmx HK Hk Hov Hdig Hle Hlt.
  set (c := Z.min ex k).
  unfold pow2_le in Hle. fold c in Hle.
  assert (Hlt' : lx ≠ loc_Exact → mx * 2 ^ (ex - c) < K * 2 ^ (k - c)).
  { intros H. by apply Hlt. }
  clear Hlt.
  assert (Hlxdec : ∀ l : location, l = loc_Exact ∨ l ≠ loc_Exact).
  { intros [|?]; [by left | by right]. }
  set (A := 2 ^ (ex - c)) in *. set (B := 2 ^ (k - c)) in *.
  assert (HA : 0 < A) by (apply Z.pow_pos_nonneg; lia).
  assert (HB : 0 < B) by (apply Z.pow_pos_nonneg; lia).
  unfold binary_round_aux, shr_fexp.
  set (n1 := fexp prec emax (Zdigits2 mx + ex) - ex).
  destruct (shr_shifted (shr_record_of_loc mx lx) ex n1) as [Hs1 He1];
    [by rewrite shr_m_of_loc|].
  destruct (shr (shr_record_of_loc mx lx) ex n1) as [mrs1 e1].
  simpl in Hs1, He1.
  destruct Hs1 as (rem1 & Hrem1 & Hm1 & Hm1pos & Hex1).
  rewrite shr_m_of_loc in Hm1. rewrite shr_exact_of_loc in Hex1.
  set (N1 := 2 ^ Z.max 0 n1) in *.
  assert (HN1 : 0 < N1) by (apply Z.pow_pos_nonneg; lia).
  set (m1 := shr_m mrs1) in *.
  fold (shr_exact mrs1) in Hex1.
  pose proof (round_nearest_even_bounds m1 (loc_of_shr_record mrs1))
    as [Hm2 Hm2x].
  set (m2 := round_nearest_even m1 (loc_of_shr_record mrs1)) in *.
  (* the rounded mantissa stays below the bound *)
  assert (Hbound : m2 * (A * N1) ≤ K * B).
  { destruct (Hlxdec (loc_of_shr_record mrs1)) as [Hx|Hx].
    - rewrite (Hm2x Hx). apply Hex1 in Hx as [_ ->]. nia.
    - assert (Hstrict : m1 * (A * N1) < K * B).
      { destruct (Hlxdec lx) as [Hlx|Hlx].
        - assert (rem1 ≠ 0) by tauto. nia.
        - specialize (Hlt' Hlx). nia. }
      enough ((m1 + 1) * (A * N1) ≤ K * B) by nia.
      assert (Hn1 : 0 ≤ n1).
      { destruct (Hlxdec lx) as [Hlx|Hlx].
        - assert (rem1 ≠ 0) by tauto.
          destruct (decide (0 ≤ n1)); [done|].
          unfold N1 in Hrem1. rewrite Z.max_l in Hrem1 by lia.
          change (2 ^ 0) with 1 in Hrem1. lia.
        - specialize (Hdig Hlx). unfold n1. lia. }
      assert (He1' : e1 = ex + n1) by lia.
      destruct (decide (e1 ≤ k)) as [Hek|Hek].
      + assert (HBeq : B = A * N1 * 2 ^ (k - e1)).
        { unfold A, B, N1. rewrite Z.max_r by lia.
          rewrite <- !Z.pow_add_r by lia. f_equal. lia. }
        assert (0 < 2 ^ (k - e1)) by (apply Z.pow_pos_nonneg; lia).
        rewrite HBeq in Hstrict |- *.
        assert (m1 < K * 2 ^ (k - e1)) by nia. nia.
      + exfalso.
        assert (HAeq : A * N1 = B * 2 ^ (e1 - k)).
        { unfold A, B, N1. rewrite Z.max_r by lia.
          rewrite <- !Z.pow_add_r by lia. f_equal. lia. }
        assert (Hpk : 2 ≤ 2 ^ (e1 - k)).
        { change 2 with (2 ^ 1) at 1. apply Z.pow_le_mono_r; lia. }
        assert (Hm1K : m1 * 2 ^ (e1 - k) < K) by (rewrite HAeq in Hstrict; nia).
        assert (Hmxpos : 0 < mx).
        { destruct (decide (0 < mx)); [done|]. assert (mx = 0) as -> by lia.
          unfold n1, fexp, SpecFloat.emin in *. simpl in *. lia. }
        pose proof (Zdigits2_bounds mx Hmxpos) as [Hdl _].
        assert (Hfe : fexp prec emax (Zdigits2 mx + ex) = Zdigits2 mx + ex - prec).
        { unfold fexp in *. unfold n1 in He1'. lia. }
        assert (Hd : Zdigits2 mx - 1 = (prec - 1) + n1) by (unfold n1; lia).
        rewrite Hd, Z.pow_add_r in Hdl by lia.
        unfold N1 in Hrem1, Hm1. rewrite Z.max_r in Hrem1, Hm1 by lia.
        assert (2 ^ (prec - 1) ≤ m1) by nia.
        assert (2 ^ prec = 2 * 2 ^ (prec - 1)).
        { replace prec with (Z.succ (prec - 1)) at 1 by lia.
          rewrite Z.pow_succ_r by lia. done. }
        nia. }
  set (n2 := fexp prec emax (Zdigits2 m2 + e1) - e1).
  destruct (shr_shifted (shr_record_of_loc m2 loc_Exact) e1 n2) as [Hs2 He2];
    [rewrite shr_m_of_loc; lia|].
  destruct (shr (shr_record_of_loc m2 loc_Exact) e1 n2) as [mrs2 e2].
  simpl in Hs2, He2.
  destruct Hs2 as (rem2 & Hrem2 & Hm2' & Hm3pos & _).
  change (shr_m _) with m2 in Hm2' at 1.
  set (N2 := 2 ^ Z.max 0 n2) in *.
  assert (HN2 : 0 < N2) by (apply Z.pow_pos_nonneg; lia).
  assert (Hfinal : shr_m mrs2 * (A * N1 * N2) ≤ K * B).
  { assert (shr_m mrs2 * N2 ≤ m2) by lia.
    etransitivity; [|exact Hbound].
    replace (shr_m mrs2 * (A * N1 * N2))
      with ((shr_m mrs2 * N2) * (A * N1)) by ring.
    apply Z.mul_le_mono_nonneg_r; [|done].
    apply Z.mul_nonneg_nonneg; lia. }
  assert (Hpow : 2 ^ (e2 - c) = A * N1 * N2).
  { unfold A, N1, N2. rewrite <- !Z.pow_add_r by lia. f_equal. lia. }
  destruct (shr_m mrs2) as [|m3|m3] eqn:Hm3; simpl; [done | | lia].
  destruct (Z.leb_spec e2 (emax - prec)) as [Hfin|Hinf]; simpl.
  - apply (pow2_le_at c); [lia.. |]. rewrite Hpow. fold B. lia.
  - assert (2 ^ (e2 - c) ≤ 2 ^ (prec + k - c)).
    { rewrite Hpow. replace (prec + k - c) with (prec + (k - c)) by lia.
      rewrite Z.pow_add_r by lia. fold B. nia. }
    apply Z.pow_le_mono_r_iff in H; lia.
Qed.
End Rounding.

(** ** Binary64 facts used by the probe geometry *)

Lemma new_location_exact n r : new_location n r = loc_Exact → r = 0.
Proof.
  unfold new_location, new_location_even, new_location_odd.
  destruct (Z.even n), (Z.eqb_spec r 0); done.
Qed.

Lemma int_of_float_at_most f K :
  0 ≤ K → float_at_most f K 0 → ∃ t, int_of_float f = Ok t ∧ t ≤ K.
Proof.
  intros HK. destruct f as [s|s| |[|] m e]; simpl; try done.
  - intros _. by exists 0.
  - intros Hle. eexists. split; [done|].
    assert (He : 0 < 2 ^ Z.abs e) by (apply Z.pow_pos_nonneg; lia).
    destruct e as [|j|j]; unfold pow2_le in Hle.
    + rewrite Z.min_id, Z.sub_diag, Z.pow_0_r in Hle. rewrite Z.pow_0_r. lia.
    + rewrite Z.min_r, !Z.sub_0_r, Z.pow_0_r in Hle by lia. lia.
    + rewrite Z.min_l in Hle by lia.
      rewrite Z.sub_diag, Z.pow_0_r, Z.mul_1_r in Hle.
      replace (0 - Z.neg j) with (Z.pos j) in Hle by lia.
      apply Z.div_le_upper_bound; [apply Z.pow_pos_nonneg; lia | lia].
Qed.

(** The quotient of two integers of at most 53 bits, the divisor at least
    2, rounds to a float that is at most half the dividend. *)
Lemma int_truediv_at_most_half (l m : Z) :
  1 ≤ l ≤ 2 ^ 53 → 2 ≤ m ≤ 2 ^ 53 →
  ∃ spacing, int_truediv l m = Ok spacing ∧ float_at_most spacing l (-1).
Proof.
  intros Hl Hm. unfold int_truediv. rewrite decide_False by lia.
  enough (float_at_most (SFdiv prec emax (exact_of_int l) (exact_of_int m)) l (-1))
    as Hat.
  { destruct (SFdiv prec emax _ _) as [s|s| |[|] ? ?]; try done; eauto. }
  destruct l as [|pl|pl]; try lia. destruct m as [|pm|pm]; try lia.
  cbv beta iota zeta delta [exact_of_int SFdiv SFdiv_core_binary].
  set (l := Z.pos pl) in *. set (m := Z.pos pm) in *.
  rewrite !Z.add_0_r, !Z.sub_0_r.
  set (d1 := Zdigits2 l). set (d2 := Zdigits2 m).
  set (e' := Z.min (fexp prec emax (d1 - d2)) 0).
  replace (0 - e') with (- e') by lia.
  set (s := - e').
  assert (Hd1 : 2 ^ (d1 - 1) ≤ l < 2 ^ d1) by (apply Zdigits2_bounds; lia).
  assert (Hd2 : 2 ^ (d2 - 1) ≤ m < 2 ^ d2) by (apply Zdigits2_bounds; lia).
  assert (Hd1pos : 1 ≤ d1) by (unfold d1, l; simpl; lia).
  assert (Hd2pos : 1 ≤ d2) by (unfold d2, m; simpl; lia).
  assert (Hd2up : d2 ≤ 54).
  { destruct (decide (d2 ≤ 54)); [done|].
    assert (2 ^ 54 ≤ 2 ^ (d2 - 1)) by (apply Z.pow_le_mono_r; lia). lia. }
  assert (Hs : 0 ≤ s) by (unfold s, e'; lia).
  assert (Ht : 0 ≤ d1 - 1 + s - d2).
  { unfold s, e', fexp, SpecFloat.emin, prec, emax. lia. }
  set (m' := match s with Z.pos _ => Z.shiftl l s | 0 => l | Z.neg _ => 0 end).
  assert (Hm' : m' = l * 2 ^ s).
  { unfold m'. destruct s as [|ps|ps] eqn:Hseq; [lia | | lia].
    by rewrite Z.shiftl_mul_pow2. }
  clearbody m'. subst m'.
  assert (H2s : 0 < 2 ^ s) by (apply Z.pow_pos_nonneg; lia).
  pose proof (Z.div_eucl_eq (l * 2 ^ s) m ltac:(lia)) as Heq.
  pose proof (Z.mod_pos_bound (l * 2 ^ s) m ltac:(lia)) as Hr.
  unfold Z.modulo in Hr.
  destruct (Z.div_eucl (l * 2 ^ s) m) as [q r].
  assert (Hq : 0 ≤ q) by nia.
  assert (Hlow : 2 ^ (d1 - 1 + s - d2) ≤ q).
  { assert (2 ^ (d1 - 1 + s - d2) * 2 ^ d2 = 2 ^ (d1 - 1) * 2 ^ s).
    { rewrite <- !Z.pow_add_r by lia. f_equal. lia. }
    assert (0 < 2 ^ (d1 - 1 + s - d2)) by (apply Z.pow_pos_nonneg; lia).
    nia. }
  apply binary_round_aux_at_most.
  - done.
  - done.
  - unfold prec. lia.
  - unfold SpecFloat.emin, prec, emax. lia.
  - unfold prec, emax. lia.
  - intros _. pose proof (Zdigits2_lower q _ Ht Hlow).
    unfold e', s, fexp in *. lia.
  - apply (pow2_le_at (e' - 1)); [lia | unfold e'; lia |].
    replace (e' - (e' - 1)) with 1 by lia.
    replace (-1 - (e' - 1)) with s by (unfold s; lia).
    change (2 ^ 1) with 2. nia.
  - intros Hne. apply (pow2_lt_at (e' - 1)); [lia | unfold e'; lia |].
    replace (e' - (e' - 1)) with 1 by lia.
    replace (-1 - (e' - 1)) with s by (unfold s; lia).
    change (2 ^ 1) with 2.
    assert (r ≠ 0).
    { intros ->. apply Hne. unfold new_location, new_location_even, new_location_odd.
      by destruct (Z.even m). }
    nia.
Qed.

(** Once or twice a float that is at most [l / 2] is at most [l]. *)
Lemma float_mul_small_at_most (j : Z) (spacing : float) (l : Z) :
  j = 1 ∨ j = 2 → 1 ≤ l ≤ 2 ^ 53 →
  float_at_most spacing l (-1) →
  ∃ fj, float_of_int j = Ok fj ∧ float_at_most (float_mul fj spacing) l 0.
Proof.
  intros Hj Hl Hsp.
  assert (∃ ea, (ea = -52 ∨ ea = -51) ∧
            float_of_int j = Ok (S754_finite false 4503599627370496 ea))
    as (ea & Hea & ->).
  { destruct Hj as [-> | ->]; [exists (-52) | exists (-51)]; split; auto. }
  eexists. split; [done|].
  destruct spacing as [s|s| |[|] ms es]; try done.
  unfold float_mul, SFmul. simpl xorb.
  apply binary_round_aux_at_most.
  - done.
  - lia.
  - unfold prec. lia.
  - unfold SpecFloat.emin, prec, emax. lia.
  - unfold prec, emax. lia.
  - done.
  - simpl in Hsp. set (c := Z.min es 0 - 52).
    apply (pow2_le_at c) in Hsp; [|unfold c; lia..].
    apply (pow2_le_at c); [unfold c; lia.. |].
    assert (0 < 2 ^ (es - c)) by (apply Z.pow_pos_nonneg; unfold c; lia).
    assert (0 < 2 ^ (-1 - c)) by (apply Z.pow_pos_nonneg; unfold c; lia).
    assert (H0c : 2 ^ (0 - c) = 2 * 2 ^ (-1 - c)).
    { replace (0 - c) with (Z.succ (-1 - c)) by lia.
      rewrite Z.pow_succ_r; [done | unfold c; lia]. }
    rewrite H0c, Pos2Z.inj_mul.
    change (Z.pos 4503599627370496) with (2 ^ 52).
    destruct Hea as [-> | ->].
    + assert (2 ^ 52 * 2 ^ (-52 + es - c) = 2 ^ (es - c)) as Hp.
      { rewrite <- Z.pow_add_r by (unfold c; lia). f_equal. lia. }
      rewrite <- Z.mul_assoc, (Z.mul_comm (Z.pos ms)), Z.mul_assoc, Hp. lia.
    + assert (2 ^ 52 * 2 ^ (-51 + es - c) = 2 * 2 ^ (es - c)) as Hp.
      { rewrite <- (Z.pow_succ_r 2 (es - c)) by (unfold c; lia).
        rewrite <- Z.pow_add_r by (unfold c; lia). f_equal. lia. }
      rewrite <- Z.mul_assoc, (Z.mul_comm (Z.pos ms)), Z.mul_assoc, Hp. lia.
  - done.
Qed.

(** An integer of at most 53 bits converts without overflow. *)
Lemma float_of_int_small (i : Z) :
  0 ≤ i ≤ 2 ^ 53 →
  ∃ f, float_of_int i = Ok f ∧ float_at_most f (2 ^ 53) 0.
Proof.
  intros Hi. unfold float_of_int.
  enough (float_at_most (binary_normalize prec emax i 0 false) (2 ^ 53) 0) as Hat.
  { destruct (binary_normalize prec emax i 0 false) as [s|s| |[|] ? ?];
      try done; eauto. }
  destruct i as [|p|p]; [done | | lia].
  unfold binary_normalize, binary_round, shl_align.
  set (e' := fexp prec emax (Z.pos (digits2_pos p) + 0)).
  destruct (e' - 0) as [|d|d] eqn:He'.
  - apply binary_round_aux_at_most; try done;
      try (unfold SpecFloat.emin, prec, emax; lia).
    unfold pow2_le. rewrite Z.min_id, Z.sub_diag, Z.pow_0_r. lia.
  - apply binary_round_aux_at_most; try done;
      try (unfold SpecFloat.emin, prec, emax; lia).
    unfold pow2_le. rewrite Z.min_id, Z.sub_diag, Z.pow_0_r. lia.
  - apply binary_round_aux_at_most; try done;
      try (unfold SpecFloat.emin, prec, emax; lia).
    apply (pow2_le_at e'); [lia | lia |].
    rewrite Z.sub_diag, Z.pow_0_r, Z.mul_1_r.
    replace (0 - e') with (Z.pos d) by lia.
    change (PosDef.Pos.iter xO p d) with (shift_pos d p).
    rewrite shift_pos_correct. change (Z.pow_pos 2 d) with (2 ^ Z.pos d).
    assert (0 < 2 ^ Z.pos d) by (apply Z.pow_pos_nonneg; lia). nia.
Qed.

(** ** [spaced_probes] *)

Lemma spaced_probes_loop_step fuel start end_ spacing i pos fi k :
  pos ≤ end_ → float_of_int (i + 1) = Ok fi →
  int_of_float (float_mul fi spacing) = Ok k →
  spaced_probes_loop (S fuel) start end_ spacing i pos =
  (pos :: (spaced_probes_loop fuel start end_ spacing (i + 1) (start + k)).1,
   (spaced_probes_loop fuel start end_ spacing (i + 1) (start + k)).2).
Proof.
  intros Hpos Hfi Hk. simpl. rewrite decide_True by done.
  rewrite Hfi. simpl. by rewrite Hk.
Qed.

Lemma spaced_probes_loop_head fuel start end_ spacing i pos :
  pos ≤ end_ →
  ∃ rest, (spaced_probes_loop (S fuel) start end_ spacing i pos).1 = pos :: rest.
Proof.
  intros Hpos. simpl. rewrite decide_True by done.
  destruct (float_of_int (i + 1) ≫= _); simpl; eauto.
Qed.

(** The loop guard: nothing beyond [end] is yielded. *)
Lemma spaced_probes_loop_le_end fuel start end_ spacing : ∀ i pos,
  Forall (λ p, p ≤ end_) (spaced_probes_loop fuel start end_ spacing i pos).1.
Proof.
  induction fuel as [|fuel IH]; intros i pos; simpl; [constructor|].
  case_decide; [|constructor].
  destruct (float_of_int (i + 1) ≫= _); simpl.
  - constructor; [done | apply IH].
  - by repeat constructor.
Qed.

Lemma spaced_probes_le_end fuel start end_ probe_spacing :
  Forall (λ p, p ≤ end_) (spaced_probes fuel start end_ probe_spacing).1.
Proof.
  unfold spaced_probes. case_decide; [constructor|].
  destruct (int_truediv _ _); [apply spaced_probes_loop_le_end | constructor].
Qed.

Example spaced_probes_ten :
  spaced_probes 10 0 10 3 = ([0; 3; 6; 10], Returned).
Proof. vm_compute. reflexivity. Qed.

(** C9 (amended).  For every [start], [end] with
    [0 < end - start ≤ 2^53] and every positive spacing, [spaced_probes]
    yields [start] first and yields at least 3 positions (they are there
    once the loop has run three rounds); and every position it yields is
    at most [end]. *)
Theorem spaced_probes_first_three (fuel : nat) (start end_ probe_spacing : Z) :
  0 < end_ - start ≤ 2 ^ 53 → 0 < probe_spacing → (3 ≤ fuel)%nat →
  let ys := (spaced_probes fuel start end_ probe_spacing).1 in
  head ys = Some start ∧ (3 ≤ length ys)%nat ∧ Forall (λ pos, pos ≤ end_) ys.
Proof.
  intros Hl Hsp Hfuel ys.
  split; [|split]; [| |apply spaced_probes_le_end].
  all: unfold ys, spaced_probes; rewrite decide_False by lia.
  all: set (l := end_ - start) in *.
  all: assert (Hn : l `div` probe_spacing ≤ l)
         by (apply Z.div_le_upper_bound; nia).
  all: destruct (int_truediv_at_most_half l (Z.max (l `div` probe_spacing) 2))
         as (spacing & -> & Hat); [lia | lia |].
  all: destruct (float_mul_small_at_most 1 spacing l) as (f1 & Hf1 & Hat1);
         [by left | lia | done |].
  all: destruct (float_mul_small_at_most 2 spacing l) as (f2 & Hf2 & Hat2);
         [by right | lia | done |].
  all: destruct (int_of_float_at_most _ l ltac:(lia) Hat1) as (k1 & Hk1 & Hle1).
  all: destruct (int_of_float_at_most _ l ltac:(lia) Hat2) as (k2 & Hk2 & Hle2).
  all: destruct fuel as [|[|[|fuel]]]; try lia.
  all: rewrite (spaced_probes_loop_step _ _ _ _ 0 start f1 k1); [|lia|done..].
  - done.
  - rewrite (spaced_probes_loop_step _ _ _ _ 1 (start + k1) f2 k2);
      [|unfold l in *; lia|done..].
    destruct (spaced_probes_loop_head fuel start end_ spacing (1 + 1) (start + k2))
      as [rest Hrest]; [unfold l in *; lia|].
    change (0 + 1) with 1. cbn [fst]. rewrite Hrest. simpl. lia.
Qed.

Lemma spaced_probes_first_three_witness :
  let ys := (spaced_probes 5 100 5199 2000).1 in
  head ys = Some 100 ∧ (3 ≤ length ys)%nat ∧ Forall (λ pos, pos ≤ 5199) ys.
Proof.
  apply (spaced_probes_first_three 5 100 5199 2000); [lia | lia | lia].
Defined.

(** C9 as stated fails beyond 53 bits: halving [2^53 + 3] rounds up, so the
    third position overshoots [end] and only two positions are yielded. *)
Lemma spaced_probes_wide_interval_yields_two :
  0 < 2 ^ 53 + 3 ∧ 0 < 2 ^ 60 ∧
  spaced_probes 10 0 (2 ^ 53 + 3) (2 ^ 60) = ([0; 4503599627370498], Returned) ∧
  ¬ (3 ≤ length (spaced_probes 10 0 (2 ^ 53 + 3) (2 ^ 60)).1)%nat.
Proof.
  split; [lia|]. split; [lia|].
  assert (H : spaced_probes 10 0 (2 ^ 53 + 3) (2 ^ 60)
              = ([0; 4503599627370498], Returned)) by (vm_compute; reflexivity).
  split; [exact H|]. rewrite H. simpl. lia.
Qed.

(** On a one-point interval the spacing is [0.0]: the position never
    advances and the loop never leaves through its guard. *)
Lemma spaced_probes_loop_stuck fuel start : ∀ i,
  let r := spaced_probes_loop fuel start start (S754_zero false) i start in
  r.2 ≠ Returned ∧ Forall (eq start) r.1.
Proof.
  induction fuel as [|fuel IH]; intros i; simpl; [by split|].
  rewrite decide_True by lia.
  destruct (float_of_int (i + 1)) as [fi|e] eqn:Hfi; simpl; [|by repeat constructor].
  destruct fi as [s|s| |s m e]; simpl; try by repeat constructor.
  - rewrite Z.add_0_r. destruct (IH (i + 1)) as [? ?]. by repeat constructor.
  - rewrite Z.add_0_r. destruct (IH (i + 1)) as [? ?]. by repeat constructor.
Qed.

(** As long as the round counter has at most 53 bits, every round yields
    [start] again. *)
Lemma spaced_probes_loop_stuck_running fuel start : ∀ i,
  0 ≤ i → i + Z.of_nat fuel ≤ 2 ^ 53 →
  spaced_probes_loop fuel start start (S754_zero false) i start
  = (replicate fuel start, Running).
Proof.
  induction fuel as [|fuel IH]; intros i Hi Hfuel; [done|].
  destruct (float_of_int_small (i + 1)) as (fi & Hfi & Hat); [lia|].
  assert (Hk : int_of_float (float_mul fi (S754_zero false)) = Ok 0).
  { destruct fi as [s|s| |[|] m e]; done. }
  rewrite (spaced_probes_loop_step fuel start start _ i start fi 0
             (Z.le_refl start) Hfi Hk).
  rewrite Z.add_0_r, IH by lia. done.
Qed.

(** C3: [spaced_probes] does not yield a finite sequence when
    [end = start].  For every positive spacing and however long it runs, the
    generator has not returned and has yielded nothing but [start]: the
    spacing is [0 / 2 = 0.0], so [pos] stays at [start] and [pos <= end]
    holds in every round.  Each of the first [2^53] rounds yields [start]
    and leaves the generator running (the only way out is the
    [OverflowError] of [float(i)], after more than [10^308] rounds). *)
Theorem spaced_probes_point_interval_never_returns
    (fuel : nat) (start probe_spacing : Z) :
  0 < probe_spacing →
  let r := spaced_probes fuel start start probe_spacing in
  r.2 ≠ Returned ∧ Forall (eq start) r.1 ∧
  (Z.of_nat fuel ≤ 2 ^ 53 → r = (replicate fuel start, Running)).
Proof.
  intros Hsp. unfold spaced_probes. rewrite decide_False by lia.
  rewrite Z.sub_diag, Z.div_0_l by lia.
  change (int_truediv 0 (Z.max 0 2)) with (Ok (S754_zero false) : result float).
  split; [apply spaced_probes_loop_stuck|].
  split; [apply spaced_probes_loop_stuck|].
  intros Hfuel. apply spaced_probes_loop_stuck_running; lia.
Qed.

Lemma spaced_probes_point_interval_witness :
  let r := spaced_probes 1000 0 0 1 in
  r.2 ≠ Returned ∧ Forall (eq 0) r.1 ∧
  (Z.of_nat 1000 ≤ 2 ^ 53 → r = (replicate 1000 0, Running)).
Proof.
  apply (spaced_probes_point_interval_never_returns 1000 0 1). lia.
Defined.

Example spaced_probes_point_interval_1000 :
  spaced_probes 1000 0 0 1 = (replicate 1000 0, Running).
Proof. vm_compute. reflexivity. Qed.

(** ** [triangle_probes] *)

(** The float literals are the nearest floats of the decimals. *)
Example float_0_1_nearest : int_truediv 1 10 = Ok float_0_1.
Proof. reflexivity. Qed.

Example float_2_5_nearest : int_truediv 5 2 = Ok float_2_5.
Proof. reflexivity. Qed.

(** C6.  With the defaults [height=2.5, width=5001, steps=15],
    [triangle_probes] yields exactly 15 pairs; the positions are
    [center + i * 357] for [i = -7 .. 7], where [357 = 5000 // 14], so they
    increase strictly and are symmetric about [center]; the height at the
    centre is [height + 0.1], and the height at both ends, computed as
    [height - (height / 7) * 7 + 0.1], is [0.1]. *)
Theorem triangle_probes_defaults (center : Z) :
  ∃ out : list (Z * float),
    triangle_probes center float_2_5 5001 15 = (out, Returned) ∧
    length out = 15%nat ∧
    (5001 - 1) `div` (15 - 1) = 357 ∧
    out.*1 = (λ i, center + i * 357) <$> seqZ (-7) 15 ∧
    StronglySorted Z.lt out.*1 ∧
    (∀ (k : nat) p q,
       out.*1 !! k = Some p → out.*1 !! (14 - k)%nat = Some q →
       p - center = center - q) ∧
    out.*2 = triangle_default_heights ++ tail (reverse triangle_default_heights) ∧
    out !! 7%nat = Some (center, float_add float_2_5 float_0_1) ∧
    out !! 0%nat = Some (center - 7 * 357, float_0_1) ∧
    out !! 14%nat = Some (center + 7 * 357, float_0_1).
Proof.
  exists (zip ((λ i, center + i * 357) <$> seqZ (-7) 15)
              (triangle_default_heights ++ tail (reverse triangle_default_heights))).
  split; [vm_compute; reflexivity|].
  split; [reflexivity|]. split; [reflexivity|].
  split; [reflexivity|].
  split.
  { apply Sorted_StronglySorted; [intros ???; lia|].
    cbn. repeat (constructor; try (cbn; lia)). }
  split.
  { intros k p q. do 15 (destruct k as [|k]; [cbn; intros [= <-] [= <-]; lia|]).
    cbn. done. }
  split; [reflexivity|].
  split.
  { transitivity (Some (center + 0 * 357, float_add float_2_5 float_0_1));
      [reflexivity | f_equal; f_equal; lia]. }
  split.
  { transitivity (Some (center + (-7) * 357, float_0_1));
      [reflexivity | f_equal; f_equal; lia]. }
  transitivity (Some (center + 7 * 357, float_0_1)); reflexivity.
Qed.

(** ** [events] *)

Lemma py_le_int x y : py_le (VInt x) (VInt y) = Ok (x <=? y).
Proof.
  unfold py_le. simpl. unfold Z.leb. by destruct (x ?= y).
Qed.

(** Case analysis on the first computation of a chain of binds. *)
Ltac case_bind :=
  match goal with
  | |- context [mbind _ ?r] => destruct r eqn:?; simpl; [|try done]
  end.

Lemma event_of_interval_reversed CONTIG_LENGTHS variant ev s e :
  event_of CONTIG_LENGTHS variant = Ok (Some ev) →
  ev_start ev = VInt s → ev_end ev = Some (VInt e) → e ≤ s.
Proof.
  unfold event_of. case_decide; [done|]. case_decide; [done|].
  destruct (truthy_opt _); [|by intros [= <-]].
  destruct (INFO variant !! "END") as [end_|]; [|done].
  destruct (py_le _ end_) as [swap|] eqn:Hle; [|done]. simpl.
  destruct swap.
  - do 2 case_bind.
    case_decide; [|done]. intros [= <-]. simpl. intros -> [= <-].
    rewrite py_le_int in Hle. injection Hle as Hle. lia.
  - do 2 case_bind.
    case_decide; [|done]. intros [= <-]. simpl. intros [= <-] [= ->].
    rewrite py_le_int in Hle. injection Hle as Hle. lia.
Qed.

(** C1: the swap runs when the pair is already ordered.  Every interval
    Event over integer coordinates that [events] yields has
    [end <= start]; none satisfies [start < end]. *)
Theorem events_interval_reversed CONTIG_LENGTHS (variants : list Variant)
    (ev : Event) (s e : Z) :
  ev ∈ (events CONTIG_LENGTHS variants).1 →
  ev_start ev = VInt s → ev_end ev = Some (VInt e) →
  e ≤ s ∧ ¬ (s < e).
Proof.
  intros Hin Hs He. enough (e ≤ s) by lia. revert Hin.
  induction variants as [|variant rest IH]; simpl; [by intros ?%elem_of_nil|].
  destruct (event_of CONTIG_LENGTHS variant) as [[ev'|]|] eqn:Hev; simpl.
  - intros [->|Hin]%elem_of_cons; [|by apply IH].
    by eapply event_of_interval_reversed.
  - done.
  - by intros ?%elem_of_nil.
Qed.

Lemma events_interval_reversed_witness :
  (events sample_contigs [deletion_5100]).1 =
    [{| ev_chrom := "1"; ev_start := VInt 5200; ev_end := Some (VInt 100);
        ev_type := Some (VStr "DEL"); ev_info := INFO deletion_5100 |}] ∧
  (100 ≤ 5200 ∧ ¬ (5200 < 100)).
Proof.
  assert (H : (events sample_contigs [deletion_5100]).1 =
    [{| ev_chrom := "1"; ev_start := VInt 5200; ev_end := Some (VInt 100);
        ev_type := Some (VStr "DEL"); ev_info := INFO deletion_5100 |}])
    by (vm_compute; reflexivity).
  split; [exact H|].
  apply (events_interval_reversed sample_contigs [deletion_5100]
           {| ev_chrom := "1"; ev_start := VInt 5200; ev_end := Some (VInt 100);
              ev_type := Some (VStr "DEL"); ev_info := INFO deletion_5100 |}).
  - rewrite H. left.
  - reflexivity.
  - reflexivity.
Defined.

(** ** [variant_filter]: the size rule *)

Lemma is_str_false (v : option info_value) (s : string) :
  v ≠ Some (VStr s) → is_str v s = false.
Proof.
  destruct v as [[| |t]|]; simpl; try done.
  intros Hne. destruct (String.eqb_spec t s); [congruence | done].
Qed.

(** C7 (amended).  For every raw variant record whose END info field is a
    non-zero integer and whose SVTYPE is not TRA: when
    [|END - start| <= min_size] the filter rejects the record, whatever its
    frequency (the size exactly [min_size] included); when
    [|END - start| > min_size] the record passes the size rule and the
    frequency check alone decides. *)
Theorem size_rule_boundary (variant : Variant) (rest : list Variant)
    (min_size : Z) (max_frequency : float) (frequency_tag : string) (e : Z) :
  INFO variant !! "END" = Some (VInt e) → e ≠ 0 →
  INFO variant !! "SVTYPE" ≠ Some (VStr "TRA") →
  (Z.abs (e - variant_start variant) ≤ min_size →
     admits min_size max_frequency frequency_tag variant = Ok false ∧
     variant_filter (variant :: rest) min_size max_frequency frequency_tag =
     variant_filter rest min_size max_frequency frequency_tag) ∧
  (min_size < Z.abs (e - variant_start variant) →
     admits min_size max_frequency frequency_tag variant =
     frequency_check max_frequency frequency_tag variant).
Proof.
  intros Hend He Htra.
  assert (Hsize : size_check min_size variant =
                  Ok (negb (Z.abs (e - variant_start variant) <=? min_size))).
  { unfold size_check. rewrite Hend, (is_str_false _ _ Htra). simpl.
    destruct (Z.eqb_spec e 0); [done|]. simpl.
    unfold Z.leb. by destruct (_ ?= _). }
  split; intros Hcmp.
  - assert (Hadm : admits min_size max_frequency frequency_tag variant = Ok false).
    { unfold admits. rewrite Hsize. simpl.
      by rewrite (proj2 (Z.leb_le _ _) Hcmp). }
    split; [done|]. simpl. rewrite Hadm.
    by destruct (variant_filter rest _ _ _).
  - unfold admits. rewrite Hsize. simpl.
    by rewrite (proj2 (Z.leb_gt _ _)) by lia.
Qed.

Lemma size_rule_boundary_witness :
  Z.abs (5200 - variant_start deletion_5100) ≤ 5100 ∧
  admits 5100 float_0_01 "FRQ" deletion_5100 = Ok false ∧
  variant_filter [deletion_5100] 5100 float_0_01 "FRQ" =
  variant_filter [] 5100 float_0_01 "FRQ".
Proof.
  assert (Hsize : Z.abs (5200 - variant_start deletion_5100) ≤ 5100)
    by (vm_compute; discriminate).
  split; [exact Hsize|].
  apply (size_rule_boundary deletion_5100 [] 5100 float_0_01 "FRQ" 5200).
  - reflexivity.
  - lia.
  - vm_compute. discriminate.
  - exact Hsize.
Defined.

(** The scenario of the specification: at the default [min_size=5000] the
    deletion of size 5100 is admitted, the one of size 1900 is not. *)
Example variant_filter_scenario :
  variant_filter
    [deletion_5100;
     {| CHROM := "1"; variant_start := 100; REF := "N"; ALT := ["<DEL>"];
        INFO := {[ "SVTYPE" := VStr "DEL"; "END" := VInt 2000 ]} |}]
    5000 float_0_01 "FRQ"
  = ([deletion_5100], Returned).
Proof. vm_compute. reflexivity. Qed.

(** C7 as stated fails for a record whose END field is 0: [if end] takes
    it for a missing END, the size rule is skipped and the record is
    admitted although [|END - start| = 100 <= 5000]. *)
Lemma size_rule_skipped_for_end_zero :
  INFO deletion_end_zero !! "END" = Some (VInt 0) ∧
  INFO deletion_end_zero !! "SVTYPE" ≠ Some (VStr "TRA") ∧
  Z.abs (0 - variant_start deletion_end_zero) ≤ 5000 ∧
  variant_filter [deletion_end_zero] 5000 float_0_01 "FRQ"
    = ([deletion_end_zero], Returned).
Proof.
  split; [reflexivity|]. split; [vm_compute; discriminate|].
  split; [vm_compute; discriminate|]. vm_compute. reflexivity.
Qed.

(** ** Python strings: [split] and the slice *)

Lemma app_cons_string a (s1 s2 : string) :
  String a s1 +:+ s2 = String a (s1 +:+ s2).
Proof. reflexivity. Qed.

Lemma app_nil_string (s : string) : "" +:+ s = s.
Proof. reflexivity. Qed.

Lemma split_on_nonempty sep s : split_on sep s ≠ [].
Proof.
  destruct s as [|c s]; simpl; [done|].
  destruct (Ascii.eqb c sep); [done|]. by destruct (split_on sep s).
Qed.

Lemma split_on_lacks sep s : lacks sep s → split_on sep s = [s].
Proof.
  induction s as [|c s IH]; simpl; [done|]. intros [Hc Hs].
  rewrite (proj2 (Ascii.eqb_neq c sep) Hc), (IH Hs). done.
Qed.

Lemma split_on_app sep s1 s2 :
  lacks sep s1 →
  split_on sep (s1 +:+ String sep s2) = s1 :: split_on sep s2.
Proof.
  induction s1 as [|c s1 IH].
  - intros _. rewrite app_nil_string. simpl. by rewrite Ascii.eqb_refl.
  - intros [Hc Hs]. rewrite app_cons_string. simpl.
    rewrite (proj2 (Ascii.eqb_neq c sep) Hc), (IH Hs). done.
Qed.

Lemma lacks_app c s1 s2 : lacks c (s1 +:+ s2) ↔ lacks c s1 ∧ lacks c s2.
Proof.
  induction s1 as [|a s1 IH]; [rewrite app_nil_string; simpl; tauto|].
  rewrite app_cons_string. simpl. tauto.
Qed.

Lemma app_assoc_string (s1 s2 s3 : string) :
  (s1 +:+ s2) +:+ s3 = s1 +:+ (s2 +:+ s3).
Proof.
  induction s1 as [|a s1 IH]; [done|]. rewrite !app_cons_string. by rewrite IH.
Qed.

Lemma drop_two_app s1 s2 :
  (2 ≤ String.length s1)%nat → drop_two (s1 +:+ s2) = drop_two s1 +:+ s2.
Proof. destruct s1 as [|a [|b s1]]; simpl; [lia | lia | done]. Qed.

Lemma lacks_drop_two c s : lacks c s → lacks c (drop_two s).
Proof. destruct s as [|a [|b s]]; simpl; tauto. Qed.

Lemma drop_last_app s1 a s2 :
  drop_last (s1 +:+ String a s2) = s1 +:+ drop_last (String a s2).
Proof.
  induction s1 as [|b s1 IH]; [done|].
  change (String b s1 +:+ String a s2) with (String b (s1 +:+ String a s2)).
  cbn [drop_last]. rewrite IH.
  destruct (s1 +:+ String a s2) eqn:Heq; [by destruct s1|done].
Qed.

Lemma lacks_drop_last c s : lacks c s → lacks c (drop_last s).
Proof.
  induction s as [|a s IH]; [done|]. intros [Ha Hs].
  destruct s as [|b s]; [done|]. split; [done|]. by apply IH.
Qed.

Lemma length_app_string s1 s2 :
  String.length (s1 +:+ s2) = (String.length s1 + String.length s2)%nat.
Proof.
  induction s1 as [|a s1 IH]; [done|]. rewrite app_cons_string. simpl.
  by rewrite IH.
Qed.

Lemma drop_last_cons a s :
  s ≠ EmptyString → drop_last (String a s) = String a (drop_last s).
Proof. by destruct s. Qed.

(** ** [variant_filter]: breakends *)

(** The partner of a breakend written in bracket notation,
    [pre d1 chrom : digits d2 post] with [d1], [d2] brackets. *)
Lemma breakend_partner_bracket (variant : Variant)
    (pre : string) (d1 : ascii) (chrom digits : string) (d2 : ascii)
    (post : string) (rest : list string) (p : Z) :
  ALT variant =
    (pre +:+ String d1 (chrom +:+ String ":" (digits +:+ String d2 post)))
    :: rest →
  bracket d1 → bracket d2 →
  plain pre → plain chrom → plain digits → plain post →
  (1 ≤ String.length pre + String.length chrom)%nat →
  py_int digits = Ok p →
  breakend_partner variant = Ok (chrom, p).
Proof.
  intros HALT Hd1 Hd2 (Hpre1 & Hpre2 & Hpre3) (Hc1 & Hc2 & Hc3)
    (Hg1 & Hg2 & Hg3) (Hp1 & Hp2 & Hp3) Hlen Hint.
  set (x := pre +:+ String d1 chrom).
  set (y := digits +:+ String d2 post).
  assert (Halt0 : pre +:+ String d1 (chrom +:+ String ":" y) = x +:+ String ":" y).
  { unfold x. by rewrite app_assoc_string, app_cons_string. }
  fold y in HALT. rewrite Halt0 in HALT.
  assert (Hx : lacks ":" x).
  { apply lacks_app. split; [done|]. split; [|done]. by destruct Hd1 as [-> | ->]. }
  assert (Hy : lacks ":" y).
  { apply lacks_app. split; [done|]. split; [|done]. by destruct Hd2 as [-> | ->]. }
  assert (Hxlen : (2 ≤ String.length x)%nat).
  { unfold x. rewrite length_app_string. simpl. lia. }
  assert (Hyne : y ≠ EmptyString).
  { unfold y. intros Hy0. apply (f_equal String.length) in Hy0.
    rewrite length_app_string in Hy0. simpl in Hy0. lia. }
  assert (Hsplit : split_on ":" (x +:+ String ":" y) = [x; y]).
  { by rewrite split_on_app, split_on_lacks. }
  assert (Hslice : split_on ":" (slice_2_m1 (x +:+ String ":" y))
                   = [drop_two x; drop_last y]).
  { unfold slice_2_m1. rewrite drop_two_app, drop_last_app, drop_last_cons by done.
    rewrite split_on_app by by apply lacks_drop_two.
    by rewrite split_on_lacks by by apply lacks_drop_last. }
  assert (Hdigits : ∃ s2, item (split_on "]" y) 0 = Ok s2 ∧
                          item (split_on "[" s2) 0 = Ok digits).
  { destruct Hd2 as [-> | ->].
    - exists y. split.
      + rewrite split_on_lacks; [done|]. apply lacks_app. by repeat split.
      + unfold y. by rewrite split_on_app.
    - exists digits. split.
      + unfold y. by rewrite split_on_app.
      + by rewrite split_on_lacks. }
  assert (Hchrom : ∃ c2, item_last (split_on "]" x) = Ok c2 ∧
                         item_last (split_on "[" c2) = Ok chrom).
  { destruct Hd1 as [-> | ->].
    - exists x. split.
      + rewrite split_on_lacks; [done|]. apply lacks_app. by repeat split.
      + unfold x. rewrite split_on_app, split_on_lacks by done. done.
    - exists chrom. split.
      + unfold x. rewrite split_on_app, split_on_lacks by done. done.
      + by rewrite split_on_lacks. }
  destruct Hdigits as (s2 & Hs2 & Hs3). destruct Hchrom as (c2 & Hc2' & Hc3').
  unfold breakend_partner. rewrite HALT. cbn [item lookup list_lookup mbind result_bind].
  rewrite Hslice, Hsplit. cbn [item lookup list_lookup mbind result_bind].
  rewrite Hs2. cbn [mbind result_bind]. rewrite Hs3. cbn [mbind result_bind].
  rewrite Hint. cbn [mbind result_bind].
  rewrite Hc2'. cbn [mbind result_bind]. rewrite Hc3'. done.
Qed.



(** The scenario of the specification: partner 50 bp away, [min_size=100]. *)
Example variant_filter_local_breakend :
  variant_filter [local_breakend] 100 float_0_01 "FRQ" = ([], Returned).
Proof. vm_compute. reflexivity. Qed.


(** ** Mean coverage *)

(** C4 (amended).  Computing the mean coverage over zero qualifying
    records (no parsed coverage record on a known contig) fails with the
    built-in [ZeroDivisionError] of the unguarded division, in
    [add_coverage_probes] as in [compute_mean_coverage]; no named error is
    raised. *)
Theorem mean_coverage_empty (CONTIG_LENGTHS : gmap string Z)
    (records : list CoverageRecord) :
  Forall (λ r, CONTIG_LENGTHS !! cr_chrom r = None) records →
  mean_coverage CONTIG_LENGTHS records = Raise ZeroDivisionError ∧
  compute_mean_coverage [] = Raise ZeroDivisionError.
Proof.
  intros Hnone. split; [|reflexivity].
  unfold mean_coverage, known_coverages.
  assert (filter (λ r, is_Some (CONTIG_LENGTHS !! cr_chrom r)) records = []) as ->.
  { induction Hnone as [|r records Hr _ IH]; [done|].
    rewrite filter_cons_False; [done|]. rewrite Hr. by intros [? ?]. }
  reflexivity.
Qed.

Lemma mean_coverage_empty_witness :
  mean_coverage sample_contigs [{| cr_chrom := "GL000207.1"; cr_start := 0;
                                    cr_end := 100; coverage := float_2_5 |}]
    = Raise ZeroDivisionError ∧
  compute_mean_coverage [] = Raise ZeroDivisionError.
Proof.
  apply mean_coverage_empty. repeat constructor.
Defined.

(** C4 as stated fails: what is raised is not an [EmptyInputError]. *)
Lemma mean_coverage_empty_not_named :
  mean_coverage sample_contigs [] = Raise ZeroDivisionError ∧
  mean_coverage sample_contigs [] ≠ Raise (NamedError "EmptyInputError") ∧
  compute_mean_coverage [] ≠ Raise (NamedError "EmptyInputError").
Proof. split; [reflexivity|]. split; discriminate. Qed.

Example mean_coverage_two :
  mean_coverage sample_contigs [sample_record 0; sample_record 100]
    = Ok (VFloat float_2_5).
Proof. vm_compute. reflexivity. Qed.

(** ** [subtract_intervals]: the sort *)

(** The tags compare as Python compares the strings:
    ['iend' < 'istart' < 'rec']. *)
Lemma sub_tag_order a b :
  String.eqb (sub_tag a) (sub_tag b) = (sub_rank a =? sub_rank b) ∧
  String.ltb (sub_tag a) (sub_tag b) = (sub_rank a <? sub_rank b).
Proof. by destruct a, b. Qed.

Lemma sub_event_lt_spec a b :
  ¬ sub_clash a b →
  ∃ c : bool, sub_event_lt a b = Ok c ∧ (c = true ↔ sub_lt a b).
Proof.
  intros Hclash. unfold sub_event_lt, sub_lt.
  destruct (sub_tag_order a b) as [-> ->].
  destruct (Z.eqb_spec (sub_pos a) (sub_pos b)) as [Hp|Hp].
  - destruct (Z.eqb_spec (sub_rank a) (sub_rank b)) as [Hr|Hr].
    + destruct a, b; simpl in *; try lia;
        try (exfalso; apply Hclash; by repeat split);
        (exists false; split; [done|]; split; [done | lia]).
    + eexists. split; [done|]. rewrite Z.ltb_lt. lia.
  - eexists. split; [done|]. rewrite Z.ltb_lt. lia.
Qed.

#[global] Instance sub_le_trans : Transitive sub_le.
Proof. intros a b c. unfold sub_le. lia. Qed.

Lemma insert_sorted_ok x l :
  StronglySorted sub_le l → Forall (λ y, ¬ sub_clash y x) l →
  ∃ l', insert_sorted sub_event_lt x l = Ok l' ∧
        StronglySorted sub_le l' ∧ l' ≡ₚ x :: l.
Proof.
  induction 1 as [|y l Hs IH Hy]; intros Hclash.
  - exists [x]. repeat split; [|done]. repeat constructor.
  - apply Forall_cons in Hclash as [Hyx Hclash].
    destruct (sub_event_lt_spec y x Hyx) as (c & Hc & Hlt). simpl. rewrite Hc.
    simpl. destruct c.
    + destruct (IH Hclash) as (l' & -> & Hs' & Hp). simpl.
      exists (y :: l'). split; [done|]. split.
      * constructor; [done|]. rewrite Hp. constructor; [|done].
        pose proof (proj1 Hlt eq_refl). unfold sub_lt, sub_le in *. lia.
      * rewrite Hp. apply perm_swap.
    + exists (x :: y :: l). split; [done|]. split; [|done].
      assert (Hxy : sub_le x y).
      { unfold sub_lt, sub_le in *. destruct Hlt as [_ Hlt].
        destruct (decide (sub_pos y < sub_pos x ∨
                          sub_pos y = sub_pos x ∧ sub_rank y < sub_rank x));
          [by specialize (Hlt ltac:(done)) | lia]. }
      constructor; [by constructor|]. constructor; [done|].
      eapply Forall_impl; [exact Hy|]. intros z Hz. by etransitivity.
Qed.

Lemma py_sort_ok l :
  NoDup (omap rec_position l) →
  ∃ l', py_sort sub_event_lt l = Ok l' ∧ StronglySorted sub_le l' ∧ l' ≡ₚ l.
Proof.
  induction l as [|x l IH]; intros Hnd.
  - exists []. repeat split; [constructor | done].
  - assert (Hnd' : NoDup (omap rec_position l)).
    { simpl in Hnd. destruct (rec_position x); [by apply NoDup_cons in Hnd as [_ ?] | done]. }
    destruct (IH Hnd') as (s & Hs & Hss & Hp). simpl. rewrite Hs. simpl.
    destruct (insert_sorted_ok x s Hss) as (l' & Hl' & Hss' & Hp').
    + apply Forall_forall. intros y Hy (Hpos & Hry & Hrx).
      destruct x as [rx| |], y as [ry| |]; try done. simpl in *.
      apply NoDup_cons in Hnd as [Hnotin _]. apply Hnotin.
      apply list_elem_of_omap. exists (EvRec ry). split; [by rewrite <- Hp|].
      simpl. by rewrite Hpos.
    + exists l'. split; [done|]. split; [done|]. by rewrite Hp', Hp.
Qed.

(** ** [subtract_intervals]: the sweep *)

Lemma subtract_sweep_app inside es1 es2 :
  subtract_sweep inside (es1 ++ es2) =
  subtract_sweep inside es1 ++ subtract_sweep (inside_after inside es1) es2.
Proof.
  revert inside. induction es1 as [|[r|p|p] es1 IH]; intros inside; simpl;
    [done | | done | done].
  destruct inside; simpl; by rewrite IH.
Qed.

Lemma inside_after_app inside es1 es2 :
  inside_after inside (es1 ++ es2) = inside_after (inside_after inside es1) es2.
Proof.
  revert inside. induction es1 as [|[r|p|p] es1 IH]; intros inside; simpl; done.
Qed.

Lemma subtract_sweep_elem inside es r :
  r ∈ subtract_sweep inside es → EvRec r ∈ es.
Proof.
  revert inside. induction es as [|[r'|p|p] es IH]; intros inside; simpl.
  - by intros ?%elem_of_nil.
  - destruct inside.
    + intros ?%IH. by right.
    + intros [->|?%IH]%elem_of_cons; [left | by right].
  - intros ?%IH. by right.
  - intros ?%IH. by right.
Qed.

Lemma inside_after_stays_inside es :
  Forall (λ e, sub_rank e ≠ 0) es → inside_after true es = true.
Proof. induction 1 as [|[r|p|p] es He _ IH]; simpl in *; done. Qed.

Lemma inside_after_stays_outside es :
  Forall (λ e, sub_rank e ≠ 1) es → inside_after false es = false.
Proof. induction 1 as [|[r|p|p] es He _ IH]; simpl in *; done. Qed.

Lemma sorted_before_in_prefix es1 x es2 e :
  StronglySorted sub_le (es1 ++ x :: es2) →
  e ∈ es1 ++ x :: es2 → sub_lt e x → e ∈ es1.
Proof.
  intros Hss [Hin|[->|Hin]%elem_of_cons]%elem_of_app Hlt; [done | |].
  - unfold sub_lt in Hlt. lia.
  - apply StronglySorted_app_1_r, StronglySorted_inv in Hss as [_ Hall].
    rewrite Forall_forall in Hall. specialize (Hall _ Hin).
    unfold sub_lt, sub_le in *. lia.
Qed.

Lemma sorted_between a y b x es2 e :
  StronglySorted sub_le ((a ++ y :: b) ++ x :: es2) →
  e ∈ b → sub_le y e ∧ sub_le e x.
Proof.
  intros Hss Hin. split.
  - apply StronglySorted_app_1_l, StronglySorted_app_1_r in Hss.
    apply StronglySorted_inv in Hss as [_ Hall].
    rewrite Forall_forall in Hall. by apply Hall.
  - eapply StronglySorted_app_1_elem_of; [exact Hss | | left].
    apply elem_of_app. right. by right.
Qed.

Lemma omap_rec_position_events records intervals :
  omap rec_position (sub_events records intervals) = cr_start <$> records.
Proof.
  unfold sub_events. rewrite !omap_app.
  assert (H1 : omap rec_position (EvRec <$> records) = cr_start <$> records).
  { induction records as [|r rs IH]; [done|]. csimpl. by rewrite IH. }
  assert (H2 : omap rec_position ((λ i : interval, EvIstart i.1) <$> intervals) = []).
  { induction intervals as [|i rest IH]; [done|]. csimpl. by rewrite IH. }
  assert (H3 : omap rec_position ((λ i : interval, EvIend i.2) <$> intervals) = []).
  { induction intervals as [|i rest IH]; [done|]. csimpl. by rewrite IH. }
  by rewrite H1, H2, H3, !app_nil_r.
Qed.

(** The sorted events around the event of a record [r], and what decides
    whether [r] is yielded: the flag [inside] when the loop reaches it. *)
Lemma subtract_intervals_at records intervals r :
  NoDup (cr_start <$> records) → r ∈ records →
  ∃ es1 es2,
    subtract_intervals records intervals
      = Ok (subtract_sweep false (es1 ++ EvRec r :: es2)) ∧
    StronglySorted sub_le (es1 ++ EvRec r :: es2) ∧
    es1 ++ EvRec r :: es2 ≡ₚ sub_events records intervals ∧
    (r ∈ subtract_sweep false (es1 ++ EvRec r :: es2)
       ↔ inside_after false es1 = false).
Proof.
  intros Hnd Hr. unfold subtract_intervals.
  assert (Hnd_ev : NoDup (omap rec_position (sub_events records intervals)))
    by by rewrite omap_rec_position_events.
  destruct (py_sort_ok _ Hnd_ev) as (L & -> & Hss & Hperm). simpl.
  assert (HrL : EvRec r ∈ L).
  { rewrite Hperm. unfold sub_events. apply elem_of_app. left.
    apply list_elem_of_fmap. by exists r. }
  apply list_elem_of_split in HrL as (es1 & es2 & ->).
  exists es1, es2. split; [done|]. split; [done|]. split; [done|].
  assert (Hnd_L : NoDup (omap rec_position (es1 ++ EvRec r :: es2)))
    by by rewrite Hperm.
  rewrite omap_app in Hnd_L. simpl in Hnd_L.
  apply NoDup_app in Hnd_L as (_ & Hdisj & [Hnot2 _]%NoDup_cons).
  assert (Hnot1 : EvRec r ∉ es1).
  { intros Hin. apply (Hdisj (cr_start r)); [|left].
    apply list_elem_of_omap. by exists (EvRec r). }
  assert (Hnot2' : EvRec r ∉ es2).
  { intros Hin. apply Hnot2. apply list_elem_of_omap. by exists (EvRec r). }
  rewrite subtract_sweep_app. simpl.
  destruct (inside_after false es1); split; try done.
  - intros [Hin|Hin]%elem_of_app; apply subtract_sweep_elem in Hin; done.
  - intros _. apply elem_of_app. right. left.
Qed.

(** ** [subtract_intervals] on well-formed exclusion intervals *)

Lemma exclusions_from_ascending lo X :
  exclusions_from lo X → ascending_from lo X.
Proof.
  revert lo. induction X as [|[a b] X IH]; simpl; [done|].
  intros lo (? & ? & ?). split; [done|]. split; [lia | by apply IH].
Qed.

Lemma exclusions_from_exclusions lo X : exclusions_from lo X → exclusions X.
Proof. destruct X as [|[a b] X]; simpl; tauto. Qed.

Lemma boundaries_Permutation (X : list interval) :
  ((λ i : interval, EvIstart i.1) <$> X) ++
  ((λ i : interval, EvIend i.2) <$> X) ≡ₚ boundaries X.
Proof.
  induction X as [|[a b] X IH]; simpl; [done|].
  constructor. rewrite <- Permutation_middle. by constructor.
Qed.

Lemma boundaries_Sorted lo (X : list interval) :
  exclusions_from lo X →
  Sorted sub_le (boundaries X) ∧ HdRel sub_le (EvIend lo) (boundaries X).
Proof.
  revert lo. induction X as [|[a b] X IH]; intros lo; simpl.
  - by split; constructor.
  - intros (? & ? & HX). destruct (IH b HX) as [Hs Hhd]. split.
    + constructor; [by constructor|]. constructor. left. simpl. lia.
    + constructor. unfold sub_le. simpl. lia.
Qed.

Lemma boundaries_all_boundary X : Forall is_boundary (boundaries X).
Proof. induction X as [|[a b] X IH]; simpl; repeat constructor; done. Qed.

Lemma StronglySorted_filter_boundary l :
  StronglySorted sub_le l → StronglySorted sub_le (filter is_boundary l).
Proof.
  induction 1 as [|x l Hs IH Hx]; [constructor|].
  rewrite filter_cons. case_decide; [|done]. constructor; [done|].
  apply Forall_forall. intros y [_ Hy]%list_elem_of_filter.
  rewrite Forall_forall in Hx. by apply Hx.
Qed.

Lemma filter_boundary_events records intervals :
  filter is_boundary (sub_events records intervals) ≡ₚ boundaries intervals.
Proof.
  unfold sub_events. rewrite !filter_app.
  assert (H1 : filter is_boundary (EvRec <$> records) = []).
  { induction records as [|r rs IH]; [done|]. csimpl.
    rewrite filter_cons_False; [done|]. unfold is_boundary. simpl. lia. }
  assert (H2 : ∀ l : list sub_event, Forall is_boundary l → filter is_boundary l = l).
  { induction 1 as [|e l He _ IH]; [done|]. by rewrite filter_cons_True, IH. }
  rewrite H1, !H2; [apply boundaries_Permutation | |];
    apply Forall_fmap, Forall_true; intros i; unfold is_boundary; simpl; lia.
Qed.

Lemma inside_after_filter_boundary inside es :
  inside_after inside (filter is_boundary es) = inside_after inside es.
Proof.
  revert inside. induction es as [|[r|p|p] es IH]; intros inside; [done| | |].
  - rewrite filter_cons_False; [apply IH|]. unfold is_boundary. simpl. lia.
  - rewrite filter_cons_True; [apply IH|]. unfold is_boundary. simpl. lia.
  - rewrite filter_cons_True; [apply IH|]. unfold is_boundary. simpl. lia.
Qed.

(** The boundaries at or before [p] leave the flag set exactly when [p]
    lies in one of the intervals. *)
Lemma inside_after_boundaries (X : list interval) p : ∀ pre suf,
  exclusions X → boundaries X = pre ++ suf →
  Forall (λ e, sub_pos e ≤ p) pre → Forall (λ e, p < sub_pos e) suf →
  (inside_after false pre = true ↔ covered X p).
Proof.
  induction X as [|[a b] X IH]; intros pre suf HX Heq Hpre Hsuf.
  - symmetry in Heq. apply app_eq_nil in Heq as [-> ->]. simpl.
    split; [done | by intros ?%covered_nil].
  - destruct HX as [Hab HX]. simpl in Heq.
    pose proof (ascending_from_covered b X p (exclusions_from_ascending _ _ HX))
      as Hlo.
    rewrite covered_cons. unfold in_interval. simpl.
    destruct pre as [|e1 [|e2 pre]].
    + simpl in Heq. subst suf. apply Forall_cons in Hsuf as [Ha _].
      simpl in *. split; [done|]. intros [?|Hc]; [lia|]. specialize (Hlo Hc). lia.
    + injection Heq as <- <-. apply Forall_cons in Hsuf as [Hb _].
      apply Forall_cons in Hpre as [Ha _]. simpl in *.
      split; [intros _; left; lia | done].
    + injection Heq as <- <- Heq.
      apply Forall_cons in Hpre as [Ha [Hb Hpre]%Forall_cons]. simpl in *.
      rewrite (IH pre suf (exclusions_from_exclusions _ _ HX) Heq Hpre Hsuf).
      split; [tauto|]. intros [?|?]; [lia | done].
Qed.

(** C10 (amended).  On records with pairwise distinct starts (which the
    sort requires), [subtract_intervals] resolves position ties by the
    order of the tag strings, ['iend' < 'istart' < 'rec']: at one position
    the interval ends come first, then the interval starts, then the
    record.  So a record whose start equals the start of an exclusion
    interval is dropped, and a record whose start equals the end of an
    exclusion interval is yielded when no interval starts at that
    position.  On exclusion intervals that are non-empty, sorted and
    non-overlapping, a record is yielded exactly when its start lies in
    none of the half-open intervals [[istart, iend)]. *)
Theorem subtract_intervals_ties (records : list CoverageRecord)
    (intervals : list interval) (r : CoverageRecord) :
  NoDup (cr_start <$> records) → r ∈ records →
  (sub_event_lt (EvIend (cr_start r)) (EvIstart (cr_start r)) = Ok true ∧
   sub_event_lt (EvIstart (cr_start r)) (EvRec r) = Ok true) ∧
  ∃ out, subtract_intervals records intervals = Ok out ∧
    ((∃ i : interval, i ∈ intervals ∧ i.1 = cr_start r) → r ∉ out) ∧
    ((∃ i : interval, i ∈ intervals ∧ i.2 = cr_start r) →
     (∀ i : interval, i ∈ intervals → i.1 ≠ cr_start r) → r ∈ out) ∧
    (exclusions intervals → (r ∈ out ↔ ¬ covered intervals (cr_start r))).
Proof.
  intros Hnd Hr. split.
  { unfold sub_event_lt. simpl. rewrite Z.eqb_refl. done. }
  destruct (subtract_intervals_at records intervals r Hnd Hr)
    as (es1 & es2 & -> & Hss & Hperm & Hout).
  eexists. split; [done|]. rewrite Hout. clear Hout.
  split; [|split].
  - intros (i & Hi & Hpos).
    assert (Hin : EvIstart (cr_start r) ∈ es1).
    { eapply sorted_before_in_prefix; [exact Hss | |].
      - rewrite Hperm. unfold sub_events. apply elem_of_app. right.
        apply elem_of_app. left. apply list_elem_of_fmap. exists i.
        by rewrite Hpos.
      - right. simpl. lia. }
    apply list_elem_of_split in Hin as (a & b & ->).
    rewrite inside_after_app. simpl. rewrite inside_after_stays_inside; [done|].
    apply Forall_forall. intros e He.
    destruct (sorted_between _ _ _ _ _ e Hss He) as [H1 H2].
    unfold sub_le in *. simpl in *. lia.
  - intros (i & Hi & Hpos) Hnostart.
    assert (Hin : EvIend (cr_start r) ∈ es1).
    { eapply sorted_before_in_prefix; [exact Hss | |].
      - rewrite Hperm. unfold sub_events. apply elem_of_app. right.
        apply elem_of_app. right. apply list_elem_of_fmap. exists i.
        by rewrite Hpos.
      - right. simpl. lia. }
    apply list_elem_of_split in Hin as (a & b & Hes1).
    rewrite Hes1, inside_after_app. simpl. apply inside_after_stays_outside.
    apply Forall_forall. intros e He Hrank.
    rewrite Hes1 in Hss.
    destruct (sorted_between _ _ _ _ _ e Hss He) as [H1 H2].
    destruct e as [r'|p|p]; simpl in Hrank; try lia.
    assert (Hp : p = cr_start r) by (unfold sub_le in *; simpl in *; lia).
    assert (Hev : EvIstart p ∈ sub_events records intervals).
    { rewrite <- Hperm, Hes1. apply elem_of_app. left.
      apply elem_of_app. right. by right. }
    unfold sub_events in Hev.
    apply elem_of_app in Hev as [Hev|Hev];
      [by apply list_elem_of_fmap in Hev as (? & ? & _)|].
    apply elem_of_app in Hev as [Hev|Hev];
      [|by apply list_elem_of_fmap in Hev as (? & ? & _)].
    apply list_elem_of_fmap in Hev as (j & [= Hj] & Hjin).
    apply (Hnostart j Hjin). congruence.
  - intros HX.
    assert (Hb : filter is_boundary es1 ++ filter is_boundary es2
                 = boundaries intervals).
    { assert (Hf : filter is_boundary (es1 ++ EvRec r :: es2)
                   = filter is_boundary es1 ++ filter is_boundary es2).
      { rewrite filter_app, filter_cons_False; [done|].
        unfold is_boundary. simpl. lia. }
      rewrite <- Hf.
      apply (StronglySorted_unique_strong sub_le).
      - intros x1 x2 [Hx1 _]%list_elem_of_filter Hx2 H12 H21.
        pose proof (boundaries_all_boundary intervals) as Hall.
        rewrite Forall_forall in Hall. specialize (Hall _ Hx2).
        unfold is_boundary, sub_le in *.
        destruct x1, x2; simpl in *; try lia; f_equal; lia.
      - by apply StronglySorted_filter_boundary.
      - apply Sorted_StronglySorted; [apply _|].
        destruct intervals as [|[a b] X]; [constructor|].
        destruct HX as [? HX].
        apply (boundaries_Sorted a ((a, b) :: X)). simpl. split; [lia | done].
      - rewrite Hperm. apply filter_boundary_events. }
    rewrite <- (inside_after_filter_boundary false es1).
    rewrite <- (inside_after_boundaries intervals (cr_start r) _ _ HX (eq_sym Hb)).
    + by destruct (inside_after false (filter is_boundary es1)).
    + apply Forall_forall. intros e [_ He]%list_elem_of_filter.
      assert (Hle : sub_le e (EvRec r)).
      { eapply StronglySorted_app_1_elem_of; [exact Hss | done | left]. }
      unfold sub_le in Hle. simpl in Hle. lia.
    + apply Forall_forall. intros e [Hbd He]%list_elem_of_filter.
      apply StronglySorted_app_1_r, StronglySorted_inv in Hss as [_ Hall].
      rewrite Forall_forall in Hall. specialize (Hall _ He).
      unfold sub_le, is_boundary in *. simpl in *.
      destruct e; simpl in *; lia.
Qed.

Lemma subtract_intervals_ties_witness :
  NoDup (cr_start <$>
    [sample_record 5; sample_record 10; sample_record 15; sample_record 20]) ∧
  ∃ out,
    subtract_intervals
      [sample_record 5; sample_record 10; sample_record 15; sample_record 20]
      [(10, 20)] = Ok out ∧
    sample_record 20 ∈ out.
Proof.
  assert (Hnd : NoDup (cr_start <$>
    [sample_record 5; sample_record 10; sample_record 15; sample_record 20])).
  { apply (bool_decide_unpack _). vm_compute. reflexivity. }
  assert (Hin : sample_record 20 ∈
    [sample_record 5; sample_record 10; sample_record 15; sample_record 20]).
  { do 3 right. left. }
  split; [exact Hnd|].
  destruct (subtract_intervals_ties _ [(10, 20)] _ Hnd Hin)
    as (_ & out & Hout & _ & Hyield & _).
  exists out. split; [exact Hout|]. apply Hyield.
  - exists (10, 20). split; [left | reflexivity].
  - intros i Hi. apply list_elem_of_singleton in Hi. subst i. simpl. lia.
Defined.

(** The example of the specification, with both ties added: records at
    5, 10, 15, 20 and 25 against the exclusion interval [(10, 20)]. *)
Example subtract_intervals_scenario :
  subtract_intervals
    [sample_record 5; sample_record 10; sample_record 15; sample_record 20;
     sample_record 25]
    [(10, 20)]
  = Ok [sample_record 5; sample_record 20; sample_record 25].
Proof. vm_compute. reflexivity. Qed.

(** Two records with one start make [events.sort()] raise. *)
Example subtract_intervals_same_start :
  subtract_intervals [sample_record 5; sample_record 5] [(10, 20)]
  = Raise TypeError.
Proof. vm_compute. reflexivity. Qed.

(** C10 as stated fails without these conditions, since [inside] is a flag
    and not a counter.  A record at the end of one interval and the start
    of the next is dropped; a record inside the second of two overlapping
    intervals is yielded once the first one has ended; and an empty
    interval, whose end sorts before its start, excludes every record
    after it. *)
Lemma subtract_intervals_flag_not_half_open :
  ((∃ i : interval, i ∈ [(0, 10); (10, 20)] ∧ i.2 = cr_start (sample_record 10)) ∧
   subtract_intervals [sample_record 10] [(0, 10); (10, 20)] = Ok []) ∧
  (covered [(0, 10); (5, 20)] (cr_start (sample_record 12)) ∧
   subtract_intervals [sample_record 12] [(0, 10); (5, 20)]
     = Ok [sample_record 12]) ∧
  (¬ covered [(10, 10)] (cr_start (sample_record 15)) ∧
   subtract_intervals [sample_record 15] [(10, 10)] = Ok []).
Proof.
  split; [|split].
  - split; [|vm_compute; reflexivity].
    exists (0, 10). split; [left | reflexivity].
  - split; [|vm_compute; reflexivity].
    exists (5, 20). split; [right; left|]. unfold in_interval. simpl. lia.
  - split; [|vm_compute; reflexivity].
    intros (i & Hi & Hp). apply list_elem_of_singleton in Hi. subst i.
    unfold in_interval in Hp. simpl in Hp. lia.
Qed.
(* ================================================================== *)
(** * Part III: further properties of the program *)
(* ================================================================== *)

(** ** [group_by_chromosome] *)

Lemma group_loop_concat records : ∀ prev acc,
  concat (snd <$> group_loop prev acc records) = acc ++ records.
Proof.
  induction records as [|r rest IH]; intros prev acc; simpl.
  - destruct acc; simpl; by rewrite ?app_nil_r.
  - case_decide.
    + destruct acc as [|a acc]; simpl; rewrite IH; by rewrite ?app_nil_r.
    + rewrite IH. by rewrite <- app_assoc.
Qed.

(** The groups of a run: every group is non-empty, its records carry the
    group's key, and neighbouring groups have different keys. *)
Lemma group_loop_runs records : ∀ prev acc,
  (acc ≠ [] → ∃ c, prev = Some c ∧ Forall (λ r, cr_chrom r = c) acc) →
  let groups := group_loop prev acc records in
  Forall (λ g, g.2 ≠ [] ∧
               ∃ c, g.1 = Some c ∧ Forall (λ r, cr_chrom r = c) g.2) groups ∧
  (acc ≠ [] → ∃ g, head groups = Some g ∧ g.1 = prev) ∧
  (∀ i g g', groups !! i = Some g → groups !! S i = Some g' → g.1 ≠ g'.1).
Proof.
  induction records as [|r rest IH]; intros prev acc Hacc; simpl.
  - destruct acc as [|a acc]; simpl.
    + split; [constructor|]. split; [done|]. intros i ? ? Hi. by destruct i.
    + split.
      { constructor; [|constructor]. split; [done|]. by apply Hacc. }
      split; [eauto|]. intros [|i] ? ? Hi Hi'; done.
  - assert (Hone : [r] ≠ [] → ∃ c, Some (cr_chrom r) = Some c ∧
                                   Forall (λ r0, cr_chrom r0 = c) [r]).
    { intros _. exists (cr_chrom r). split; [done|]. by repeat constructor. }
    case_decide as Hne.
    + destruct (IH (Some (cr_chrom r)) [r] Hone) as (Hall & Hhd & Hadj).
      destruct Hhd as (g0 & Hg0 & Hg0k); [done|].
      destruct acc as [|a acc]; simpl.
      * split; [done|]. split; [done|]. done.
      * split.
        { constructor; [|done]. split; [done|]. by apply Hacc. }
        split; [eauto|].
        intros [|i] g g' Hi Hi'; simpl in *.
        -- injection Hi as <-. simpl.
           destruct (group_loop _ _ rest) as [|g1 gs]; [done|].
           simpl in *. injection Hg0 as ->. injection Hi' as <-.
           rewrite Hg0k. done.
        -- by eapply Hadj.
    + assert (Hacc' : acc ++ [r] ≠ [] → ∃ c, Some (cr_chrom r) = Some c ∧
                        Forall (λ r0, cr_chrom r0 = c) (acc ++ [r])).
      { intros _. exists (cr_chrom r). split; [done|].
        apply Forall_app. split; [|by repeat constructor].
        destruct acc as [|a acc]; [constructor|].
        destruct Hacc as (c & Hc & Hall); [done|].
        assert (c = cr_chrom r) as -> by congruence. done. }
      destruct (IH (Some (cr_chrom r)) (acc ++ [r]) Hacc') as (Hall & Hhd & Hadj).
      split; [done|]. split; [|done].
      intros _. rewrite <- Hne. apply Hhd. by destruct acc.
Qed.
(** ** Binary64 rounding: a power of two below is never crossed *)

Section RoundingBelow.
Variables prec emax : Z.
Hypothesis prec_pos : 0 < prec.

(** Truncating a mantissa to the precision of the format keeps the value
    at or above a power of two [2^k] of the format. *)
Lemma shr_fexp_at_least m e l k :
  0 < m → SpecFloat.emin prec emax ≤ k → pow2_le 1 k m e →
  pow2_le 1 k (shr_m (shr_fexp prec emax m e l).1) (shr_fexp prec emax m e l).2.
Proof.
  intros Hm Hk Hle. unfold shr_fexp.
  set (n := fexp prec emax (Zdigits2 m + e) - e).
  destruct (shr_shifted (shr_record_of_loc m l) e n) as [Hs He];
    [rewrite shr_m_of_loc; lia|].
  destruct (shr (shr_record_of_loc m l) e n) as [mrs e']. simpl in *.
  destruct Hs as (rem & Hrem & Hmeq & Hm' & _).
  rewrite shr_m_of_loc in Hmeq.
  set (N := 2 ^ Z.max 0 n) in *. set (m' := shr_m mrs) in *.
  assert (HN : 0 < N) by (apply Z.pow_pos_nonneg; lia).
  set (c := Z.min e k).
  apply (pow2_le_at c) in Hle; [|unfold c; lia..].
  apply (pow2_le_at c); [unfold c; lia..|].
  set (A := 2 ^ (e - c)) in *. set (B := 2 ^ (k - c)) in *.
  assert (HA : 0 < A) by (apply Z.pow_pos_nonneg; unfold c; lia).
  assert (HB : 0 < B) by (apply Z.pow_pos_nonneg; unfold c; lia).
  assert (Hpow : 2 ^ (e' - c) = A * N).
  { unfold A, N. rewrite <- Z.pow_add_r by (unfold c; lia). f_equal. lia. }
  rewrite Hpow.
  destruct (decide (n ≤ 0)) as [Hn|Hn].
  { unfold N in *. rewrite Z.max_l in * by lia.
    change (2 ^ 0) with 1 in *. assert (m' = m) as -> by lia. lia. }
  destruct (decide (e' ≤ k)) as [Hek|Hek].
  - assert (HBeq : B = A * N * 2 ^ (k - e')).
    { rewrite <- Hpow. unfold B. rewrite <- Z.pow_add_r by (unfold c; lia).
      f_equal. lia. }
    assert (0 < 2 ^ (k - e')) by (apply Z.pow_pos_nonneg; lia).
    rewrite HBeq in Hle |- *.
    assert (2 ^ (k - e') < m' + 1) by nia. nia.
  - assert (Hfe : fexp prec emax (Zdigits2 m + e) = Zdigits2 m + e - prec).
    { unfold fexp in *. unfold n in He. lia. }
    pose proof (Zdigits2_bounds m Hm) as [Hdl _].
    assert (Hd : Zdigits2 m - 1 = (prec - 1) + n) by (unfold n; lia).
    rewrite Hd, Z.pow_add_r in Hdl by lia.
    assert (0 < 2 ^ (prec - 1)) by (apply Z.pow_pos_nonneg; lia).
    unfold N in Hrem, Hmeq, HN. rewrite Z.max_r in Hrem, Hmeq, HN by lia.
    assert (1 ≤ m') by nia.
    assert (B ≤ A * N).
    { rewrite <- Hpow. unfold B. apply Z.pow_le_mono_r; lia. }
    nia.
Qed.

(** Rounding a value that is at least [2^k], a power of two of the
    format, gives a float that is at least [2^k]. *)
Lemma binary_round_aux_at_least mx ex lx k :
  SpecFloat.emin prec emax ≤ k → pow2_le 1 k mx ex →
  float_at_least (binary_round_aux prec emax false mx ex lx) k.
Proof.
  intros Hk Hle.
  assert (Hpos : ∀ m e, pow2_le 1 k m e → 0 < m).
  { intros m e H. unfold pow2_le in H.
    assert (0 < 2 ^ (k - Z.min k e)) by (apply Z.pow_pos_nonneg; lia).
    assert (0 < 2 ^ (e - Z.min k e)) by (apply Z.pow_pos_nonneg; lia).
    nia. }
  pose proof (shr_fexp_at_least mx ex lx k (Hpos _ _ Hle) Hk Hle) as H1.
  unfold binary_round_aux.
  destruct (shr_fexp prec emax mx ex lx) as [mrs1 e1]. simpl in H1.
  pose proof (round_nearest_even_bounds (shr_m mrs1) (loc_of_shr_record mrs1))
    as [[Hm2 _] _].
  set (m2 := round_nearest_even _ _) in *.
  assert (H2 : pow2_le 1 k m2 e1).
  { pose proof (Hpos _ _ H1). unfold pow2_le in *.
    assert (0 < 2 ^ (e1 - Z.min k e1)) by (apply Z.pow_pos_nonneg; lia).
    nia. }
  pose proof (shr_fexp_at_least m2 e1 loc_Exact k (Hpos _ _ H2) Hk H2) as H3.
  destruct (shr_fexp prec emax m2 e1 loc_Exact) as [mrs2 e2]. simpl in H3.
  pose proof (Hpos _ _ H3) as Hm3.
  destruct (shr_m mrs2) as [|m3|m3]; [lia | | lia].
  by destruct (e2 <=? emax - prec).
Qed.
End RoundingBelow.
(** ** Binary64 facts of the coverage pipeline and of the probe loops *)

Lemma pow2_le_pos k m e : pow2_le 1 k m e → 0 < m.
Proof.
  unfold pow2_le. intros H.
  assert (0 < 2 ^ (k - Z.min k e)) by (apply Z.pow_pos_nonneg; lia).
  assert (0 < 2 ^ (e - Z.min k e)) by (apply Z.pow_pos_nonneg; lia).
  nia.
Qed.

Lemma pow2_le_scaled c m e K k :
  c ≤ e → c ≤ k → pow2_le m e K k → m * 2 ^ (e - c) ≤ K * 2 ^ (k - c).
Proof. intros. by apply pow2_le_at. Qed.

Lemma float_at_least_finite f k K k' :
  float_at_least f k → float_at_most f K k' →
  ∃ m e, f = S754_finite false m e.
Proof. destruct f as [s|[|]| |[|] m e]; simpl; try done; eauto. Qed.

(** [float(i)] for [2^lo <= i <= 2^hi]. *)
Lemma float_of_int_range (i lo hi : Z) :
  0 ≤ lo → hi ≤ 900 → 2 ^ lo ≤ i ≤ 2 ^ hi →
  ∃ f, float_of_int i = Ok f ∧ float_at_least f lo ∧ float_at_most f 1 hi.
Proof.
  intros Hlo Hhi Hi. unfold float_of_int.
  assert (0 < 2 ^ lo) by (apply Z.pow_pos_nonneg; lia).
  assert (Hhi0 : 0 ≤ hi).
  { destruct (decide (0 ≤ hi)); [done|]. rewrite (Z.pow_neg_r 2 hi) in Hi by lia. lia. }
  enough (float_at_least (binary_normalize prec emax i 0 false) lo ∧
          float_at_most (binary_normalize prec emax i 0 false) 1 hi) as [Hal Ham].
  { destruct (binary_normalize prec emax i 0 false) as [s|[|]| |[|] ? ?];
      try done; eauto. }
  destruct i as [|p|p]; [lia | | lia].
  unfold binary_normalize, binary_round.
  assert (Hal : ∃ mz ez, shl_align p 0 (fexp prec emax (Z.pos (digits2_pos p) + 0))
                         = (mz, ez) ∧ ez ≤ 0 ∧ Z.pos mz = Z.pos p * 2 ^ (- ez)).
  { unfold shl_align.
    destruct (fexp prec emax (Z.pos (digits2_pos p) + 0) - 0) as [|d|d] eqn:He.
    - exists p, 0. split; [done|]. split; [done|].
      change (- 0) with 0. rewrite Z.pow_0_r. lia.
    - exists p, 0. split; [done|]. split; [done|].
      change (- 0) with 0. rewrite Z.pow_0_r. lia.
    - eexists _, _. split; [done|]. split; [lia|].
      change (PosDef.Pos.iter xO p d) with (shift_pos d p).
      rewrite shift_pos_correct. change (Z.pow_pos 2 d) with (2 ^ Z.pos d).
      replace (- fexp prec emax (Z.pos (digits2_pos p) + 0)) with (Z.pos d) by lia.
      lia. }
  destruct Hal as (mz & ez & -> & Hez & Hmz).
  assert (0 < 2 ^ (- ez)) by (apply Z.pow_pos_nonneg; lia).
  split.
  - apply binary_round_aux_at_least; [done | unfold SpecFloat.emin, prec, emax; lia |].
    apply (pow2_le_at ez); [lia..|]. rewrite Z.sub_diag, Z.pow_0_r, Hmz.
    replace (lo - ez) with (lo + - ez) by lia. rewrite Z.pow_add_r by lia. nia.
  - apply binary_round_aux_at_most; try done;
      try (unfold SpecFloat.emin, prec, emax; lia).
    apply (pow2_le_at ez); [lia..|]. rewrite Z.sub_diag, Z.pow_0_r, Hmz.
    replace (hi - ez) with (hi + - ez) by lia. rewrite Z.pow_add_r by lia. nia.
Qed.

(** [int(x)] for a float between [2^k] and [K * 2^k']. *)
Lemma int_of_float_range f k K k' :
  0 ≤ k → 0 ≤ k' → float_at_least f k → float_at_most f K k' →
  ∃ t, int_of_float f = Ok t ∧ 2 ^ k ≤ t ≤ K * 2 ^ k'.
Proof.
  intros Hk Hk' Hal Ham.
  destruct (float_at_least_finite _ _ _ _ Hal Ham) as (m & e & ->).
  simpl in *. eexists. split; [done|].
  assert (0 < 2 ^ k) by (apply Z.pow_pos_nonneg; lia).
  assert (0 < 2 ^ k') by (apply Z.pow_pos_nonneg; lia).
  destruct e as [|j|j].
  - apply (pow2_le_at 0) in Hal; [|lia..]. apply (pow2_le_at 0) in Ham; [|lia..].
    rewrite !Z.sub_0_r, ?Z.pow_0_r in *. lia.
  - apply (pow2_le_at 0) in Hal; [|lia..]. apply (pow2_le_at 0) in Ham; [|lia..].
    rewrite !Z.sub_0_r in *. lia.
  - apply (pow2_le_at (Z.neg j)) in Hal; [|lia..].
    apply (pow2_le_at (Z.neg j)) in Ham; [|lia..].
    rewrite Z.sub_diag, Z.pow_0_r, Z.mul_1_r in Hal, Ham.
    replace (k - Z.neg j) with (k + Z.pos j) in Hal by lia.
    replace (k' - Z.neg j) with (k' + Z.pos j) in Ham by lia.
    rewrite Z.pow_add_r in Hal, Ham by lia.
    assert (0 < 2 ^ Z.pos j) by (apply Z.pow_pos_nonneg; lia).
    split.
    + apply Z.div_le_lower_bound; lia.
    + apply Z.div_le_upper_bound; lia.
Qed.

(** The product of two positive floats within bounds. *)
Lemma float_mul_range a b ka kb Ka ka' Kb kb' :
  float_at_least a ka → float_at_most a Ka ka' →
  float_at_least b kb → float_at_most b Kb kb' →
  0 < Ka → 0 < Kb → Ka * Kb ≤ 2 ^ 53 →
  -1074 ≤ ka + kb → -1074 ≤ ka' + kb' ≤ 900 →
  float_at_least (float_mul a b) (ka + kb) ∧
  float_at_most (float_mul a b) (Ka * Kb) (ka' + kb').
Proof.
  intros Hal Ham Hbl Hbm HKa HKb HK Hlo Hhi.
  destruct (float_at_least_finite _ _ _ _ Hal Ham) as (ma & ea & ->).
  destruct (float_at_least_finite _ _ _ _ Hbl Hbm) as (mb & eb & ->).
  simpl in *. unfold float_mul, SFmul. simpl xorb.
  set (c := Z.min (Z.min ea eb) (Z.min (Z.min ka kb) (Z.min ka' kb'))).
  apply (pow2_le_scaled (Z.min ea ka)) in Hal; [|lia..].
  apply (pow2_le_scaled (Z.min eb kb)) in Hbl; [|lia..].
  apply (pow2_le_scaled (Z.min ea ka')) in Ham; [|lia..].
  apply (pow2_le_scaled (Z.min eb kb')) in Hbm; [|lia..].
  split.
  - apply binary_round_aux_at_least;
      [done | unfold SpecFloat.emin, prec, emax; lia |].
    apply (pow2_le_at (Z.min ea ka + Z.min eb kb)); [lia..|].
    replace (ka + kb - (Z.min ea ka + Z.min eb kb))
      with ((ka - Z.min ea ka) + (kb - Z.min eb kb)) by lia.
    replace (ea + eb - (Z.min ea ka + Z.min eb kb))
      with ((ea - Z.min ea ka) + (eb - Z.min eb kb)) by lia.
    rewrite !Z.pow_add_r by lia. rewrite Pos2Z.inj_mul.
    assert (0 < 2 ^ (ka - Z.min ea ka)) by (apply Z.pow_pos_nonneg; lia).
    assert (0 < 2 ^ (kb - Z.min eb kb)) by (apply Z.pow_pos_nonneg; lia).
    assert (0 < 2 ^ (ea - Z.min ea ka)) by (apply Z.pow_pos_nonneg; lia).
    assert (0 < 2 ^ (eb - Z.min eb kb)) by (apply Z.pow_pos_nonneg; lia).
    rewrite Z.mul_1_l in *.
    replace (Z.pos ma * Z.pos mb *
             (2 ^ (ea - Z.min ea ka) * 2 ^ (eb - Z.min eb kb)))
      with ((Z.pos ma * 2 ^ (ea - Z.min ea ka)) *
            (Z.pos mb * 2 ^ (eb - Z.min eb kb))) by ring.
    apply Z.mul_le_mono_nonneg; lia.
  - apply binary_round_aux_at_most; try done;
      try (unfold SpecFloat.emin, prec, emax; lia).
    apply (pow2_le_at (Z.min ea ka' + Z.min eb kb')); [lia..|].
    replace (ka' + kb' - (Z.min ea ka' + Z.min eb kb'))
      with ((ka' - Z.min ea ka') + (kb' - Z.min eb kb')) by lia.
    replace (ea + eb - (Z.min ea ka' + Z.min eb kb'))
      with ((ea - Z.min ea ka') + (eb - Z.min eb kb')) by lia.
    rewrite !Z.pow_add_r by lia. rewrite Pos2Z.inj_mul.
    assert (0 < 2 ^ (ka' - Z.min ea ka')) by (apply Z.pow_pos_nonneg; lia).
    assert (0 < 2 ^ (kb' - Z.min eb kb')) by (apply Z.pow_pos_nonneg; lia).
    assert (0 < 2 ^ (ea - Z.min ea ka')) by (apply Z.pow_pos_nonneg; lia).
    assert (0 < 2 ^ (eb - Z.min eb kb')) by (apply Z.pow_pos_nonneg; lia).
    replace (Z.pos ma * Z.pos mb *
             (2 ^ (ea - Z.min ea ka') * 2 ^ (eb - Z.min eb kb')))
      with ((Z.pos ma * 2 ^ (ea - Z.min ea ka')) *
            (Z.pos mb * 2 ^ (eb - Z.min eb kb'))) by ring.
    replace (Ka * Kb * (2 ^ (ka' - Z.min ea ka') * 2 ^ (kb' - Z.min eb kb')))
      with ((Ka * 2 ^ (ka' - Z.min ea ka')) *
            (Kb * 2 ^ (kb' - Z.min eb kb'))) by ring.
    apply Z.mul_le_mono_nonneg; try lia; apply Z.mul_nonneg_nonneg; lia.
Qed.

(** The quotient of two integers of at most 53 bits, the divisor between
    2 and twice the dividend, rounds to a float that is at least [1/2]. *)
Lemma int_truediv_at_least_half (l m : Z) :
  1 ≤ l ≤ 2 ^ 53 → 2 ≤ m ≤ 2 ^ 53 → m ≤ 2 * l →
  float_at_least (SFdiv prec emax (exact_of_int l) (exact_of_int m)) (-1).
Proof.
  intros Hl Hm Hml.
  destruct l as [|pl|pl]; try lia. destruct m as [|pm|pm]; try lia.
  cbv beta iota zeta delta [exact_of_int SFdiv SFdiv_core_binary].
  set (l := Z.pos pl) in *. set (m := Z.pos pm) in *.
  rewrite !Z.add_0_r, !Z.sub_0_r.
  set (d1 := Zdigits2 l). set (d2 := Zdigits2 m).
  set (e' := Z.min (fexp prec emax (d1 - d2)) 0).
  replace (0 - e') with (- e') by lia.
  set (s := - e').
  assert (Hd1 : 2 ^ (d1 - 1) ≤ l < 2 ^ d1) by (apply Zdigits2_bounds; lia).
  assert (Hd2 : 2 ^ (d2 - 1) ≤ m < 2 ^ d2) by (apply Zdigits2_bounds; lia).
  assert (Hd1up : d1 ≤ 54).
  { destruct (decide (d1 ≤ 54)); [done|].
    assert (2 ^ 54 ≤ 2 ^ (d1 - 1)) by (apply Z.pow_le_mono_r; lia). lia. }
  assert (Hd2lo : 2 ≤ d2).
  { destruct (decide (2 ≤ d2)); [done|].
    assert (2 ^ d2 ≤ 2 ^ 1) by (apply Z.pow_le_mono_r; lia).
    change (2 ^ 1) with 2 in *. lia. }
  assert (Hs : 1 ≤ s) by (unfold s, e', fexp, SpecFloat.emin, prec, emax; lia).
  set (m' := match s with Z.pos _ => Z.shiftl l s | 0 => l | Z.neg _ => 0 end).
  assert (Hm' : m' = l * 2 ^ s).
  { unfold m'. destruct s as [|ps|ps] eqn:Hseq; [lia | | lia].
    by rewrite Z.shiftl_mul_pow2. }
  clearbody m'. subst m'.
  assert (H2s : 2 ^ s = 2 * 2 ^ (s - 1)).
  { replace s with (Z.succ (s - 1)) at 1 by lia. rewrite Z.pow_succ_r; lia. }
  assert (0 < 2 ^ (s - 1)) by (apply Z.pow_pos_nonneg; lia).
  pose proof (Z.div_eucl_eq (l * 2 ^ s) m ltac:(lia)) as Heq.
  pose proof (Z.mod_pos_bound (l * 2 ^ s) m ltac:(lia)) as Hr.
  unfold Z.modulo in Hr.
  destruct (Z.div_eucl (l * 2 ^ s) m) as [q r].
  apply binary_round_aux_at_least;
    [done | unfold SpecFloat.emin, prec, emax; lia |].
  apply (pow2_le_at (e' - 1)); [lia | unfold e'; lia |].
  replace (e' - (e' - 1)) with 1 by lia.
  replace (-1 - (e' - 1)) with s by (unfold s; lia).
  change (2 ^ 1) with 2.
  assert (m * 2 ^ s ≤ 2 * (m * q + r)) by nia.
  assert (2 ^ (s - 1) < q + 1) by nia.
  lia.
Qed.

(** The spacing of [spaced_probes] on an interval of at most 53 bits lies
    between [1/2] and half the length of the interval. *)
Lemma int_truediv_spacing (l m : Z) :
  1 ≤ l ≤ 2 ^ 53 → 2 ≤ m ≤ 2 ^ 53 → m ≤ 2 * l →
  ∃ spacing, int_truediv l m = Ok spacing ∧
             float_at_least spacing (-1) ∧ float_at_most spacing l (-1).
Proof.
  intros Hl Hm Hml.
  destruct (int_truediv_at_most_half l m Hl Hm) as (spacing & Hsp & Ham).
  exists spacing. split; [done|]. split; [|done].
  pose proof (int_truediv_at_least_half l m Hl Hm Hml) as Hal.
  unfold int_truediv in Hsp. rewrite decide_False in Hsp by lia.
  destruct (SFdiv prec emax _ _) as [?|?| |? ? ?]; try done; congruence.
Qed.

(** Rounding to the positive side gives no negative number. *)
Lemma binary_round_aux_not_negative mx ex lx :
  not_negative (binary_round_aux prec emax false mx ex lx).
Proof.
  unfold binary_round_aux.
  destruct (shr_fexp prec emax mx ex lx) as [mrs1 e1].
  destruct (shr_fexp prec emax _ e1 loc_Exact) as [mrs2 e2].
  destruct (shr_m mrs2); [done | | done].
  by destruct (e2 <=? emax - prec).
Qed.

Lemma float_of_int_not_negative i f :
  0 ≤ i → float_of_int i = Ok f → not_negative f.
Proof.
  intros Hi. unfold float_of_int.
  assert (not_negative (binary_normalize prec emax i 0 false)) as Hnn.
  { destruct i as [|p|p]; [done | | lia].
    unfold binary_normalize, binary_round.
    destruct (shl_align _ _ _). apply binary_round_aux_not_negative. }
  destruct (binary_normalize prec emax i 0 false); try done; congruence.
Qed.

Lemma int_truediv_not_negative l m f :
  0 ≤ l → 0 < m → int_truediv l m = Ok f → not_negative f.
Proof.
  intros Hl Hm. unfold int_truediv. rewrite decide_False by lia.
  assert (not_negative (SFdiv prec emax (exact_of_int l) (exact_of_int m))) as Hnn.
  { destruct l as [|pl|pl]; [| |lia]; (destruct m as [|pm|pm]; [lia| |lia]);
      [done|].
    unfold exact_of_int, SFdiv. simpl xorb.
    destruct (SFdiv_core_binary _ _ _ _ _ _) as [[mz ez] lz].
    apply binary_round_aux_not_negative. }
  destruct (SFdiv prec emax _ _); try done; congruence.
Qed.

Lemma float_mul_not_negative a b :
  not_negative a → not_negative b → not_negative (float_mul a b).
Proof.
  destruct a as [?|?| |[|] ? ?], b as [?|?| |[|] ? ?]; try done.
  intros _ _. apply binary_round_aux_not_negative.
Qed.

Lemma int_of_float_not_negative f t :
  not_negative f → int_of_float f = Ok t → 0 ≤ t.
Proof.
  destruct f as [?|?| |[|] m e]; simpl; try done.
  - intros _ [= <-]. done.
  - intros _ [= <-].
    destruct e as [|j|j]; [lia | |].
    + pose proof (Z.pow_pos_nonneg 2 (Z.pos j)). lia.
    + apply Z.div_pos; [lia | apply Z.pow_pos_nonneg; lia].
Qed.
(** ** [spaced_probes]: range of the positions, and termination *)

Lemma int_of_float_upper f K k :
  0 ≤ K → 0 ≤ k → float_at_most f K k →
  ∃ t, int_of_float f = Ok t ∧ t ≤ K * 2 ^ k.
Proof.
  intros HK Hk Ham.
  assert (0 < 2 ^ k) by (apply Z.pow_pos_nonneg; lia).
  apply int_of_float_at_most; [nia|].
  destruct f as [?|?| |[|] m e]; try done. simpl in *.
  apply (pow2_le_scaled (Z.min e 0)) in Ham; [|lia..].
  apply (pow2_le_at (Z.min e 0)); [lia..|].
  replace (k - Z.min e 0) with (k + (0 - Z.min e 0)) in Ham by lia.
  rewrite Z.pow_add_r in Ham by lia. lia.
Qed.

Lemma spaced_probes_loop_ge_start fuel start end_ spacing :
  not_negative spacing → ∀ i pos, 0 ≤ i → start ≤ pos →
  Forall (λ p, start ≤ p) (spaced_probes_loop fuel start end_ spacing i pos).1.
Proof.
  intros Hsp. induction fuel as [|fuel IH]; intros i pos Hi Hpos; simpl;
    [constructor|].
  case_decide; [|constructor].
  destruct (float_of_int (i + 1)) as [fi|e] eqn:Hfi; simpl;
    [|by repeat constructor].
  destruct (int_of_float (float_mul fi spacing)) as [k|e] eqn:Hk; simpl;
    [|by repeat constructor].
  constructor; [done|]. apply IH; [lia|].
  assert (0 ≤ k); [|lia].
  eapply int_of_float_not_negative; [|exact Hk].
  apply float_mul_not_negative; [|done].
  eapply float_of_int_not_negative; [|exact Hfi]. lia.
Qed.

Lemma spaced_probes_ge_start (fuel : nat) (start end_ probe_spacing : Z) :
  Forall (λ pos, start ≤ pos) (spaced_probes fuel start end_ probe_spacing).1.
Proof.
  unfold spaced_probes. case_decide; [constructor|].
  destruct (int_truediv _ _) as [spacing|e] eqn:Hsp; [|constructor].
  destruct (decide (start ≤ end_)) as [Hle|Hgt].
  - apply spaced_probes_loop_ge_start; [|lia..].
    eapply int_truediv_not_negative; [| |exact Hsp]; lia.
  - destruct fuel; simpl; [constructor|].
    rewrite decide_False by lia. constructor.
Qed.

(** [spaced_probes] yields positions of the closed interval [start, end]
    only, for every input and however long it runs. *)
Theorem spaced_probes_within (fuel : nat) (start end_ probe_spacing : Z) :
  Forall (λ pos, start ≤ pos ≤ end_)
         (spaced_probes fuel start end_ probe_spacing).1.
Proof.
  apply Forall_and. split.
  - apply spaced_probes_ge_start.
  - apply spaced_probes_le_end.
Qed.

(** If round [N] is reached, and the position computed there lies beyond
    [end], the loop returns after at most [N + 1] tests of its guard. *)
Lemma spaced_probes_loop_returns N start end_ spacing :
  (∀ j, 1 ≤ j ≤ N → ∃ fj kj,
     float_of_int j = Ok fj ∧ int_of_float (float_mul fj spacing) = Ok kj ∧
     (j = N → end_ < start + kj)) →
  ∀ (d : nat) i pos,
    0 ≤ i → i + Z.of_nat d = N → (d = 0%nat → end_ < pos) →
    ∃ out, ∀ fuel, (d < fuel)%nat →
      spaced_probes_loop fuel start end_ spacing i pos = (out, Returned).
Proof.
  intros Hround. induction d as [|d IH]; intros i pos Hi HN Hlast.
  - exists []. intros [|fuel] Hfuel; [lia|]. simpl.
    rewrite decide_False; [done|]. specialize (Hlast eq_refl). lia.
  - destruct (decide (pos ≤ end_)) as [Hpos|Hpos].
    + destruct (Hround (i + 1)) as (fj & kj & Hfj & Hkj & Hend); [lia|].
      destruct (IH (i + 1) (start + kj)) as (out & Hout); [lia | lia | |].
      { intros ->. apply Hend. lia. }
      exists (pos :: out). intros [|fuel] Hfuel; [lia|].
      rewrite (spaced_probes_loop_step fuel start end_ spacing i pos fj kj
                 Hpos Hfj Hkj).
      rewrite Hout by lia. done.
    + exists []. intros [|fuel] Hfuel; [lia|]. simpl.
      by rewrite decide_False.
Qed.

Lemma spaced_probes_terminates (start end_ probe_spacing : Z) :
  0 < end_ - start ≤ 2 ^ 53 → 0 < probe_spacing →
  ∃ out, ∀ fuel, 4 * (end_ - start) + 4 ≤ Z.of_nat fuel →
    spaced_probes fuel start end_ probe_spacing = (out, Returned).
Proof.
  intros Hl Hps.
  set (l := end_ - start) in *.
  assert (Hn : l `div` probe_spacing ≤ l) by (apply Z.div_le_upper_bound; nia).
  destruct (int_truediv_spacing l (Z.max (l `div` probe_spacing) 2))
    as (spacing & Hsp & Hsl & Hsm); [lia..|].
  set (t := Z.log2_up (l + 1) + 1).
  pose proof (Z.log2_up_spec (l + 1) ltac:(lia)) as [Hlo Hup].
  assert (Ht54 : Z.log2_up (l + 1) ≤ 54).
  { apply Z.log2_up_le_pow2; lia. }
  assert (Ht1 : 1 ≤ Z.log2_up (l + 1)).
  { destruct (decide (1 ≤ Z.log2_up (l + 1))); [done|].
    assert (2 ^ Z.log2_up (l + 1) ≤ 2 ^ 0) by (apply Z.pow_le_mono_r; lia).
    change (2 ^ 0) with 1 in *. lia. }
  assert (HN : 2 ^ t = 4 * 2 ^ Z.pred (Z.log2_up (l + 1))).
  { unfold t. replace (Z.log2_up (l + 1) + 1)
      with (2 + Z.pred (Z.log2_up (l + 1))) by lia.
    rewrite Z.pow_add_r by lia. done. }
  assert (Ht' : 2 ^ (t - 1) = 2 ^ Z.log2_up (l + 1)) by (f_equal; unfold t; lia).
  destruct (spaced_probes_loop_returns (2 ^ t) start end_ spacing)
    with (d := Z.to_nat (2 ^ t)) (i := 0) (pos := start) as (out & Hout).
  - intros j Hj.
    destruct (decide (j = 2 ^ t)) as [->|Hne].
    + destruct (float_of_int_range (2 ^ t) t t) as (fj & Hfj & Hjl & Hjm);
        [unfold t; lia.. |].
      destruct (float_mul_range fj spacing t (-1) 1 t l (-1))
        as [Hpl Hpm]; [done.. | lia | lia | lia | unfold t; lia | unfold t; lia |].
      destruct (int_of_float_range (float_mul fj spacing) (t + -1) (1 * l) (t + -1))
        as (kj & Hkj & Hkl & _); [unfold t; lia.. | done | done |].
      exists fj, kj. split; [done|]. split; [done|]. intros _.
      replace (t + -1) with (t - 1) in Hkl by lia. unfold l in *. lia.
    + destruct (float_of_int_range j 0 t) as (fj & Hfj & Hjl & Hjm);
        [lia | unfold t; lia | change (2 ^ 0) with 1; lia |].
      destruct (float_mul_range fj spacing 0 (-1) 1 t l (-1))
        as [Hpl Hpm]; [done.. | lia | lia | lia | lia | unfold t; lia |].
      destruct (int_of_float_upper (float_mul fj spacing) (1 * l) (t + -1))
        as (kj & Hkj & _); [lia | unfold t; lia | done |].
      exists fj, kj. split; [done|]. split; [done|]. intros ?. done.
  - done.
  - pose proof (Z.pow_pos_nonneg 2 t). lia.
  - intros Hd. pose proof (Z.pow_pos_nonneg 2 t). unfold t in *. lia.
  - exists out. intros fuel Hfuel. unfold spaced_probes.
    rewrite decide_False by lia. fold l. rewrite Hsp. apply Hout. lia.
Qed.

(** [spaced_probes] terminates on every interval with [start < end] (of at
    most 53 bits) and every positive spacing: after at most
    [4 * (end - start) + 4] tests of the loop guard the generator has
    returned. *)
Theorem spaced_probes_returns (start end_ probe_spacing : Z) :
  0 < end_ - start ≤ 2 ^ 53 → 0 < probe_spacing →
  ∃ out, ∀ fuel, 4 * (end_ - start) + 4 ≤ Z.of_nat fuel →
    spaced_probes fuel start end_ probe_spacing = (out, Returned).
Proof. apply spaced_probes_terminates. Qed.

Lemma spaced_probes_returns_witness :
  ∃ out, ∀ fuel, 4 * (10 - 0) + 4 ≤ Z.of_nat fuel →
    spaced_probes fuel 0 10 3 = (out, Returned).
Proof. apply (spaced_probes_returns 0 10 3); lia. Defined.

Lemma binary_round_aux_opp mx ex lx :
  binary_round_aux prec emax true mx ex lx
  = SFopp (binary_round_aux prec emax false mx ex lx).
Proof.
  unfold binary_round_aux.
  destruct (shr_fexp prec emax mx ex lx) as [mrs1 e1].
  destruct (shr_fexp prec emax _ e1 loc_Exact) as [mrs2 e2].
  destruct (shr_m mrs2); [done | | done].
  by destruct (e2 <=? emax - prec).
Qed.

(** The spacing of a reversed interval is the negated spacing of the
    interval. *)
Lemma int_truediv_opp (l m : Z) (spacing : float) :
  0 < l → 0 < m → int_truediv l m = Ok spacing →
  int_truediv (- l) m = Ok (SFopp spacing).
Proof.
  intros Hl Hm. unfold int_truediv. rewrite !decide_False by lia.
  destruct l as [|pl|pl]; try lia. destruct m as [|pm|pm]; try lia.
  change (- Z.pos pl) with (Z.neg pl).
  unfold exact_of_int, SFdiv. simpl xorb.
  destruct (SFdiv_core_binary _ _ _ _ _ _) as [[mz ez] lz].
  rewrite binary_round_aux_opp.
  destruct (binary_round_aux prec emax false mz ez lz); simpl; intros H;
    try done; by injection H as <-.
Qed.

(** On a reversed interval, [end < start], [spaced_probes] yields nothing:
    the guard [pos <= end] fails at once. *)
Theorem spaced_probes_reversed_interval
    (fuel : nat) (start end_ probe_spacing : Z) :
  0 < start - end_ ≤ 2 ^ 53 → 0 < probe_spacing → (1 ≤ fuel)%nat →
  spaced_probes fuel start end_ probe_spacing = ([], Returned).
Proof.
  intros Hl Hps Hfuel. unfold spaced_probes. rewrite decide_False by lia.
  set (l := start - end_) in *.
  replace (end_ - start) with (- l) by (unfold l; lia).
  assert (Hm : Z.max ((- l) `div` probe_spacing) 2 = 2).
  { assert ((- l) `div` probe_spacing < 0)
      by (apply Z.div_lt_upper_bound; lia).
    lia. }
  rewrite Hm.
  destruct (int_truediv_at_most_half l 2) as (spacing & Hsp & _); [lia..|].
  rewrite (int_truediv_opp l 2 spacing) by (done || lia).
  destruct fuel; [lia|]. simpl. rewrite decide_False; [done | unfold l in *; lia].
Qed.

Lemma spaced_probes_reversed_interval_witness :
  spaced_probes 1 5200 99 2000 = ([], Returned).
Proof. apply (spaced_probes_reversed_interval 1 5200 99 2000); lia. Defined.
(** ** [bin_coverages] *)

(** A sum of floats does not raise. *)
Lemma py_sum_from_float values : ∀ t,
  ∃ s, py_sum_from (VFloat t) values = Ok (VFloat s).
Proof.
  induction values as [|x rest IH]; intros t; simpl; [eauto|]. apply IH.
Qed.

Lemma py_sum_from_zero values :
  values ≠ [] → ∃ s, py_sum_from (VInt 0) values = Ok (VFloat s).
Proof.
  destruct values as [|x rest]; [done|]. intros _. simpl.
  apply py_sum_from_float.
Qed.

(** The mean of between 1 and [2^53] coverage values is a float. *)
Lemma bin_mean_ok (records : list CoverageRecord) :
  records ≠ [] → Z.of_nat (length records) ≤ 2 ^ 53 →
  ∃ c, bin_mean records = Ok c.
Proof.
  intros Hne Hlen. unfold bin_mean.
  destruct (py_sum_from_zero (coverage <$> records)) as (s & ->).
  { by destruct records. }
  assert (1 ≤ Z.of_nat (length records)) by (destruct records; [done | simpl; lia]).
  destruct (float_of_int_range (Z.of_nat (length records)) 0 53)
    as (g & Hg & Hgl & Hgm); [lia | lia | change (2 ^ 0) with 1; lia |].
  destruct (float_at_least_finite _ _ _ _ Hgl Hgm) as (m & e & ->).
  simpl. rewrite Hg. simpl. eauto.
Qed.

Lemma slice_index_inside {A} (l : list A) (k : Z) :
  0 ≤ k → slice_index l k = Z.to_nat (Z.min k (Z.of_nat (length l))).
Proof. intros Hk. unfold slice_index. by rewrite decide_False by lia. Qed.

(** The slice [l[i:i+n]] for an index inside the list and a positive
    [n]. *)
Lemma py_slice_chunk {A} (l : list A) (i n : Z) :
  0 ≤ i < Z.of_nat (length l) → 0 < n →
  py_slice l i (i + n)
  = take (Z.to_nat (Z.min (i + n) (Z.of_nat (length l)) - i))
         (drop (Z.to_nat i) l).
Proof.
  intros Hi Hn. unfold py_slice.
  rewrite !slice_index_inside by lia. f_equal; [lia|]. f_equal. lia.
Qed.

(** One bin: it is computed without error, carries [chrom], starts where
    the record at [i] starts and ends where the last record before
    [i + n] ends. *)
Lemma bin_at_spec chrom (coverages : list CoverageRecord) (n i : Z) :
  0 ≤ i < Z.of_nat (length coverages) → 0 < n ≤ 2 ^ 53 →
  ∃ bin, bin_at chrom coverages n i = Ok bin ∧ cr_chrom bin = chrom ∧
    cr_start <$> coverages !! Z.to_nat i = Some (cr_start bin) ∧
    cr_end <$> coverages !!
      Z.to_nat (Z.min (i + n) (Z.of_nat (length coverages)) - 1)
      = Some (cr_end bin).
Proof.
  intros Hi Hn. unfold bin_at. rewrite py_slice_chunk by lia.
  set (len := Z.of_nat (length coverages)) in *.
  set (k := Z.to_nat (Z.min (i + n) len - i)).
  set (records := take k (drop (Z.to_nat i) coverages)).
  assert (Hlen : length records = k).
  { unfold records. rewrite length_take, length_drop. unfold k, len. lia. }
  assert (Hk : (1 ≤ k)%nat) by (unfold k; lia).
  destruct (bin_mean_ok records) as (c & ->).
  { intros Hnil. rewrite Hnil in Hlen. simpl in Hlen. lia. }
  { rewrite Hlen. unfold k. lia. }
  simpl.
  destruct (lookup_lt_is_Some_2 coverages (Z.to_nat i)) as [first Hfirst];
    [unfold len in *; lia|].
  destruct (lookup_lt_is_Some_2 coverages (Z.to_nat (Z.min (i + n) len - 1)))
    as [lst Hlst]; [unfold len in *; lia|].
  assert (H0 : records !! 0%nat = Some first).
  { unfold records. rewrite lookup_take_lt by lia. rewrite lookup_drop.
    by rewrite Nat.add_0_r. }
  assert (Hl : last records = Some lst).
  { rewrite last_lookup, Hlen. unfold records.
    rewrite lookup_take_lt by lia. rewrite lookup_drop. rewrite <- Hlst.
    f_equal. unfold k. lia. }
  unfold item, item_last. rewrite H0, Hl. simpl.
  eexists. split; [done|]. simpl. by rewrite Hfirst, Hlst.
Qed.

Lemma bin_loop_spec chrom (coverages : list CoverageRecord) (n : Z) :
  0 < n ≤ 2 ^ 53 → ∀ indices,
  Forall (λ i, 0 ≤ i < Z.of_nat (length coverages)) indices →
  ∃ out, bin_loop chrom coverages n indices = (out, Returned) ∧
    Forall2 (λ i bin, bin_at chrom coverages n i = Ok bin) indices out.
Proof.
  intros Hn. induction indices as [|i rest IH]; intros Hall; simpl.
  - exists []. by split.
  - inversion Hall as [|? ? Hi Hrest]; subst.
    destruct (bin_at_spec chrom coverages n i Hi Hn) as (bin & Hbin & _).
    destruct (IH Hrest) as (out & Hout & Hall2).
    rewrite Hbin, Hout. simpl. exists (bin :: out). split; [done|].
    by constructor.
Qed.

(** The bins of a non-empty list, for a positive [n]: there are
    [ceil(len / n)] of them, and bin [j] is the bin of index [j * n]. *)
Lemma bin_coverages_spec (coverages : list CoverageRecord) (n : Z) first :
  head coverages = Some first → 0 < n ≤ 2 ^ 53 →
  ∃ out, bin_coverages coverages n = (out, Returned) ∧
    Z.of_nat (length out) = (Z.of_nat (length coverages) + n - 1) `div` n ∧
    ∀ (j : nat) bin, out !! j = Some bin →
      Z.of_nat j * n < Z.of_nat (length coverages) ∧
      bin_at (cr_chrom first) coverages n (Z.of_nat j * n) = Ok bin.
Proof.
  intros Hfirst Hn. unfold bin_coverages, item.
  rewrite <- head_lookup, Hfirst. unfold py_range_step.
  rewrite decide_False by lia. rewrite decide_True by lia.
  set (len := Z.of_nat (length coverages)).
  assert (Hlen : 1 ≤ len) by (unfold len; destruct coverages; [done | simpl; lia]).
  rewrite Z.sub_0_r.
  set (count := (len + n - 1) `div` n).
  assert (Hcount : ∀ j, 0 ≤ j < count → j * n < len).
  { intros j Hj. unfold count in Hj.
    assert (j + 1 ≤ (len + n - 1) `div` n) as Hj' by lia.
    pose proof (Z.mul_div_le (len + n - 1) n ltac:(lia)). nia. }
  assert (Hcount0 : 0 ≤ count) by (apply Z.div_pos; lia).
  destruct (bin_loop_spec (cr_chrom first) coverages n Hn
              ((λ k, 0 + k * n) <$> seqZ 0 count)) as (out & -> & Hall).
  { apply Forall_fmap, Forall_forall. intros j Hj%elem_of_seqZ. simpl.
    specialize (Hcount j ltac:(lia)). nia. }
  exists out. split; [done|].
  pose proof (Forall2_length _ _ _ Hall) as Hl.
  rewrite length_fmap, length_seqZ in Hl.
  split; [unfold count in *; lia|].
  intros j bin Hj.
  assert (Hjc : Z.of_nat j < count).
  { apply lookup_lt_Some in Hj. lia. }
  split; [apply Hcount; lia|].
  eapply Forall2_lookup_r in Hall as (i & Hi & Hbin); [|exact Hj].
  rewrite list_lookup_fmap, lookup_seqZ_lt in Hi by lia.
  simpl in Hi. injection Hi as <-.
  replace (Z.of_nat j * n) with (0 + (0 + Z.of_nat j) * n) by lia. done.
Qed.
(** ** [group_by_chromosome] and [bin_coverages]: the theorems *)

(** [group_by_chromosome] loses nothing and keeps the order: the groups,
    one after the other, are the input. *)
Theorem group_by_chromosome_concat (records : list CoverageRecord) :
  concat (snd <$> group_by_chromosome records) = records.
Proof. apply group_loop_concat. Qed.

(** The groups [group_by_chromosome] yields are the maximal runs of the
    input: no group is empty, the key of a group is the chromosome of each
    of its records, and two consecutive groups have different keys. *)
Theorem group_by_chromosome_runs (records : list CoverageRecord) :
  let groups := group_by_chromosome records in
  Forall (λ g, g.2 ≠ [] ∧
               ∃ c, g.1 = Some c ∧ Forall (λ r, cr_chrom r = c) g.2) groups ∧
  (∀ i g g', groups !! i = Some g → groups !! S i = Some g' → g.1 ≠ g'.1).
Proof.
  destruct (group_loop_runs records None []) as (Hall & _ & Hadj); [done|].
  by split.
Qed.

(** [bin_coverages] on a non-empty list and a bin size [0 < n <= 2^53]
    returns [ceil(len / n)] bins; bin [j] carries the chromosome of the
    first record of the whole list, starts where record [j * n] starts and
    ends where the last record before index [(j + 1) * n] ends. *)
Theorem bin_coverages_bins (coverages : list CoverageRecord) (n : Z)
    (first : CoverageRecord) :
  head coverages = Some first → 0 < n ≤ 2 ^ 53 →
  ∃ out, bin_coverages coverages n = (out, Returned) ∧
    Z.of_nat (length out) = (Z.of_nat (length coverages) + n - 1) `div` n ∧
    ∀ (j : nat) bin, out !! j = Some bin →
      cr_chrom bin = cr_chrom first ∧
      cr_start <$> coverages !! Z.to_nat (Z.of_nat j * n)
        = Some (cr_start bin) ∧
      cr_end <$> coverages !!
        Z.to_nat (Z.min ((Z.of_nat j + 1) * n) (Z.of_nat (length coverages)) - 1)
        = Some (cr_end bin).
Proof.
  intros Hfirst Hn.
  destruct (bin_coverages_spec coverages n first Hfirst Hn)
    as (out & Hout & Hlen & Hbins).
  exists out. split; [done|]. split; [done|].
  intros j bin Hj. destruct (Hbins j bin Hj) as [Hlt Hbin].
  destruct (bin_at_spec (cr_chrom first) coverages n (Z.of_nat j * n))
    as (bin' & Hbin' & Hc & Hs & He); [lia | done |].
  assert (bin' = bin) as -> by congruence.
  split; [done|]. split; [done|].
  rewrite <- He. do 3 f_equal. lia.
Qed.

Lemma bin_coverages_bins_witness :
  ∃ out, bin_coverages [sample_record 0; sample_record 100; sample_record 200] 2
         = (out, Returned) ∧
    Z.of_nat (length out) = (Z.of_nat 3 + 2 - 1) `div` 2 ∧
    ∀ (j : nat) bin, out !! j = Some bin →
      cr_chrom bin = cr_chrom (sample_record 0) ∧
      cr_start <$> [sample_record 0; sample_record 100; sample_record 200]
                     !! Z.to_nat (Z.of_nat j * 2)
        = Some (cr_start bin) ∧
      cr_end <$> [sample_record 0; sample_record 100; sample_record 200] !!
        Z.to_nat (Z.min ((Z.of_nat j + 1) * 2) (Z.of_nat 3) - 1)
        = Some (cr_end bin).
Proof.
  apply (bin_coverages_bins
           [sample_record 0; sample_record 100; sample_record 200] 2
           (sample_record 0)); [reflexivity | lia].
Defined.

(** Binning keeps a tiling: if consecutive records abut, consecutive bins
    abut, the first bin starts where the first record starts and the last
    bin ends where the last record ends. *)
Theorem bin_coverages_abutting (coverages : list CoverageRecord) (n : Z) :
  coverages ≠ [] → 0 < n ≤ 2 ^ 53 → abutting coverages →
  ∃ out, bin_coverages coverages n = (out, Returned) ∧ abutting out ∧
    cr_start <$> head out = cr_start <$> head coverages ∧
    cr_end <$> last out = cr_end <$> last coverages.
Proof.
  intros Hne Hn Habut.
  destruct coverages as [|first rest] eqn:Hcov; [done|]. rewrite <- Hcov in *.
  assert (Hfirst : head coverages = Some first) by by rewrite Hcov.
  destruct (bin_coverages_spec coverages n first Hfirst Hn)
    as (out & Hout & Hlen & Hbins).
  set (len := Z.of_nat (length coverages)) in *.
  assert (Hlen1 : 1 ≤ len) by (unfold len; rewrite Hcov; simpl; lia).
  assert (Hspec : ∀ (j : nat) bin, out !! j = Some bin →
            Z.of_nat j * n < len ∧
            cr_start <$> coverages !! Z.to_nat (Z.of_nat j * n)
              = Some (cr_start bin) ∧
            cr_end <$> coverages !!
              Z.to_nat (Z.min (Z.of_nat j * n + n) len - 1)
              = Some (cr_end bin)).
  { intros j bin Hj. destruct (Hbins j bin Hj) as [Hlt Hbin].
    destruct (bin_at_spec (cr_chrom first) coverages n (Z.of_nat j * n))
      as (bin' & Hbin' & Hc & Hs & He); [lia | done |].
    assert (bin' = bin) as -> by congruence. done. }
  exists out. split; [done|]. split; [|split].
  - intros j b b' Hj Hj'.
    destruct (Hspec j b Hj) as (_ & _ & He).
    destruct (Hspec (S j) b' Hj') as (Hlt & Hs & _).
    rewrite Z.min_l in He by lia.
    destruct (coverages !! Z.to_nat (Z.of_nat j * n + n - 1)) as [r|] eqn:Hr;
      [|done].
    destruct (coverages !! Z.to_nat (Z.of_nat (S j) * n)) as [r'|] eqn:Hr';
      [|done].
    simpl in He, Hs. injection He as <-. injection Hs as <-.
    apply (Habut (Z.to_nat (Z.of_nat j * n + n - 1))); [done|].
    rewrite <- Hr'. f_equal. lia.
  - assert (Hout1 : (1 ≤ length out)%nat).
    { assert (1 ≤ (len + n - 1) `div` n); [|lia].
      apply Z.div_le_lower_bound; lia. }
    destruct out as [|b0 out']; [simpl in Hout1; lia|].
    destruct (Hspec 0%nat b0 eq_refl) as (_ & Hs & _).
    simpl. rewrite Hfirst. simpl.
    rewrite Hcov in Hs. simpl in Hs. by injection Hs as <-.
  - assert (Hcount : Z.of_nat (length out) = (len + n - 1) `div` n) by done.
    assert (Hout1 : 1 ≤ Z.of_nat (length out)).
    { rewrite Hcount. apply Z.div_le_lower_bound; lia. }
    rewrite !last_lookup.
    destruct (lookup_lt_is_Some_2 out (pred (length out))) as [b Hb]; [lia|].
    destruct (Hspec _ _ Hb) as (Hlt & _ & He). rewrite Hb. simpl.
    rewrite <- He. do 2 f_equal.
    assert (len ≤ Z.of_nat (pred (length out)) * n + n); [|unfold len in *; lia].
    replace (Z.of_nat (pred (length out))) with (Z.of_nat (length out) - 1) by lia.
    rewrite Hcount.
    pose proof (Z.mod_pos_bound (len + n - 1) n ltac:(lia)).
    pose proof (Z.div_mod (len + n - 1) n ltac:(lia)). nia.
Qed.

Lemma bin_coverages_abutting_witness :
  ∃ out, bin_coverages [sample_record 0; sample_record 100; sample_record 200] 2
         = (out, Returned) ∧ abutting out ∧
    cr_start <$> head out
      = cr_start <$> head [sample_record 0; sample_record 100; sample_record 200] ∧
    cr_end <$> last out
      = cr_end <$> last [sample_record 0; sample_record 100; sample_record 200].
Proof.
  apply (bin_coverages_abutting
           [sample_record 0; sample_record 100; sample_record 200] 2).
  - discriminate.
  - lia.
  - intros [|[|[|i]]] r r' Hr Hr'; simpl in *; try discriminate;
      injection Hr as <-; injection Hr' as <-; reflexivity.
Defined.

(** The edge cases of [bin_coverages]: on the empty list it raises
    [IndexError] (from [coverages[0]]) whatever [n]; on a non-empty list
    [n = 0] raises [ValueError] (from [range]) and a negative [n] yields
    nothing. *)
Theorem bin_coverages_edge_cases (first : CoverageRecord)
    (rest : list CoverageRecord) (n : Z) (p : positive) :
  bin_coverages [] n = ([], Raised IndexError) ∧
  bin_coverages (first :: rest) 0 = ([], Raised ValueError) ∧
  bin_coverages (first :: rest) (Z.neg p) = ([], Returned).
Proof.
  split; [done|]. split; [done|].
  unfold bin_coverages, py_range_step. simpl item.
  rewrite decide_False by lia. rewrite decide_False by lia.
  set (len := Z.of_nat (length (first :: rest))).
  assert (0 < len) by (unfold len; simpl; lia).
  assert ((0 - len - Z.neg p - 1) `div` (- Z.neg p) ≤ 0) as Hc.
  { assert ((0 - len - Z.neg p - 1) `div` (- Z.neg p) < 1); [|lia].
    apply Z.div_lt_upper_bound; lia. }
  rewrite seqZ_nil by done. done.
Qed.

(** In [add_coverage_probes] the [IndexError] cannot occur:
    [group_by_chromosome] yields no empty group, so [bin_coverages] returns
    on every group (for [0 < n <= 2^53]), and every bin carries the
    chromosome that is the key of its group. *)
Theorem bin_coverages_of_groups (records : list CoverageRecord) (n : Z)
    (key : option string) (group : list CoverageRecord) :
  0 < n ≤ 2 ^ 53 → (key, group) ∈ group_by_chromosome records →
  ∃ out, bin_coverages group n = (out, Returned) ∧ out ≠ [] ∧
         Forall (λ bin, key = Some (cr_chrom bin)) out.
Proof.
  intros Hn Hin.
  destruct (group_loop_runs records None []) as (Hall & _ & _); [done|].
  rewrite Forall_forall in Hall.
  destruct (Hall _ Hin) as (Hne & c & Hkey & Hc). simpl in *.
  destruct group as [|first rest] eqn:Hg; [done|]. rewrite <- Hg in *.
  assert (Hfirst : head group = Some first) by by rewrite Hg.
  destruct (bin_coverages_spec group n first Hfirst Hn)
    as (out & Hout & Hlen & Hbins).
  exists out. split; [done|]. split.
  - intros ->. simpl in Hlen.
    assert (1 ≤ (Z.of_nat (length group) + n - 1) `div` n); [|lia].
    apply Z.div_le_lower_bound; [lia|]. rewrite Hg. simpl. lia.
  - apply Forall_forall. intros bin Hbin.
    apply list_elem_of_lookup in Hbin as [j Hj].
    destruct (Hbins j bin Hj) as [Hlt Hbin].
    destruct (bin_at_spec (cr_chrom first) group n (Z.of_nat j * n))
      as (bin' & Hbin' & Hcb & _); [lia | done |].
    assert (bin' = bin) as -> by congruence.
    rewrite Hkey, Hcb. f_equal.
    rewrite Hg in Hc. by apply Forall_cons in Hc as [-> _].
Qed.

Lemma bin_coverages_of_groups_witness :
  ∃ out, bin_coverages [sample_record 0; sample_record 100] 20
         = (out, Returned) ∧ out ≠ [] ∧
         Forall (λ bin, Some "1" = Some (cr_chrom bin)) out.
Proof.
  apply (bin_coverages_of_groups [sample_record 0; sample_record 100] 20
           (Some "1") [sample_record 0; sample_record 100]); [lia|].
  vm_compute. left.
Defined.
(** ** [merge_intervals]: order of the input, reversed intervals *)

Lemma never_open_le a es : never_open a es → a ≤ 0.
Proof. destruct es; simpl; tauto. Qed.

Lemma never_open_mono es : ∀ a a', a' ≤ a → never_open a es → never_open a' es.
Proof.
  induction es as [|[q [|]] es IH]; intros a a' Hle [Ha Hes]; simpl;
    (split; [lia|]); [done | |]; eapply IH; try exact Hes; lia.
Qed.

Lemma never_open_merge_sweep es : ∀ a st,
  never_open a es → merge_sweep a st es = [].
Proof.
  induction es as [|[q [|]] es IH]; intros a st [Ha Hes]; simpl; [done | |].
  - by apply IH.
  - destruct (Z.eqb_spec (a - 1) 0); [lia|]. by apply IH.
Qed.

Lemma never_open_insert_start es : ∀ a s,
  never_open a es → never_open (a - 1) (insert_event (s, START) es).
Proof.
  induction es as [|[r k] es IH]; intros a s [Ha Hes].
  - simpl. replace (a - 1 + 1) with a by lia. repeat split; lia.
  - simpl insert_event. case_decide.
    + simpl. split; [lia|]. replace (a - 1 + 1) with a by lia. by split.
    + destruct k; simpl; (split; [lia|]).
      * replace (a - 1 + 1) with (a + 1 - 1) by lia. by apply IH.
      * by apply IH.
Qed.

Lemma never_open_stop a q es :
  a ≤ 0 → never_open (a - 1) es → never_open a ((q, STOP) :: es).
Proof. by split. Qed.

Lemma never_open_start a q es :
  a ≤ 0 → never_open (a + 1) es → never_open a ((q, START) :: es).
Proof. by split. Qed.

Lemma never_open_insert_reversed es : ∀ a s e,
  e < s → never_open a es →
  never_open a (insert_event (s, START) (insert_event (e, STOP) es)).
Proof.
  induction es as [|[r k] es IH]; intros a s e Hes Hno.
  - pose proof (never_open_le _ _ Hno). simpl.
    rewrite decide_False.
    2:{ rewrite sweep_event_le_spec. simpl. lia. }
    simpl. replace (a - 1 + 1) with a by lia. repeat split; lia.
  - pose proof (never_open_le _ _ Hno) as Ha.
    simpl insert_event at 2. case_decide as Hy.
    + change (insert_event (s, START) ((e, STOP) :: (r, k) :: es))
        with (if decide (sweep_event_le (s, START) (e, STOP))
              then (s, START) :: (e, STOP) :: (r, k) :: es
              else (e, STOP) :: insert_event (s, START) ((r, k) :: es)).
      rewrite decide_False.
      2:{ rewrite sweep_event_le_spec. simpl. lia. }
      apply never_open_stop; [done|]. by apply never_open_insert_start.
    + change (insert_event (s, START) ((r, k) :: insert_event (e, STOP) es))
        with (if decide (sweep_event_le (s, START) (r, k))
              then (s, START) :: (r, k) :: insert_event (e, STOP) es
              else (r, k) :: insert_event (s, START) (insert_event (e, STOP) es)).
      rewrite decide_False.
      2:{ rewrite sweep_event_le_spec in Hy |- *. simpl in *.
          destruct k; intuition (try lia; try discriminate). }
      destruct Hno as [_ Hno].
      destruct k; [apply never_open_start | apply never_open_stop];
        try done; by apply IH.
Qed.

Lemma never_open_interval_events X :
  Forall (λ i : interval, i.2 < i.1) X →
  never_open 0 (merge_sort sweep_event_le (interval_events X)).
Proof.
  induction 1 as [|i X Hse _ IH]; [by split|].
  rewrite merge_sort_interval_events_cons.
  by apply never_open_insert_reversed.
Qed.

(** [merge_intervals] does not depend on the order of its input: two
    lists with the same intervals, in any order, merge to the same
    intervals. *)
Theorem merge_intervals_permutation (X Y : list interval) :
  X ≡ₚ Y → merge_intervals (Collection X) = merge_intervals (Collection Y).
Proof.
  intros HXY. unfold merge_intervals. simpl. f_equal.
  apply (Sorted_unique sweep_event_le).
  - apply Sorted_merge_sort, _.
  - apply Sorted_merge_sort, _.
  - rewrite !merge_sort_Permutation. by rewrite HXY.
Qed.

Lemma merge_intervals_permutation_witness :
  merge_intervals (Collection [(3, 8); (0, 5); (10, 12)])
  = merge_intervals (Collection [(0, 5); (3, 8); (10, 12)]).
Proof.
  apply (merge_intervals_permutation
           [(3, 8); (0, 5); (10, 12)] [(0, 5); (3, 8); (10, 12)]).
  apply perm_swap.
Defined.

(** Reversed intervals vanish: when every interval of the input has its
    end before its start, every STOP event sorts before its START event,
    the counter [active] never reaches 1, and [merge_intervals] yields
    nothing. *)
Theorem merge_intervals_reversed (X : list interval) :
  Forall (λ i : interval, i.2 < i.1) X →
  merge_intervals (Collection X) = [].
Proof.
  intros HX. unfold merge_intervals. simpl.
  apply never_open_merge_sweep.
  by apply never_open_interval_events.
Qed.

Lemma merge_intervals_reversed_witness :
  merge_intervals (Collection [(5200, 100); (9000, 7000)]) = [].
Proof.
  apply (merge_intervals_reversed [(5200, 100); (9000, 7000)]).
  repeat constructor.
Defined.

(** ** [complement_intervals]: an involution *)

Lemma complement_from_twice (L : Z) (M : list interval) : ∀ a b,
  a < b → b ≤ L → gapped_from b M →
  Forall (λ i : interval, i.1 < i.2 ∧ i.2 ≤ L) M →
  complement_from a (complement_from b M L) L = (a, b) :: M.
Proof.
  induction M as [|[a' b'] M IH]; intros a b Hab HbL Hgap Hall; simpl.
  - case_decide as Hb; simpl.
    + rewrite decide_True by lia. simpl. by rewrite decide_False by lia.
    + rewrite decide_True by lia. f_equal. f_equal. lia.
  - destruct Hgap as (Hba & _ & Hgap).
    apply Forall_cons in Hall as [[Hab' Hb'L] Hall]. simpl in *.
    rewrite decide_True by lia. simpl.
    rewrite decide_True by lia. simpl. f_equal.
    by apply IH.
Qed.

(** [complement_intervals] is an involution on its own range: for
    non-empty intervals inside [[0, L]] that are sorted with a gap between
    consecutive intervals, complementing twice gives the intervals back. *)
Theorem complement_intervals_involution (M : list interval) (L : Z) :
  sorted_with_gaps M → Forall (inside L) M →
  Forall (λ i : interval, i.1 < i.2) M →
  complement_intervals (complement_intervals M L) L = M.
Proof.
  intros Hs Hin Hne. unfold complement_intervals.
  destruct M as [|[a b] M]; simpl.
  - case_decide; simpl; by rewrite decide_False by lia.
  - destruct Hs as [_ Hgap].
    apply Forall_cons in Hin as [(Ha & _ & HbL) Hin].
    apply Forall_cons in Hne as [Hab Hne]. simpl in *.
    assert (Hall : Forall (λ i : interval, i.1 < i.2 ∧ i.2 ≤ L) M).
    { apply Forall_and. split; [done|].
      eapply Forall_impl; [exact Hin|]. intros i (? & ? & ?). done. }
    case_decide as H0; simpl.
    + by apply complement_from_twice.
    + assert (a = 0) as -> by lia. by apply complement_from_twice.
Qed.

Lemma complement_intervals_involution_witness :
  complement_intervals (complement_intervals [(0, 1); (3, 4); (18, 20)] 20) 20
  = [(0, 1); (3, 4); (18, 20)].
Proof.
  apply (complement_intervals_involution [(0, 1); (3, 4); (18, 20)] 20).
  - simpl. lia.
  - repeat constructor; simpl; lia.
  - repeat constructor; simpl; lia.
Defined.
(** ** [subtract_intervals]: order of the output, and when it raises *)

Lemma subtract_sweep_sorted es : ∀ inside,
  StronglySorted sub_le es →
  StronglySorted (λ r r', cr_start r ≤ cr_start r') (subtract_sweep inside es).
Proof.
  induction es as [|e es IH]; intros inside Hs; simpl; [constructor|].
  apply StronglySorted_inv in Hs as [Hs Hall].
  destruct e as [r|p|p]; [|by apply IH..].
  destruct inside; [by apply IH|].
  constructor; [by apply IH|].
  apply Forall_forall. intros r' Hr'%subtract_sweep_elem.
  rewrite Forall_forall in Hall. specialize (Hall _ Hr').
  unfold sub_le in Hall. simpl in Hall. lia.
Qed.

Lemma subtract_sweep_sublist es : ∀ inside,
  cr_start <$> subtract_sweep inside es `sublist_of` omap rec_position es.
Proof.
  induction es as [|[r|p|p] es IH]; intros inside; simpl; [done | | done..].
  destruct inside; csimpl.
  - by apply sublist_cons.
  - by apply sublist_skip.
Qed.

Lemma sorted_NoDup_strict (out : list CoverageRecord) :
  StronglySorted (λ r r', cr_start r ≤ cr_start r') out →
  NoDup (cr_start <$> out) →
  StronglySorted (λ r r', cr_start r < cr_start r') out.
Proof.
  induction 1 as [|r out Hs IH Hall]; intros Hnd; [constructor|].
  csimpl in Hnd. apply NoDup_cons in Hnd as [Hnotin Hnd].
  constructor; [by apply IH|].
  apply Forall_forall. intros r' Hr'.
  rewrite Forall_forall in Hall. specialize (Hall _ Hr').
  destruct (decide (cr_start r = cr_start r')) as [Heq|]; [|lia].
  exfalso. apply Hnotin. rewrite Heq. apply list_elem_of_fmap. by exists r'.
Qed.

(** With nothing between them, the sweep yields every record. *)
Lemma subtract_sweep_records es :
  Forall (λ e, sub_rank e = 2) es →
  EvRec <$> subtract_sweep false es = es.
Proof.
  induction 1 as [|[r|p|p] es He _ IH]; csimpl in *; try done.
  by rewrite IH.
Qed.

Lemma omap_event_record_fmap (records : list CoverageRecord) :
  omap event_record (EvRec <$> records) = records.
Proof. induction records as [|r rs IH]; [done|]. csimpl. by rewrite IH. Qed.

(** [subtract_intervals] sorts: for records with distinct starts it
    returns records of its input, each at most once, in strictly
    increasing order of their starts, whatever the order of the input;
    with no interval to subtract these are all the records. *)
Theorem subtract_intervals_sorted (records : list CoverageRecord)
    (intervals : list interval) :
  NoDup (cr_start <$> records) →
  ∃ out, subtract_intervals records intervals = Ok out ∧
    StronglySorted (λ r r', cr_start r < cr_start r') out ∧
    (∀ r, r ∈ out → r ∈ records) ∧
    (intervals = [] → out ≡ₚ records).
Proof.
  intros Hnd. unfold subtract_intervals.
  assert (Hnd_ev : NoDup (omap rec_position (sub_events records intervals)))
    by by rewrite omap_rec_position_events.
  destruct (py_sort_ok _ Hnd_ev) as (L & -> & Hss & Hperm). simpl.
  eexists. split; [done|]. split; [|split].
  - apply sorted_NoDup_strict; [by apply subtract_sweep_sorted|].
    eapply sublist_NoDup; [|apply subtract_sweep_sublist].
    by rewrite Hperm.
  - intros r Hr%subtract_sweep_elem. rewrite Hperm in Hr.
    unfold sub_events in Hr.
    apply elem_of_app in Hr as [Hr|Hr].
    + apply list_elem_of_fmap in Hr as (r' & [= ->] & ?). done.
    + apply elem_of_app in Hr as [Hr|Hr];
        apply list_elem_of_fmap in Hr as (? & ? & ?); done.
  - intros ->. unfold sub_events in Hperm. simpl in Hperm.
    rewrite app_nil_r in Hperm.
    assert (Hall : Forall (λ e, sub_rank e = 2) L).
    { rewrite Hperm. apply Forall_fmap, Forall_true. done. }
    rewrite <- (omap_event_record_fmap (subtract_sweep false L)).
    rewrite (subtract_sweep_records L Hall), Hperm.
    by rewrite omap_event_record_fmap.
Qed.

Lemma subtract_intervals_sorted_witness :
  ∃ out, subtract_intervals [sample_record 300; sample_record 100] [] = Ok out ∧
    StronglySorted (λ r r', cr_start r < cr_start r') out ∧
    (∀ r, r ∈ out → r ∈ [sample_record 300; sample_record 100]) ∧
    ((@nil interval) = [] → out ≡ₚ [sample_record 300; sample_record 100]).
Proof.
  apply (subtract_intervals_sorted [sample_record 300; sample_record 100] []).
  apply NoDup_cons. split.
  - intros Hin. apply list_elem_of_singleton in Hin. discriminate.
  - apply NoDup_singleton.
Defined.

(** The sort raises on two record events at one position. *)
Lemma insert_sorted_clash x l :
  StronglySorted sub_le l → (∃ y, y ∈ l ∧ sub_clash y x) →
  insert_sorted sub_event_lt x l = Raise TypeError.
Proof.
  induction 1 as [|z l Hs IH Hall]; intros (y & Hy & Hclash).
  - by apply elem_of_nil in Hy.
  - simpl.
    assert (Hzdec : sub_clash z x ∨ ¬ sub_clash z x).
    { unfold sub_clash.
      destruct (decide (sub_pos z = sub_pos x ∧ sub_rank z = 2 ∧ sub_rank x = 2));
        tauto. }
    destruct Hzdec as [Hz|Hz].
    + destruct Hz as (Hp & Hrz & Hrx). unfold sub_event_lt.
      rewrite (proj2 (Z.eqb_eq _ _) Hp).
      destruct z, x; simpl in *; done.
    + destruct (sub_event_lt_spec z x Hz) as (c & -> & Hc). simpl.
      apply elem_of_cons in Hy as [->|Hy]; [done|].
      rewrite Forall_forall in Hall. specialize (Hall _ Hy).
      assert (c = true) as ->.
      { apply Hc. unfold sub_lt, sub_le, sub_clash in *.
        destruct Hclash as (? & ? & ?).
        destruct (decide (sub_rank z = 2)); [|destruct z; simpl in *; lia].
        destruct (decide (sub_pos z = sub_pos x)); [tauto | lia]. }
      rewrite IH; [done|]. by exists y.
Qed.

Lemma py_sort_clash l :
  ¬ NoDup (omap rec_position l) → py_sort sub_event_lt l = Raise TypeError.
Proof.
  induction l as [|x l IH]; intros Hnd.
  - exfalso. apply Hnd. constructor.
  - simpl. destruct (decide (NoDup (omap rec_position l))) as [Hl|Hl].
    + destruct (py_sort_ok l Hl) as (s & -> & Hss & Hp). simpl.
      apply insert_sorted_clash; [done|].
      destruct x as [r|p|p]; simpl in Hnd; [|done..].
      assert (Hin : cr_start r ∈ omap rec_position l).
      { destruct (decide (cr_start r ∈ omap rec_position l)); [done|].
        exfalso. apply Hnd. by constructor. }
      apply list_elem_of_omap in Hin as (y & Hy & Hpos).
      exists y. split; [by rewrite Hp|].
      destruct y as [r'|?|?]; simpl in Hpos; [|done..].
      injection Hpos as Hpos. by repeat split.
    + by rewrite IH.
Qed.

(** [subtract_intervals] returns exactly when the records have distinct
    starts: two records (two objects) with the same start make
    [events.sort()] compare the records themselves, which raises
    [TypeError]. *)
Theorem subtract_intervals_returns_iff (records : list CoverageRecord)
    (intervals : list interval) :
  ((∃ out, subtract_intervals records intervals = Ok out) ↔
     NoDup (cr_start <$> records)) ∧
  ((∃ a b r r', records !! a = Some r ∧ records !! b = Some r' ∧ a ≠ b ∧
                cr_start r = cr_start r') ↔
     subtract_intervals records intervals = Raise TypeError).
Proof.
  assert (Hok : NoDup (cr_start <$> records) →
                ∃ out, subtract_intervals records intervals = Ok out).
  { intros Hnd. unfold subtract_intervals.
    assert (Hnd_ev : NoDup (omap rec_position (sub_events records intervals)))
      by by rewrite omap_rec_position_events.
    destruct (py_sort_ok _ Hnd_ev) as (L & -> & _). simpl. eauto. }
  assert (Hraise : ¬ NoDup (cr_start <$> records) →
                   subtract_intervals records intervals = Raise TypeError).
  { intros Hnd. unfold subtract_intervals. rewrite py_sort_clash; [done|].
    by rewrite omap_rec_position_events. }
  assert (Hdup : (∃ a b r r', records !! a = Some r ∧ records !! b = Some r' ∧
                    a ≠ b ∧ cr_start r = cr_start r') ↔
                 ¬ NoDup (cr_start <$> records)).
  { rewrite NoDup_alt. split.
    - intros (a & b & r & r' & Ha & Hb & Hab & Heq) Hnd.
      apply Hab. apply (Hnd a b (cr_start r));
        rewrite list_lookup_fmap; [by rewrite Ha | by rewrite Hb, Heq].
    - intros Hnd.
      destruct (decide (NoDup (cr_start <$> records))) as [Hd|Hd].
      { exfalso. apply Hnd. by apply NoDup_alt. }
      clear Hnd Hok Hraise. induction records as [|r rs IH].
      { exfalso. apply Hd. constructor. }
      csimpl in Hd.
      destruct (decide (cr_start r ∈ cr_start <$> rs)) as [Hin|Hin].
      + apply list_elem_of_fmap in Hin as (r' & Heq & Hr').
        apply list_elem_of_lookup in Hr' as [b Hb].
        exists 0%nat, (S b), r, r'. done.
      + destruct IH as (a & b & r1 & r2 & Ha & Hb & Hab & Heq).
        { intros Hrs. apply Hd. by constructor. }
        exists (S a), (S b), r1, r2. split; [done|]. split; [done|].
        split; [lia | done]. }
  split.
  - split; [|done]. intros [out Hout] .
    destruct (decide (NoDup (cr_start <$> records))) as [|Hnd]; [done|].
    rewrite (Hraise Hnd) in Hout. done.
  - rewrite Hdup. split; [done|]. intros Hr Hnd.
    destruct (Hok Hnd) as [out Hout]. congruence.
Qed.
(** ** [variant_filter]: what it yields, and the rules besides the size rule *)

Lemma variant_filter_cons variant rest min_size max_frequency frequency_tag b :
  admits min_size max_frequency frequency_tag variant = Ok b →
  variant_filter (variant :: rest) min_size max_frequency frequency_tag
  = ((if b then [variant] else []) ++
       (variant_filter rest min_size max_frequency frequency_tag).1,
     (variant_filter rest min_size max_frequency frequency_tag).2).
Proof. intros Hb. simpl. rewrite Hb. by destruct b. Qed.

Lemma variant_filter_raise variant rest min_size max_frequency frequency_tag e :
  admits min_size max_frequency frequency_tag variant = Raise e →
  variant_filter (variant :: rest) min_size max_frequency frequency_tag
  = ([], Raised e).
Proof. intros He. simpl. by rewrite He. Qed.

Lemma variant_filter_sublist variants min_size max_frequency frequency_tag :
  (variant_filter variants min_size max_frequency frequency_tag).1
    `sublist_of` variants.
Proof.
  induction variants as [|v vs IH]; simpl; [done|].
  destruct (admits _ _ _ v) as [[|]|e]; simpl.
  - by apply sublist_skip.
  - by apply sublist_cons.
  - apply sublist_nil_l.
Qed.

Lemma variant_filter_elem variants min_size max_frequency frequency_tag v :
  v ∈ (variant_filter variants min_size max_frequency frequency_tag).1 →
  v ∈ variants ∧ admits min_size max_frequency frequency_tag v = Ok true.
Proof.
  induction variants as [|v' vs IH]; simpl; [by intros ?%elem_of_nil|].
  destruct (admits _ _ _ v') as [[|]|e] eqn:Hadm; simpl.
  - intros [->|Hin]%elem_of_cons; [split; [left | done]|].
    destruct (IH Hin). split; [by right | done].
  - intros Hin. destruct (IH Hin). split; [by right | done].
  - by intros ?%elem_of_nil.
Qed.

(** [variant_filter] only selects: what it yields is a sub-sequence of its
    input (same records, same order), and filtering what a completed run
    yielded, with the same parameters, yields all of it again. *)
Theorem variant_filter_idempotent (variants out : list Variant)
    (min_size : Z) (max_frequency : float) (frequency_tag : string) :
  variant_filter variants min_size max_frequency frequency_tag
    = (out, Returned) →
  out `sublist_of` variants ∧
  variant_filter out min_size max_frequency frequency_tag = (out, Returned).
Proof.
  intros Hrun. split.
  { replace out with
      (variant_filter variants min_size max_frequency frequency_tag).1
      by by rewrite Hrun.
    apply variant_filter_sublist. }
  revert out Hrun. induction variants as [|v vs IH]; intros out; simpl.
  - by intros [= <-].
  - destruct (admits _ _ _ v) as [[|]|e] eqn:Hadm; simpl; [| |done].
    + destruct (variant_filter vs _ _ _) as [out' st] eqn:Hvs. simpl.
      intros [= <- ->]. simpl. rewrite Hadm. by rewrite (IH out' eq_refl).
    + destruct (variant_filter vs _ _ _) as [out' st] eqn:Hvs. simpl.
      intros [= <- ->]. by apply IH.
Qed.

Lemma variant_filter_idempotent_witness :
  [deletion_5100] `sublist_of` [deletion_5100; local_breakend] ∧
  variant_filter [deletion_5100] 5000 float_0_01 "FRQ"
    = ([deletion_5100], Returned).
Proof.
  apply (variant_filter_idempotent [deletion_5100; local_breakend]
           [deletion_5100] 5000 float_0_01 "FRQ").
  vm_compute. reflexivity.
Defined.

Lemma SFcompare_refl (f : float) : f ≠ S754_nan → SFcompare f f = Some Eq.
Proof.
  destruct f as [s|[|]| |[|] m e]; simpl; try done; intros _;
    rewrite Z.compare_refl;
    change (PosDef.Pos.compare_cont Eq m m) with (Pos.compare m m);
    by rewrite Pos.compare_refl.
Qed.

(** The frequency rule, for a record that passes the size rule: a record
    without the frequency field is admitted; so is a record whose
    frequency equals [max_frequency] (the test is a strict [>]); a
    frequency field that holds a string raises [TypeError], which ends the
    whole generator. *)
Theorem frequency_rule_boundary (variant : Variant) (rest : list Variant)
    (min_size : Z) (max_frequency : float) (frequency_tag : string) :
  size_check min_size variant = Ok true → max_frequency ≠ S754_nan →
  (INFO variant !! frequency_tag = None →
     admits min_size max_frequency frequency_tag variant = Ok true) ∧
  (INFO variant !! frequency_tag = Some (VFloat max_frequency) →
     admits min_size max_frequency frequency_tag variant = Ok true) ∧
  (∀ s, INFO variant !! frequency_tag = Some (VStr s) →
     admits min_size max_frequency frequency_tag variant = Raise TypeError ∧
     variant_filter (variant :: rest) min_size max_frequency frequency_tag
       = ([], Raised TypeError)).
Proof.
  intros Hsize Hnan. unfold admits, frequency_check. rewrite Hsize. simpl.
  split; [by intros ->|]. split.
  - intros ->. unfold py_gt. simpl. by rewrite SFcompare_refl.
  - intros s Hs.
    assert (Hadm : admits min_size max_frequency frequency_tag variant
                   = Raise TypeError).
    { unfold admits, frequency_check. rewrite Hsize. simpl. by rewrite Hs. }
    split; [by rewrite Hs|]. by apply variant_filter_raise.
Qed.

Lemma frequency_rule_boundary_witness :
  (INFO deletion_5100 !! "FRQ" = None →
     admits 5000 float_0_01 "FRQ" deletion_5100 = Ok true) ∧
  (INFO deletion_5100 !! "FRQ" = Some (VFloat float_0_01) →
     admits 5000 float_0_01 "FRQ" deletion_5100 = Ok true) ∧
  (∀ s, INFO deletion_5100 !! "FRQ" = Some (VStr s) →
     admits 5000 float_0_01 "FRQ" deletion_5100 = Raise TypeError ∧
     variant_filter [deletion_5100] 5000 float_0_01 "FRQ"
       = ([], Raised TypeError)).
Proof.
  apply (frequency_rule_boundary deletion_5100 [] 5000 float_0_01 "FRQ").
  - vm_compute. reflexivity.
  - discriminate.
Defined.

(** The size rule has two exemptions: a translocation (SVTYPE [TRA]) is
    never rejected for its size, whatever its END; neither is a record
    without a truthy END that is not a breakend.  For both the frequency
    check alone decides. *)
Theorem size_rule_exemptions (variant : Variant)
    (min_size : Z) (max_frequency : float) (frequency_tag : string) :
  INFO variant !! "SVTYPE" = Some (VStr "TRA") ∨
  (truthy_opt (INFO variant !! "END") = false ∧
   INFO variant !! "SVTYPE" ≠ Some (VStr "BND")) →
  admits min_size max_frequency frequency_tag variant
  = frequency_check max_frequency frequency_tag variant.
Proof.
  intros Hex.
  assert (Hsize : size_check min_size variant = Ok true).
  { unfold size_check. destruct Hex as [Htra|[Hend Hbnd]].
    - rewrite Htra. simpl. by rewrite andb_false_r.
    - rewrite Hend. simpl. by rewrite (is_str_false _ _ Hbnd). }
  unfold admits. by rewrite Hsize.
Qed.

Lemma size_rule_exemptions_witness :
  admits 5000 float_0_01 "FRQ"
    {| CHROM := "1"; variant_start := 100; REF := "N"; ALT := ["<TRA>"];
       INFO := {[ "SVTYPE" := VStr "TRA"; "END" := VInt 150 ]} |}
  = frequency_check float_0_01 "FRQ"
    {| CHROM := "1"; variant_start := 100; REF := "N"; ALT := ["<TRA>"];
       INFO := {[ "SVTYPE" := VStr "TRA"; "END" := VInt 150 ]} |}.
Proof.
  apply (size_rule_exemptions
    {| CHROM := "1"; variant_start := 100; REF := "N"; ALT := ["<TRA>"];
       INFO := {[ "SVTYPE" := VStr "TRA"; "END" := VInt 150 ]} |}
    5000 float_0_01 "FRQ").
  left. reflexivity.
Defined.

(** A breakend record (no truthy END) whose first ALT allele holds no
    colon cannot be unpacked into contig and position: the filter raises
    [ValueError] and yields nothing more; without any ALT allele it raises
    [IndexError]. *)
Theorem breakend_without_partner (variant : Variant) (rest : list Variant)
    (min_size : Z) (max_frequency : float) (frequency_tag : string) :
  INFO variant !! "SVTYPE" = Some (VStr "BND") →
  truthy_opt (INFO variant !! "END") = false →
  (∀ alt0 alts, ALT variant = alt0 :: alts → lacks ":" alt0 →
     variant_filter (variant :: rest) min_size max_frequency frequency_tag
       = ([], Raised ValueError)) ∧
  (ALT variant = [] →
     variant_filter (variant :: rest) min_size max_frequency frequency_tag
       = ([], Raised IndexError)).
Proof.
  intros Hbnd Hend. split.
  - intros alt0 alts Halt Hlacks. apply variant_filter_raise.
    unfold admits, size_check. rewrite Hend, Hbnd. simpl.
    unfold breakend_partner, item. rewrite Halt. simpl.
    rewrite (split_on_lacks ":" (slice_2_m1 alt0)); [reflexivity|].
    by apply lacks_drop_last, lacks_drop_two.
  - intros Halt. apply variant_filter_raise.
    unfold admits, size_check. rewrite Hend, Hbnd. simpl.
    unfold breakend_partner, item. by rewrite Halt.
Qed.

Lemma breakend_without_partner_witness :
  (∀ alt0 alts, ["<BND>"] = alt0 :: alts → lacks ":" alt0 →
     variant_filter
       [{| CHROM := "1"; variant_start := 100; REF := "N"; ALT := ["<BND>"];
           INFO := {[ "SVTYPE" := VStr "BND" ]} |}] 5000 float_0_01 "FRQ"
       = ([], Raised ValueError)) ∧
  (["<BND>"] = @nil string →
     variant_filter
       [{| CHROM := "1"; variant_start := 100; REF := "N"; ALT := ["<BND>"];
           INFO := {[ "SVTYPE" := VStr "BND" ]} |}] 5000 float_0_01 "FRQ"
       = ([], Raised IndexError)).
Proof.
  apply (breakend_without_partner
    {| CHROM := "1"; variant_start := 100; REF := "N"; ALT := ["<BND>"];
       INFO := {[ "SVTYPE" := VStr "BND" ]} |} [] 5000 float_0_01 "FRQ");
    reflexivity.
Defined.
(** ** [events]: which records become Events *)

Lemma events_elem CONTIG_LENGTHS variants ev :
  ev ∈ (events CONTIG_LENGTHS variants).1 →
  ∃ variant, variant ∈ variants ∧
             event_of CONTIG_LENGTHS variant = Ok (Some ev).
Proof.
  induction variants as [|v vs IH]; simpl; [by intros ?%elem_of_nil|].
  destruct (event_of CONTIG_LENGTHS v) as [[ev'|]|e] eqn:Hev; simpl.
  - intros [->|Hin]%elem_of_cons.
    + exists v. split; [left | done].
    + destruct (IH Hin) as (v' & ? & ?). exists v'. split; [by right | done].
  - intros Hin. destruct (IH Hin) as (v' & ? & ?).
    exists v'. split; [by right | done].
  - by intros ?%elem_of_nil.
Qed.

(** What an Event keeps of its record: contig, SVTYPE and INFO; and the
    record has one ALT allele and lies on a known contig. *)
Lemma event_of_fields CONTIG_LENGTHS variant ev :
  event_of CONTIG_LENGTHS variant = Ok (Some ev) →
  length (ALT variant) = 1%nat ∧ is_Some (CONTIG_LENGTHS !! CHROM variant) ∧
  ev_chrom ev = CHROM variant ∧ ev_type ev = INFO variant !! "SVTYPE" ∧
  ev_info ev = INFO variant.
Proof.
  unfold event_of. case_decide as Halt; [done|]. case_decide as Hc; [done|].
  assert (length (ALT variant) = 1%nat) by lia.
  assert (is_Some (CONTIG_LENGTHS !! CHROM variant)).
  { by destruct (CONTIG_LENGTHS !! CHROM variant); [eexists|]. }
  destruct (truthy_opt _); [|by intros [= <-]].
  destruct (INFO variant !! "END") as [end_|]; [|done].
  destruct (py_le _ end_) as [swap|]; [|done]. simpl.
  destruct swap; do 2 case_bind; (case_decide; [|done]); by intros [= <-].
Qed.

(** An interval Event over integers comes from a record with a non-zero
    integer END; its [end] and [start] are the smaller and the larger of
    the record's start and END. *)
Lemma event_of_interval CONTIG_LENGTHS variant ev s e :
  event_of CONTIG_LENGTHS variant = Ok (Some ev) →
  ev_start ev = VInt s → ev_end ev = Some (VInt e) →
  ∃ x, INFO variant !! "END" = Some (VInt x) ∧ x ≠ 0 ∧
       s - e = Z.abs (x - variant_start variant).
Proof.
  unfold event_of. case_decide; [done|]. case_decide; [done|].
  destruct (truthy_opt _) eqn:Htruthy; [|by intros [= <-]].
  destruct (INFO variant !! "END") as [end_|]; [|done].
  destruct (py_le _ end_) as [swap|] eqn:Hle; [|done]. simpl.
  destruct swap.
  - do 2 case_bind.
    case_decide; [|done]. intros [= <-]. simpl. intros -> [= <-].
    rewrite py_le_int in Hle. injection Hle as Hle.
    exists s. split; [done|]. simpl in Htruthy.
    destruct (Z.eqb_spec s 0); [done|]. split; [done|]. lia.
  - do 2 case_bind.
    case_decide; [|done]. intros [= <-]. simpl. intros [= <-] [= ->].
    rewrite py_le_int in Hle. injection Hle as Hle.
    exists e. split; [done|]. simpl in Htruthy.
    destruct (Z.eqb_spec e 0); [done|]. split; [done|]. lia.
Qed.

(** What [main] iterates over, [events(variant_filter(vcf))]: every
    interval Event over integers that is not a translocation spans more
    than [min_size], counted as [start - end] (the Event holds the larger
    coordinate in [start]). *)
Theorem filtered_events_size (CONTIG_LENGTHS : gmap string Z)
    (variants : list Variant) (min_size : Z) (max_frequency : float)
    (frequency_tag : string) (ev : Event) (s e : Z) :
  ev ∈ (events CONTIG_LENGTHS
          (variant_filter variants min_size max_frequency frequency_tag).1).1 →
  ev_start ev = VInt s → ev_end ev = Some (VInt e) →
  ev_type ev ≠ Some (VStr "TRA") →
  min_size < s - e.
Proof.
  intros Hin Hs He Htype.
  apply events_elem in Hin as (v & Hv & Hev).
  apply variant_filter_elem in Hv as [_ Hadm].
  destruct (event_of_fields _ _ _ Hev) as (_ & _ & _ & Hty & _).
  destruct (event_of_interval _ _ _ s e Hev Hs He) as (x & Hend & Hx & ->).
  rewrite Hty in Htype.
  unfold admits in Hadm.
  destruct (size_check min_size v) as [[|]|] eqn:Hsize; simpl in Hadm;
    [|done..].
  unfold size_check in Hsize.
  rewrite Hend, (is_str_false _ _ Htype) in Hsize. simpl in Hsize.
  destruct (Z.eqb_spec x 0); [done|]. simpl in Hsize.
  injection Hsize as Hsize. apply negb_true_iff in Hsize.
  unfold Z.leb in *. destruct (_ ?= _) eqn:Hcmp in Hsize; try done.
  apply Z.compare_gt_iff in Hcmp. lia.
Qed.

Lemma filtered_events_size_witness :
  (events sample_contigs
     (variant_filter [deletion_5100] 5000 float_0_01 "FRQ").1).1
  = [{| ev_chrom := "1"; ev_start := VInt 5200; ev_end := Some (VInt 100);
        ev_type := Some (VStr "DEL"); ev_info := INFO deletion_5100 |}] ∧
  5000 < 5200 - 100.
Proof.
  assert (H : (events sample_contigs
                 (variant_filter [deletion_5100] 5000 float_0_01 "FRQ").1).1
    = [{| ev_chrom := "1"; ev_start := VInt 5200; ev_end := Some (VInt 100);
          ev_type := Some (VStr "DEL"); ev_info := INFO deletion_5100 |}])
    by (vm_compute; reflexivity).
  split; [exact H|].
  apply (filtered_events_size sample_contigs [deletion_5100] 5000
           float_0_01 "FRQ"
           {| ev_chrom := "1"; ev_start := VInt 5200; ev_end := Some (VInt 100);
              ev_type := Some (VStr "DEL"); ev_info := INFO deletion_5100 |}).
  - rewrite H. left.
  - reflexivity.
  - reflexivity.
  - discriminate.
Defined.

(** [events] selects by ALT and contig only: a completed run yields one
    Event for each record that has exactly one ALT allele and lies on a
    contig of [CONTIG_LENGTHS], in the order of the input, and the Event
    carries the record's contig, SVTYPE and INFO. *)
Theorem events_selection (CONTIG_LENGTHS : gmap string Z)
    (variants : list Variant) (out : list Event) :
  events CONTIG_LENGTHS variants = (out, Returned) →
  (λ ev, (ev_chrom ev, ev_type ev, ev_info ev)) <$> out
  = (λ v, (CHROM v, INFO v !! "SVTYPE", INFO v)) <$>
      filter (λ v, length (ALT v) = 1%nat ∧
                   is_Some (CONTIG_LENGTHS !! CHROM v)) variants.
Proof.
  revert out. induction variants as [|v vs IH]; intros out; simpl.
  - by intros [= <-].
  - destruct (event_of CONTIG_LENGTHS v) as [[ev|]|e] eqn:Hev; simpl; [| |done].
    + destruct (events CONTIG_LENGTHS vs) as [out' st] eqn:Hvs. simpl.
      intros [= <- ->].
      destruct (event_of_fields _ _ _ Hev) as (Halt & Hc & Hch & Hty & Hinfo).
      rewrite filter_cons_True by done. csimpl.
      rewrite Hch, Hty, Hinfo. f_equal. by apply IH.
    + intros Hout. rewrite filter_cons_False; [by apply IH|].
      intros [Halt Hc]. unfold event_of in Hev.
      rewrite decide_False in Hev by lia.
      rewrite decide_False in Hev by (by intros Hn; rewrite Hn in Hc; destruct Hc).
      destruct (truthy_opt _) eqn:Htruthy; [|done].
      destruct (INFO v !! "END") as [end_|]; [|done].
      destruct (py_le _ end_) as [swap|]; [|done]. simpl in Hev.
      destruct swap; revert Hev; do 2 case_bind; by case_decide.
Qed.

Lemma events_selection_witness :
  (λ ev, (ev_chrom ev, ev_type ev, ev_info ev)) <$>
    [{| ev_chrom := "1"; ev_start := VInt 5200; ev_end := Some (VInt 100);
        ev_type := Some (VStr "DEL"); ev_info := INFO deletion_5100 |}]
  = (λ v, (CHROM v, INFO v !! "SVTYPE", INFO v)) <$>
      filter (λ v, length (ALT v) = 1%nat ∧
                   is_Some (sample_contigs !! CHROM v)) [deletion_5100].
Proof.
  apply (events_selection sample_contigs [deletion_5100]).
  vm_compute. reflexivity.
Defined.

(** The assertion on REF: a record with one ALT allele on a known contig
    and a non-zero integer END whose REF is not one character long makes
    [events] raise [AssertionError]; nothing is yielded from there on. *)
Theorem events_assertion (CONTIG_LENGTHS : gmap string Z)
    (variant : Variant) (rest : list Variant) (x : Z) :
  length (ALT variant) = 1%nat →
  is_Some (CONTIG_LENGTHS !! CHROM variant) →
  INFO variant !! "END" = Some (VInt x) → x ≠ 0 →
  String.length (REF variant) ≠ 1%nat →
  events CONTIG_LENGTHS (variant :: rest) = ([], Raised AssertionError).
Proof.
  intros Halt [L HL] Hend Hx Href. simpl.
  assert (Hev : event_of CONTIG_LENGTHS variant = Raise AssertionError).
  { unfold event_of. rewrite decide_False by lia.
    rewrite decide_False by by rewrite HL.
    rewrite Hend. simpl. destruct (Z.eqb_spec x 0); [done|]. simpl.
    destruct (variant_start variant ?= x); simpl;
      by rewrite decide_False by done. }
  by rewrite Hev.
Qed.

Lemma events_assertion_witness :
  events sample_contigs
    [{| CHROM := "1"; variant_start := 100; REF := "NN"; ALT := ["<DEL>"];
        INFO := {[ "SVTYPE" := VStr "DEL"; "END" := VInt 5200 ]} |}]
  = ([], Raised AssertionError).
Proof.
  apply (events_assertion sample_contigs
    {| CHROM := "1"; variant_start := 100; REF := "NN"; ALT := ["<DEL>"];
       INFO := {[ "SVTYPE" := VStr "DEL"; "END" := VInt 5200 ]} |} [] 5200).
  - reflexivity.
  - vm_compute. eexists. reflexivity.
  - reflexivity.
  - lia.
  - vm_compute. discriminate.
Defined.
(** ** [add_probes_between_events] *)

(** The gaps [complement_intervals] yields are non-empty and lie in
    [[prev_end, L]]. *)
Lemma complement_from_gaps (M : list interval) (L : Z) : ∀ prev_end,
  ascending_from prev_end M → Forall (λ i : interval, i.2 ≤ L) M →
  prev_end ≤ L →
  Forall (λ g : interval, prev_end ≤ g.1 ∧ g.1 < g.2 ∧ g.2 ≤ L)
         (complement_from prev_end M L).
Proof.
  induction M as [|[a b] M IH]; intros prev Hasc HL Hprev; simpl.
  - case_decide; [|constructor]. repeat constructor; simpl; lia.
  - destruct Hasc as (? & ? & Hasc). apply Forall_cons in HL as [Hb HL].
    simpl in Hb. apply Forall_app. split.
    + case_decide; [|constructor]. repeat constructor; simpl; lia.
    + eapply Forall_impl; [apply (IH b Hasc HL Hb)|].
      intros g (? & ? & ?). repeat split; lia.
Qed.

(** The gaps between the events of a chromosome: non-empty, inside
    [[0, L]], and free of events. *)
Lemma gaps_between_events (X : list interval) (L : Z) (g : interval) :
  0 ≤ L → Forall (inside L) X →
  g ∈ complement_intervals (merge_intervals (Collection X)) L →
  0 ≤ g.1 ∧ g.1 < g.2 ∧ g.2 ≤ L ∧
  ∀ p, g.1 ≤ p < g.2 → ¬ covered X p.
Proof.
  intros H0L HX Hg.
  pose proof (merge_intervals_bounds X L HX) as HM.
  pose proof (merge_intervals_sorted_with_gaps (Collection X)) as Hgap.
  apply sorted_with_gaps_non_overlapping in Hgap.
  assert (Hwf : Forall (λ i : interval, i.1 ≤ i.2) X).
  { eapply Forall_impl; [exact HX|]. intros i (? & ? & ?). done. }
  assert (Hasc : ascending_from 0 (merge_intervals (Collection X))).
  { destruct (merge_intervals (Collection X)) as [|[a b] M]; [done|].
    apply Forall_cons in HM as [(? & ? & ?) _]. simpl in *. tauto. }
  assert (HL : Forall (λ i : interval, i.2 ≤ L) (merge_intervals (Collection X))).
  { eapply Forall_impl; [exact HM|]. intros i (? & ? & ?). done. }
  pose proof (complement_from_gaps _ L 0 Hasc HL H0L) as Hall.
  rewrite Forall_forall in Hall. destruct (Hall g Hg) as (? & ? & ?).
  repeat split; [done..|].
  intros p Hp Hcov.
  assert (Hcg : covered (complement_intervals (merge_intervals (Collection X)) L) p).
  { exists g. split; [done|]. unfold in_interval. lia. }
  unfold complement_intervals in Hcg.
  rewrite complement_from_covered in Hcg by done.
  rewrite merge_intervals_covered in Hcg by done. tauto.
Qed.

Lemma gap_probes_spec (chrom : string) (a b : Z) :
  0 < b - a ≤ 2 ^ 53 →
  ∃ calls,
    (∀ fuel, 2 ^ 56 ≤ Z.of_nat fuel →
       gap_probes fuel chrom a b = (calls, Returned)) ∧
    Forall (λ c, pc_chromosome c = chrom ∧ a ≤ pc_start c ≤ b ∧
                 pc_end c = pc_start c + 60 ∧ pc_height c = float_0_01 ∧
                 pc_text c = "between events") calls.
Proof.
  intros Hab.
  destruct (spaced_probes_terminates a b 200000 Hab ltac:(lia)) as (out & Hout).
  eexists. split.
  - intros fuel Hfuel. unfold gap_probes. rewrite Hout by lia. done.
  - pose proof (spaced_probes_ge_start (Z.to_nat (2 ^ 56)) a b 200000) as Hge.
    pose proof (spaced_probes_le_end (Z.to_nat (2 ^ 56)) a b 200000) as Hle.
    rewrite Hout in Hge, Hle by lia. simpl in Hge, Hle.
    apply Forall_fmap, Forall_forall. intros pos Hpos.
    rewrite Forall_forall in Hge, Hle. simpl.
    specialize (Hge _ Hpos). specialize (Hle _ Hpos). done.
Qed.

Lemma gaps_probes_spec (chrom : string) (gaps : list interval) :
  Forall (λ g : interval, 0 < g.2 - g.1 ≤ 2 ^ 53) gaps →
  ∃ calls,
    (∀ fuel, 2 ^ 56 ≤ Z.of_nat fuel →
       gaps_probes fuel chrom gaps = (calls, Returned)) ∧
    Forall (λ c, pc_chromosome c = chrom ∧
                 pc_end c = pc_start c + 60 ∧ pc_height c = float_0_01 ∧
                 pc_text c = "between events" ∧
                 ∃ g : interval, g ∈ gaps ∧ g.1 ≤ pc_start c ≤ g.2) calls.
Proof.
  induction 1 as [|[a b] gaps Hg _ IH].
  - exists []. split; [done | constructor].
  - destruct IH as (calls' & Hrun' & Hall').
    destruct (gap_probes_spec chrom a b Hg) as (calls & Hrun & Hall).
    exists (calls ++ calls'). split.
    + intros fuel Hfuel. cbn [gaps_probes].
      rewrite (Hrun fuel Hfuel), (Hrun' fuel Hfuel). done.
    + apply Forall_app. split.
      * eapply Forall_impl; [exact Hall|].
        intros c (? & ? & ? & ? & ?). repeat split; [done..|].
        exists (a, b). split; [left | done].
      * eapply Forall_impl; [exact Hall'|].
        intros c (? & ? & ? & ? & g & ? & ?). repeat split; [done..|].
        exists g. split; [by right | done].
Qed.

(** [add_probes_between_events] terminates and places its probes between
    the events: when the contigs are at most [2^53] long and the intervals
    of every known contig are well formed and inside the contig, the
    function returns; every probe it makes is 60 long at height [0.01],
    named ["between events"], lies on a known contig at a position of
    [[0, L]], and never strictly inside an interval of that contig. *)
Theorem add_probes_between_events_spec (CONTIG_LENGTHS : gmap string Z)
    (chr_intervals : list (string * list interval)) :
  (∀ chrom X L, (chrom, X) ∈ chr_intervals →
     CONTIG_LENGTHS !! chrom = Some L →
     0 ≤ L ≤ 2 ^ 53 ∧ Forall (inside L) X) →
  ∃ calls,
    (∀ fuel, 2 ^ 56 ≤ Z.of_nat fuel →
       add_probes_between_events fuel CONTIG_LENGTHS chr_intervals
       = (calls, Returned)) ∧
    Forall (λ c,
      pc_end c = pc_start c + 60 ∧ pc_height c = float_0_01 ∧
      pc_text c = "between events" ∧
      ∃ X L, (pc_chromosome c, X) ∈ chr_intervals ∧
             CONTIG_LENGTHS !! pc_chromosome c = Some L ∧
             0 ≤ pc_start c ≤ L ∧
             ∀ i : interval, i ∈ X → ¬ (i.1 < pc_start c < i.2)) calls.
Proof.
  induction chr_intervals as [|[chrom X] rest IH]; intros Hwf.
  - exists []. split; [done | constructor].
  - destruct IH as (calls' & Hrun' & Hall').
    { intros chrom' X' L' Hin. apply Hwf. by right. }
    assert (Hrest : Forall (λ c,
      pc_end c = pc_start c + 60 ∧ pc_height c = float_0_01 ∧
      pc_text c = "between events" ∧
      ∃ X0 L, (pc_chromosome c, X0) ∈ (chrom, X) :: rest ∧
              CONTIG_LENGTHS !! pc_chromosome c = Some L ∧
              0 ≤ pc_start c ≤ L ∧
              ∀ i : interval, i ∈ X0 → ¬ (i.1 < pc_start c < i.2)) calls').
    { eapply Forall_impl; [exact Hall'|].
      intros c (? & ? & ? & X0 & L & ? & ? & ? & ?). repeat split; [done..|].
      exists X0, L. split; [by right | done]. }
    destruct (CONTIG_LENGTHS !! chrom) as [L|] eqn:HL.
    + destruct (Hwf chrom X L) as [HLb HX]; [left | done |].
      set (gaps := complement_intervals (merge_intervals (Collection X)) L).
      assert (Hgaps : ∀ g : interval, g ∈ gaps →
                0 ≤ g.1 ∧ g.1 < g.2 ∧ g.2 ≤ L ∧
                ∀ p, g.1 ≤ p < g.2 → ¬ covered X p).
      { intros g Hg. apply gaps_between_events; [lia | done..]. }
      destruct (gaps_probes_spec chrom gaps) as (calls & Hrun & Hall).
      { apply Forall_forall. intros g Hg.
        destruct (Hgaps g Hg) as (? & ? & ? & _). lia. }
      exists (calls ++ calls'). split.
      * intros fuel Hfuel. cbn [add_probes_between_events]. rewrite HL.
        fold gaps. rewrite (Hrun fuel Hfuel), (Hrun' fuel Hfuel). done.
      * apply Forall_app. split; [|done].
        eapply Forall_impl; [exact Hall|].
        intros c (Hc & ? & ? & ? & g & Hg & Hpos).
        repeat split; [done..|].
        destruct (Hgaps g Hg) as (? & ? & ? & Hfree).
        exists X, L. rewrite Hc. split; [left|]. split; [done|].
        split; [lia|].
        intros i Hi Hstrict.
        destruct (decide (pc_start c = g.1)) as [Heq|Hne].
        -- apply (Hfree (pc_start c)); [lia|].
           exists i. split; [done|]. unfold in_interval. lia.
        -- apply (Hfree (pc_start c - 1)); [lia|].
           exists i. split; [done|]. unfold in_interval. lia.
    + exists calls'. split; [|done].
      intros fuel Hfuel. cbn [add_probes_between_events]. rewrite HL.
      by apply Hrun'.
Qed.

Lemma add_probes_between_events_spec_witness :
  ∃ calls,
    (∀ fuel, 2 ^ 56 ≤ Z.of_nat fuel →
       add_probes_between_events fuel sample_contigs [("1", [(100, 5200)])]
       = (calls, Returned)) ∧
    Forall (λ c,
      pc_end c = pc_start c + 60 ∧ pc_height c = float_0_01 ∧
      pc_text c = "between events" ∧
      ∃ X L, (pc_chromosome c, X) ∈ [("1", [(100, 5200)])] ∧
             sample_contigs !! pc_chromosome c = Some L ∧
             0 ≤ pc_start c ≤ L ∧
             ∀ i : interval, i ∈ X → ¬ (i.1 < pc_start c < i.2)) calls.
Proof.
  apply (add_probes_between_events_spec sample_contigs [("1", [(100, 5200)])]).
  intros chrom X L Hin HL.
  apply list_elem_of_singleton in Hin. injection Hin as -> ->.
  vm_compute in HL. injection HL as <-.
  split; [lia|]. repeat constructor; simpl; lia.
Defined.

(** A small run: the gaps around one event on a contig of length 1000000,
    with probes 200000 apart. *)
Example add_probes_between_events_run :
  (λ c, pc_start c) <$>
    (add_probes_between_events 20 {[ "1" := 1000000 ]}
       [("1", [(400000, 500000)]); ("unknown", [(0, 10)])]).1
  = [0; 200000; 400000; 500000; 750000; 1000000].
Proof. vm_compute. reflexivity. Qed.
(** ** [compute_mean_coverage]: when the mean exists *)

(** [compute_mean_coverage] raises [ZeroDivisionError] exactly on the
    empty sequence of records; on every non-empty one (of at most [2^53]
    records) it returns a float. *)
Theorem compute_mean_coverage_defined (records : list CoverageRecord) :
  Z.of_nat (length records) ≤ 2 ^ 53 →
  (compute_mean_coverage records = Raise ZeroDivisionError ↔ records = []) ∧
  (records ≠ [] → ∃ mean, compute_mean_coverage records = Ok (VFloat mean)).
Proof.
  intros Hlen.
  assert (Hok : records ≠ [] →
                ∃ mean, compute_mean_coverage records = Ok (VFloat mean)).
  { intros Hne. unfold compute_mean_coverage.
    destruct (py_sum_from_zero (coverage <$> records)) as (s & ->).
    { by destruct records. }
    assert (1 ≤ Z.of_nat (length records))
      by (destruct records; [done | simpl; lia]).
    destruct (float_of_int_range (Z.of_nat (length records)) 0 53)
      as (g & Hg & Hgl & Hgm); [lia | lia | change (2 ^ 0) with 1; lia |].
    destruct (float_at_least_finite _ _ _ _ Hgl Hgm) as (m & e & ->).
    simpl. rewrite Hg. simpl. eauto. }
  split; [|done]. split.
  - intros Hraise. destruct records as [|r rs]; [done|].
    destruct Hok as [mean Hmean]; [done|]. congruence.
  - intros ->. reflexivity.
Qed.

Lemma compute_mean_coverage_defined_witness :
  (compute_mean_coverage [sample_record 0; sample_record 100]
     = Raise ZeroDivisionError ↔ [sample_record 0; sample_record 100] = []) ∧
  ([sample_record 0; sample_record 100] ≠ [] →
   ∃ mean, compute_mean_coverage [sample_record 0; sample_record 100]
           = Ok (VFloat mean)).
Proof.
  apply (compute_mean_coverage_defined [sample_record 0; sample_record 100]).
  simpl. lia.
Defined.
(** ** [triangle_probes] for any centre, height, width and odd or even
       number of steps *)

Lemma triangle_probes_loop_spec center height height_step pos_step indices :
  Forall (λ i, Z.abs i ≤ 2 ^ 53) indices →
  ∃ out,
    triangle_probes_loop center height height_step pos_step indices
      = (out, Returned) ∧
    Forall2 (λ i (p : Z * float),
      p.1 = center + i * pos_step ∧
      ∃ a, float_of_int (Z.abs i) = Ok a ∧
           p.2 = float_add (float_sub height (float_mul height_step a))
                           float_0_1) indices out.
Proof.
  induction 1 as [|i indices Hi _ IH].
  - exists []. split; [done | constructor].
  - destruct IH as (out & Hout & Hall).
    destruct (float_of_int_small (Z.abs i)) as (a & Ha & _); [lia|].
    eexists. split.
    + simpl. rewrite Ha, Hout. done.
    + constructor; [|done]. simpl. split; [done|]. by exists a.
Qed.

(** [triangle_probes] for [3 <= steps <= 2^53]: it returns
    [2 * (steps // 2) + 1] pairs ([steps] of them when [steps] is odd, one
    more when it is even); the [k]-th position is
    [center + (k - steps // 2) * pos_step]; and the pairs [k] and
    [2 * (steps // 2) - k] mirror each other: same distance from [center],
    same height. *)
Theorem triangle_probes_symmetric (center : Z) (height : float)
    (width steps : Z) :
  3 ≤ steps ≤ 2 ^ 53 →
  let half := steps `div` 2 in
  let pos_step := (width - 1) `div` (steps - 1) in
  ∃ out, triangle_probes center height width steps = (out, Returned) ∧
    Z.of_nat (length out) = 2 * half + 1 ∧
    (∀ (k : nat) p, out !! k = Some p →
       p.1 = center + (Z.of_nat k - half) * pos_step) ∧
    (∀ (k : nat) p q, out !! k = Some p →
       out !! Z.to_nat (2 * half - Z.of_nat k) = Some q →
       p.1 - center = center - q.1 ∧ p.2 = q.2).
Proof.
  intros Hsteps half pos_step.
  assert (Hhalf : 1 ≤ half ≤ 2 ^ 52).
  { unfold half. split.
    - apply Z.div_le_lower_bound; lia.
    - apply Z.div_le_upper_bound; [lia|]. change (2 * 2 ^ 52) with (2 ^ 53). lia. }
  assert (Hd : 1 ≤ (steps - 1) `div` 2 ≤ 2 ^ 53).
  { split.
    - apply Z.div_le_lower_bound; lia.
    - apply Z.div_le_upper_bound; lia. }
  unfold triangle_probes. rewrite decide_False by lia.
  destruct (float_of_int_range ((steps - 1) `div` 2) 0 53)
    as (d & Hfd & Hdl & Hdm); [lia | lia | change (2 ^ 0) with 1; lia |].
  destruct (float_at_least_finite _ _ _ _ Hdl Hdm) as (md & ed & ->).
  rewrite Hfd. simpl mbind. unfold float_truediv.
  set (height_step := SFdiv prec emax height (S754_finite false md ed)).
  fold half. fold pos_step.
  destruct (triangle_probes_loop_spec center height height_step pos_step
              (py_range (- half) (half + 1))) as (out & Hout & Hall).
  { apply Forall_forall. intros i Hi. unfold py_range in Hi.
    apply elem_of_seqZ in Hi. lia. }
  exists out. split; [done|].
  pose proof (Forall2_length _ _ _ Hall) as Hlen.
  unfold py_range in Hlen. rewrite length_seqZ in Hlen.
  assert (Hidx : ∀ (k : nat) p, out !! k = Some p →
            Z.of_nat k < 2 * half + 1 ∧
            p.1 = center + (- half + Z.of_nat k) * pos_step ∧
            ∃ a, float_of_int (Z.abs (- half + Z.of_nat k)) = Ok a ∧
                 p.2 = float_add (float_sub height (float_mul height_step a))
                                 float_0_1).
  { intros k p Hk.
    assert (Z.of_nat k < 2 * half + 1) by (apply lookup_lt_Some in Hk; lia).
    split; [done|].
    destruct (Forall2_lookup_r _ _ _ _ _ Hall Hk) as (i & Hi & Hp).
    unfold py_range in Hi. rewrite lookup_seqZ in Hi.
    destruct Hi as [-> _]. done. }
  split; [lia|]. split.
  - intros k p Hk. destruct (Hidx k p Hk) as (_ & -> & _). f_equal. lia.
  - intros k p q Hk Hq.
    destruct (Hidx k p Hk) as (Hlt & Hp1 & a & Ha & Hp2).
    destruct (Hidx _ q Hq) as (_ & Hq1 & a' & Ha' & Hq2).
    rewrite Z2Nat.id in Hq1, Ha' by lia.
    replace (Z.abs (- half + (2 * half - Z.of_nat k)))
      with (Z.abs (- half + Z.of_nat k)) in Ha' by lia.
    split; [lia|]. congruence.
Qed.

Lemma triangle_probes_symmetric_witness :
  let half := 4 `div` 2 in
  let pos_step := (101 - 1) `div` (4 - 1) in
  ∃ out, triangle_probes 1000 float_2_5 101 4 = (out, Returned) ∧
    Z.of_nat (length out) = 2 * half + 1 ∧
    (∀ (k : nat) p, out !! k = Some p →
       p.1 = 1000 + (Z.of_nat k - half) * pos_step) ∧
    (∀ (k : nat) p q, out !! k = Some p →
       out !! Z.to_nat (2 * half - Z.of_nat k) = Some q →
       p.1 - 1000 = 1000 - q.1 ∧ p.2 = q.2).
Proof. apply (triangle_probes_symmetric 1000 float_2_5 101 4). lia. Defined.

(** With fewer than three steps the height step divides by zero:
    [steps = 1] fails on [(width - 1) // 0], [steps = 2] on
    [height / 0]. *)
Example triangle_probes_too_few_steps :
  triangle_probes 1000 float_2_5 5001 1 = ([], Raised ZeroDivisionError) ∧
  triangle_probes 1000 float_2_5 5001 2 = ([], Raised ZeroDivisionError).
Proof. split; reflexivity. Qed.
(** ** The default output path *)

Lemma split_on_sep_app sep s1 s2 :
  split_on sep (s1 +:+ String sep s2) = split_on sep s1 ++ split_on sep s2.
Proof.
  induction s1 as [|c s1 IH].
  - rewrite app_nil_string. simpl. by rewrite Ascii.eqb_refl.
  - rewrite app_cons_string. simpl. rewrite IH.
    destruct (Ascii.eqb c sep); [done|].
    pose proof (split_on_nonempty sep s1).
    by destruct (split_on sep s1).
Qed.

Lemma app_empty_string (s : string) : s +:+ "" = s.
Proof. induction s as [|c s IH]; [done|]. by rewrite app_cons_string, IH. Qed.

(** [sep.join(s.split(sep)) == s]. *)
Lemma py_join_split (sep : ascii) (s : string) :
  py_join (String sep "") (split_on sep s) = s.
Proof.
  induction s as [|c s IH]; [done|]. simpl.
  destruct (Ascii.eqb_spec c sep) as [->|Hne].
  - pose proof (split_on_nonempty sep s).
    destruct (split_on sep s) as [|p ps] eqn:Hs; [done|].
    rewrite <- IH. reflexivity.
  - pose proof (split_on_nonempty sep s).
    destruct (split_on sep s) as [|p ps] eqn:Hs; [done|].
    rewrite <- IH. destruct ps; reflexivity.
Qed.

Lemma py_slice_init {A} (l : list A) (x : A) :
  py_slice (l ++ [x]) 0 (Z.of_nat (length (l ++ [x])) - 1) = l.
Proof.
  unfold py_slice. rewrite !slice_index_inside by (rewrite ?length_app; simpl; lia).
  rewrite length_app. simpl.
  replace (Z.to_nat (Z.min 0 _)) with 0%nat by lia.
  rewrite drop_0, Nat.sub_0_r.
  replace (Z.to_nat _) with (length l) by lia.
  by rewrite take_app_length.
Qed.

(** The default output path replaces what follows the last dot of the
    VCF path by [cgh]: for [vcf = base + "." + ext] with no dot in [ext]
    it is [base + ".cgh"]; a path without any dot gives [.cgh], the whole
    name being taken for the extension. *)
Theorem default_out_extension (base ext vcf : string) :
  (lacks "." ext → default_out (base +:+ "." +:+ ext) = base +:+ ".cgh") ∧
  (lacks "." vcf → default_out vcf = ".cgh").
Proof.
  split.
  - intros Hext. unfold default_out.
    change ("." +:+ ext) with (String "." ext).
    rewrite split_on_sep_app, (split_on_lacks "." ext Hext).
    rewrite py_slice_init. by rewrite py_join_split.
  - intros Hvcf. unfold default_out.
    by rewrite (split_on_lacks "." vcf Hvcf).
Qed.

(** The last dot of the path counts, wherever it is: a dot in a directory
    name cuts the path there. *)
Example default_out_examples :
  default_out "calls/sample.sv.vcf" = "calls/sample.sv.cgh" ∧
  default_out "run.1/sample" = "run.cgh".
Proof. split; reflexivity. Qed.
(** ** The height of a coverage probe *)

(** A probe of height zero is never made: whatever the coverage, the mean
    and [MAX_HEIGHT], a height that [coverage_height] returns is not zero
    (CytoSure does not display probes at height 0.0). *)
Theorem coverage_height_never_zero (cov mean_coverage : float)
    (MAX_HEIGHT height : info_value) :
  coverage_height cov mean_coverage MAX_HEIGHT = Ok height →
  truthy height = true.
Proof.
  unfold coverage_height.
  destruct (py_mul _ _) as [doubled|]; [|done]. simpl.
  destruct (py_truediv _ _) as [ratio|] eqn:Hratio; [|done]. simpl.
  assert (∃ q, ratio = VFloat q) as [q ->].
  { unfold py_truediv in Hratio.
    destruct doubled as [x|f|s]; [| |done];
      [destruct (float_of_int x); [|done]; simpl in Hratio|];
      (destruct (float_truediv _ _); [|done]); injection Hratio as <-; eauto. }
  change (py_sub (VFloat q) (VInt 2))
    with (Ok (VFloat (float_sub q (S754_finite false 4503599627370496 (-51))))
          : result info_value).
  set (raw := float_sub q _). simpl.
  unfold py_min.
  destruct (py_lt MAX_HEIGHT (VFloat raw)) as [smaller|] eqn:Hlt; [|done].
  simpl. intros [= <-].
  assert (Hh : ∃ h, (if smaller then MAX_HEIGHT else VFloat raw) = h ∧
                    match h with VStr _ => False | _ => True end).
  { destruct smaller; [|by eexists]. exists MAX_HEIGHT. split; [done|].
    by destruct MAX_HEIGHT. }
  destruct Hh as (h & -> & Hh). unfold py_eq.
  destruct h as [z|f|s]; [| |done].
  - destruct z; done.
  - destruct f as [?|[|]| |[|] ? ?]; done.
Qed.

Lemma coverage_height_never_zero_witness :
  coverage_height float_2_5 float_2_5 (VInt 4) = Ok (VFloat float_0_01) ∧
  truthy (VFloat float_0_01) = true.
Proof.
  assert (H : coverage_height float_2_5 float_2_5 (VInt 4)
              = Ok (VFloat float_0_01)) by (vm_compute; reflexivity).
  split; [exact H|].
  exact (coverage_height_never_zero float_2_5 float_2_5 (VInt 4)
           (VFloat float_0_01) H).
Defined.

Example coverage_height_values :
  coverage_height float_2_5 float_2_5 (VInt 4) = Ok (VFloat float_0_01) ∧
  coverage_height float_2_5 float_0_01 (VInt 4) = Ok (VInt 4).
Proof. split; vm_compute; reflexivity. Qed.

Lemma py_sum_from_zeros (values : list float) :
  Forall (eq (S754_zero false)) values →
  py_sum_from (VFloat (S754_zero false)) values = Ok (VFloat (S754_zero false)).
Proof. induction 1 as [|x values <- _ IH]; [done|]. simpl. exact IH. Qed.

(** Coverage that is zero everywhere divides by zero: when every record
    on a known contig has coverage 0.0, the mean coverage of
    [add_coverage_probes] is 0.0, and with a mean of zero the height of
    every probe raises [ZeroDivisionError]. *)
Theorem zero_coverage_divides_by_zero (CONTIG_LENGTHS : gmap string Z)
    (records : list CoverageRecord) (cov : float) (MAX_HEIGHT : info_value) :
  known_coverages CONTIG_LENGTHS records ≠ [] →
  Z.of_nat (length (known_coverages CONTIG_LENGTHS records)) ≤ 2 ^ 53 →
  Forall (λ r, coverage r = S754_zero false)
         (known_coverages CONTIG_LENGTHS records) →
  mean_coverage CONTIG_LENGTHS records = Ok (VFloat (S754_zero false)) ∧
  coverage_height cov (S754_zero false) MAX_HEIGHT = Raise ZeroDivisionError.
Proof.
  intros Hne Hlen Hzero. split.
  - unfold mean_coverage.
    set (coverages := known_coverages CONTIG_LENGTHS records) in *.
    assert (Hsum : py_sum_from (VInt 0) (coverage <$> coverages)
                   = Ok (VFloat (S754_zero false))).
    { destruct coverages as [|r rs]; [done|].
      apply Forall_cons in Hzero as [Hr Hrs]. csimpl. rewrite Hr.
      change (py_add_num (VInt 0) (VFloat (S754_zero false)))
        with (Ok (VFloat (S754_zero false)) : result info_value).
      simpl. apply py_sum_from_zeros.
      apply Forall_fmap. eapply Forall_impl; [exact Hrs|]. done. }
    rewrite Hsum. simpl.
    assert (1 ≤ Z.of_nat (length coverages))
      by (destruct coverages; [done | simpl; lia]).
    destruct (float_of_int_range (Z.of_nat (length coverages)) 0 53)
      as (g & Hg & Hgl & Hgm); [lia | lia | change (2 ^ 0) with 1; lia |].
    destruct (float_at_least_finite _ _ _ _ Hgl Hgm) as (m & e & ->).
    rewrite Hg. done.
  - unfold coverage_height.
    assert (Hmul : ∃ d, py_mul (VInt 2) (VFloat cov) = Ok (VFloat d)).
    { unfold py_mul, py_arith.
      change (float_of_int 2) with (Ok (S754_finite false 4503599627370496 (-51))
                                    : result float).
      simpl. eauto. }
    destruct Hmul as [d ->]. done.
Qed.

Lemma zero_coverage_divides_by_zero_witness :
  mean_coverage sample_contigs
    [{| cr_chrom := "1"; cr_start := 0; cr_end := 100;
        coverage := S754_zero false |}]
  = Ok (VFloat (S754_zero false)) ∧
  coverage_height (S754_zero false) (S754_zero false) (VInt 4)
  = Raise ZeroDivisionError.
Proof.
  apply (zero_coverage_divides_by_zero sample_contigs
    [{| cr_chrom := "1"; cr_start := 0; cr_end := 100;
        coverage := S754_zero false |}] (S754_zero false) (VInt 4)).
  - vm_compute. discriminate.
  - vm_compute. discriminate.
  - vm_compute. repeat constructor.
Defined.
(** ** [format_comment] *)

Lemma string_compare_refl (s : string) : String.compare s s = Eq.
Proof.
  induction s as [|c s IH]; [done|]. simpl.
  unfold Ascii.compare. by rewrite N.compare_refl.
Qed.

Lemma string_compare_trans (s1 : string) : ∀ s2 s3 c,
  String.compare s1 s2 ≠ Gt → String.compare s2 s3 ≠ Gt →
  String.compare s1 s3 = c → c ≠ Gt.
Proof.
  induction s1 as [|c1 s1 IH]; intros [|c2 s2] [|c3 s3] c; simpl; try congruence.
  unfold Ascii.compare.
  destruct (N.compare_spec (N_of_ascii c1) (N_of_ascii c2)) as [H12|H12|H12];
    destruct (N.compare_spec (N_of_ascii c2) (N_of_ascii c3)) as [H23|H23|H23];
    destruct (N.compare_spec (N_of_ascii c1) (N_of_ascii c3)) as [H13|H13|H13];
    try congruence; try lia; intros ? ? ?; try congruence.
  by eapply IH.
Qed.

#[global] Instance item_le_trans : Transitive item_le.
Proof.
  intros a b c. unfold item_le, String.leb. intros Hab Hbc.
  destruct (String.compare a.1 c.1) eqn:Hac; try done.
  exfalso. apply (string_compare_trans a.1 b.1 c.1 Gt); try done.
  - by destruct (String.compare a.1 b.1).
  - by destruct (String.compare b.1 c.1).
Qed.

#[global] Instance item_le_total : Total item_le.
Proof.
  intros a b. unfold item_le.
  destruct (String.leb_total a.1 b.1) as [->| ->]; [by left | by right].
Qed.

Lemma sorted_items_sorted info : StronglySorted item_le (sorted_items info).
Proof. apply StronglySorted_merge_sort; apply _. Qed.

Lemma sorted_items_elem info k v :
  (k, v) ∈ sorted_items info ↔ info !! k = Some v.
Proof.
  unfold sorted_items. rewrite merge_sort_Permutation.
  apply elem_of_map_to_list.
Qed.

Lemma StronglySorted_filter_list {A} (R : relation A) (P : A → Prop)
    `{∀ x, Decision (P x)} (l : list A) :
  StronglySorted R l → StronglySorted R (filter P l).
Proof.
  induction 1 as [|x l Hs IH Hall]; [constructor|].
  rewrite filter_cons. case_decide; [|done].
  constructor; [done|]. apply Forall_forall.
  intros y [_ Hy]%list_elem_of_filter. rewrite Forall_forall in Hall. by apply Hall.
Qed.

(** Sorting the items of a dict without the key [k] gives the sorted
    items without that of [k]. *)
Lemma sorted_items_delete (k : string) info :
  sorted_items (delete k info)
  = filter (λ item : string * info_value, item.1 ≠ k) (sorted_items info).
Proof.
  apply (StronglySorted_unique_strong item_le).
  - intros [k1 v1] [k2 v2] H1 H2 H12 H21.
    apply sorted_items_elem in H1.
    apply list_elem_of_filter in H2 as [_ H2]. apply sorted_items_elem in H2.
    unfold item_le in *. simpl in *.
    assert (k1 = k2) as ->
      by (apply String.leb_antisym; by apply Is_true_true).
    apply lookup_delete_Some in H1 as [_ H1]. congruence.
  - apply sorted_items_sorted.
  - apply StronglySorted_filter_list, sorted_items_sorted.
  - apply NoDup_Permutation.
    + unfold sorted_items. rewrite merge_sort_Permutation.
      apply NoDup_map_to_list.
    + apply NoDup_filter. unfold sorted_items.
      rewrite merge_sort_Permutation. apply NoDup_map_to_list.
    + intros [k' v]. rewrite list_elem_of_filter, !sorted_items_elem.
      rewrite lookup_delete_Some. simpl. intuition congruence.
Qed.

Lemma comment_step_skip py_str (k : string) :
  k = "CSQ" ∨ k = "SVTYPE" → ∀ l comment,
  foldl (comment_step py_str) comment
        (filter (λ item : string * info_value, item.1 ≠ k) l)
  = foldl (comment_step py_str) comment l.
Proof.
  intros Hk. induction l as [|[k' v] l IH]; intros comment; [done|].
  rewrite filter_cons. simpl. case_decide as Hne.
  - simpl. apply IH.
  - rewrite IH. f_equal. unfold comment_step. simpl.
    rewrite decide_True; [done|].
    destruct (decide (k' = k)) as [->|]; [done|]. by destruct Hne.
Qed.

(** [format_comment] does not look at the entries of [CSQ] and [SVTYPE]:
    the comment of a dict is the comment of the dict without these two
    keys. *)
Theorem format_comment_ignores (py_str : info_value → string)
    (info : gmap string info_value) :
  format_comment py_str info
  = format_comment py_str (delete "CSQ" (delete "SVTYPE" info)).
Proof.
  unfold format_comment. rewrite !sorted_items_delete.
  rewrite comment_step_skip by by left.
  by rewrite comment_step_skip by by right.
Qed.

Lemma comment_step_length py_str comment item :
  (String.length comment ≤ String.length (comment_step py_str comment item))%nat ∧
  (¬ (item.1 = "CSQ" ∨ item.1 = "SVTYPE") →
   (String.length comment < String.length (comment_step py_str comment item))%nat).
Proof.
  unfold comment_step. case_decide; [split; [lia | done]|].
  rewrite !length_app_string. simpl. split; [lia|]. intros _. lia.
Qed.

Lemma foldl_comment_step_length py_str l : ∀ comment,
  (String.length comment ≤ String.length (foldl (comment_step py_str) comment l))%nat ∧
  (Exists (λ item, ¬ (item.1 = "CSQ" ∨ item.1 = "SVTYPE")) l →
   (String.length comment < String.length (foldl (comment_step py_str) comment l))%nat).
Proof.
  induction l as [|item l IH]; intros comment; simpl.
  - split; [lia|]. by intros ?%Exists_nil.
  - destruct (IH (comment_step py_str comment item)) as [Hle Hlt].
    destruct (comment_step_length py_str comment item) as [Hle' Hlt'].
    split; [lia|].
    intros [Hitem|Hrest]%Exists_cons.
    + specialize (Hlt' Hitem). lia.
    + specialize (Hlt Hrest). lia.
Qed.

(** The comment is empty exactly when the dict has no key besides [CSQ]
    and [SVTYPE]; then [make_aberration] adds no [comments] element. *)
Theorem format_comment_empty (py_str : info_value → string)
    (info : gmap string info_value) :
  format_comment py_str info = "" ↔
  ∀ k, is_Some (info !! k) → k = "CSQ" ∨ k = "SVTYPE".
Proof.
  unfold format_comment. split.
  - intros Hempty k [v Hk].
    destruct (decide (k = "CSQ" ∨ k = "SVTYPE")) as [|Hkeep]; [done|].
    exfalso.
    destruct (foldl_comment_step_length py_str (sorted_items info) "")
      as [_ Hlt].
    rewrite Hempty in Hlt. simpl in Hlt.
    assert (0 < 0)%nat; [|lia]. apply Hlt.
    apply Exists_exists. exists (k, v). split; [|done].
    by apply sorted_items_elem.
  - intros Hall.
    assert (Hskip : ∀ l, Forall (λ item : string * info_value,
                                   item.1 = "CSQ" ∨ item.1 = "SVTYPE") l →
              ∀ comment, foldl (comment_step py_str) comment l = comment).
    { induction 1 as [|item l Hitem _ IH]; intros comment; [done|]. simpl.
      rewrite IH. unfold comment_step. by rewrite decide_True. }
    apply Hskip. apply Forall_forall. intros [k v] Hin. simpl.
    apply Hall. exists v. by apply sorted_items_elem.
Qed.

Example format_comment_sorted :
  format_comment (λ v, match v with VStr s => s | _ => "?" end)
    {[ "SVTYPE" := VStr "DEL"; "SVLEN" := VStr "-5100"; "END" := VStr "5200" ]}
  = newline +:+ "END: 5200" +:+ newline +:+ "SVLEN: -5100".
Proof. vm_compute. reflexivity. Qed.
(** ** [parse_coverages] *)

Lemma length_split_on sep s :
  length (split_on sep s) = S (occurrences sep s).
Proof.
  induction s as [|c s IH]; [done|]. simpl.
  destruct (Ascii.eqb c sep); simpl; [by rewrite IH|].
  pose proof (split_on_nonempty sep s).
  destruct (split_on sep s); [done|]. simpl in *. done.
Qed.

(** The lines [parse_coverages] accepts: a line that starts with [#] is
    skipped; any other line must hold exactly four tabs (five columns),
    otherwise the generator raises [ValueError] at that line -- for a
    blank line too. *)
Theorem parse_coverages_lines (py_float : string → result float)
    (line : string) (rest : list string) :
  (starts_with_hash line = true →
     parse_coverages py_float (line :: rest) = parse_coverages py_float rest) ∧
  (starts_with_hash line = false → occurrences "009" line ≠ 4%nat →
     parse_coverages py_float (line :: rest) = ([], Raised ValueError)).
Proof.
  split.
  - intros Hhash. simpl. unfold parse_coverage_line. by rewrite Hhash.
  - intros Hhash Htabs. simpl. unfold parse_coverage_line. rewrite Hhash.
    pose proof (length_split_on "009" line) as Hlen.
    destruct (split_on "009" line) as [|a [|b [|c [|d [|e [|f l]]]]]];
      simpl in Hlen; try done.
    exfalso. apply Htabs. lia.
Qed.

Example parse_coverages_blank_line :
  parse_coverages (λ _, Ok float_2_5)
    ["#CHR" +:+ String "009" "start";
     "1" +:+ String "009" ("0" +:+ String "009" ("100" +:+ String "009"
       ("2.5" +:+ String "009" "60")));
     ""]
  = ([{| cr_chrom := "1"; cr_start := 0; cr_end := 100;
         coverage := float_2_5 |}], Raised ValueError).
Proof. vm_compute. reflexivity. Qed.
